(** * The multi-provider analysis pipeline of [services/geminiService.ts]

    A shallow embedding of the retry engine, the client initializer, the four
    provider adapters, the task tracker and the orchestrator [runAnalysis],
    of the key verification of the same file and of the escaping and the
    citation summary of [utils/exportUtils.ts], followed by the properties of
    the specification that concern them and by further properties of the
    code.

    Conventions of the embedding.
    - A promise is the value it settles with: [Outcome A] is either
      [Resolved a] or [Rejected t], with [t] the thrown JavaScript value.
    - The network is an oracle.  Every call an adapter issues is answered by
      the reply the environment holds for it ([Exchange]); a theorem that
      quantifies over the oracle covers every behaviour of the providers.
    - Side effects on the task tracker are returned as explicit logs; the
      [onProgress] callback of the caller returns normally.
    - A string is held as the bytes of its UTF-8 encoding, and measured and
      cut by UTF-16 code unit where the code does so.
    - JSON numbers are integers, of those a double holds; their sums are
      rounded as the sums of doubles are. *)

From Stdlib Require Import ZArith Lia Sorted.
From stdpp Require Import base option strings list gmap pretty.

Set Warnings "-register-all".
Local Open Scope string_scope.

(** ** JavaScript values *)

(** What [response.json()] and [JSON.parse] produce, plus [undefined], which
    property access yields for a missing key. *)
Inductive Value :=
  | VUndefined
  | VNull
  | VBool (b : bool)
  | VNum (n : Z)
  | VStr (s : string)
  | VArr (items : list Value)
  | VObj (fields : list (string * Value)).

(** JavaScript truthiness, as tested by [!x], [x || d] and [x ? a : b]. *)
Definition truthy (v : Value) : bool :=
  match v with
  | VUndefined | VNull => false
  | VBool b => b
  | VNum n => negb (n =? 0)%Z
  | VStr s => negb (String.eqb s "")
  | VArr _ | VObj _ => true
  end.

(** [a || b]. *)
Definition or_else (a b : Value) : Value := if truthy a then a else b.

(** An optional string field of a TypeScript interface ([apiKeys.openai],
    [models[provider]], [response.error]): [None] is [undefined]. *)
Definition truthy_str (o : option string) : bool :=
  match o with
  | Some s => negb (String.eqb s "")
  | None => false
  end.

(** ** Errors and promises *)

(** The classes the code distinguishes with [instanceof]. [APIError] is the
    class declared in the service file; it carries the HTTP status.  The
    message of an error is a string, as the constructors make it. *)
Inductive ErrorClass :=
  | PlainError
  | TypeError
  | SyntaxError
  | APIError (status : Z).

Record JsError := mkError { err_class : ErrorClass; err_message : string }.

(** Anything can be thrown.  [ThrownValue repr msg] is a value that is not an
    [Error] instance and is neither [null] nor [undefined]: [repr] is
    [String(v)] and [msg] its [message] property when that is a string.
    [null] and [undefined] have no properties to read.  (A value that
    [String] cannot convert, such as an object without [toString], is not
    among the thrown values of the embedding.) *)
Inductive Thrown :=
  | ThrownError (e : JsError)
  | ThrownValue (repr : string) (msg : option string)
  | ThrownNull
  | ThrownUndefined.

Inductive Outcome (A : Type) :=
  | Resolved (a : A)
  | Rejected (t : Thrown).
Arguments Resolved {A} a.
Arguments Rejected {A} t.

#[global] Instance Outcome_ret : MRet Outcome := @Resolved.
#[global] Instance Outcome_bind : MBind Outcome := λ A B f m,
  match m with
  | Resolved a => f a
  | Rejected t => Rejected t
  end.
#[global] Instance Outcome_fmap : FMap Outcome := λ A B f m,
  match m with
  | Resolved a => Resolved (f a)
  | Rejected t => Rejected t
  end.

Definition throw {A} (e : JsError) : Outcome A := Rejected (ThrownError e).

(** [Promise.all] over promises that settle in input order.  It resolves
    with every value in input order, and rejects as soon as one input
    rejects. *)
Fixpoint Promise_all {A} (ps : list (Outcome A)) : Outcome (list A) :=
  match ps with
  | [] => Resolved []
  | Resolved a :: ps' =>
      match Promise_all ps' with
      | Resolved l => Resolved (a :: l)
      | Rejected t => Rejected t
      end
  | Rejected t :: _ => Rejected t
  end.

(** One interleaving of concurrent tasks, each a queue of steps: the
    schedule names, step by step, the queue whose next element comes next;
    what is left when the schedule ends follows in queue order. *)
Fixpoint merge_by {A} (sched : list nat) (queues : list (list A)) : list A :=
  match sched with
  | [] => concat queues
  | i :: sched' =>
      match queues !! i with
      | Some (x :: q) => x :: merge_by sched' (<[i := q]> queues)
      | _ => merge_by sched' queues
      end
  end.

(** The promises [ps], all created before any of them is awaited, in the
    order in which they settle; which one settles first is the
    environment's choice, given as a schedule. *)
Definition settled {A} (order : list nat) (ps : list A) : list A :=
  merge_by order ((λ p, [p]) <$> ps).

Definition rejected_with {A} (p : Outcome A) : option Thrown :=
  match p with Rejected t => Some t | Resolved _ => None end.

(** [Promise.all] over promises that settle in the order [order]: it
    rejects with the first rejection in time, and resolves with every value
    in input order when there is none. *)
Definition Promise_all_by {A} (order : list nat) (ps : list (Outcome A))
    : Outcome (list A) :=
  match head (omap rejected_with (settled order ps)) with
  | Some t => Rejected t
  | None => Promise_all ps
  end.

(** ** Strings *)

Definition nl : string := String (Ascii.ascii_of_nat 10) "".

(** [s] without its prefix [needle], when it starts with it. *)
Fixpoint strip_prefix (needle s : string) : option string :=
  match needle with
  | EmptyString => Some s
  | String a needle' =>
      match s with
      | String b s' => if Ascii.eqb a b then strip_prefix needle' s' else None
      | EmptyString => None
      end
  end.

(** [s.includes(needle)]. *)
Fixpoint includes (needle s : string) : bool :=
  match strip_prefix needle s with
  | Some _ => true
  | None =>
      match s with
      | EmptyString => false
      | String _ s' => includes needle s'
      end
  end.

(** The rest of [s] after the first occurrence of [needle]. *)
Fixpoint after_first (needle s : string) : option string :=
  match strip_prefix needle s with
  | Some rest => Some rest
  | None =>
      match s with
      | EmptyString => None
      | String _ s' => after_first needle s'
      end
  end.

(** The part of [s] before the first occurrence of [needle]. *)
Fixpoint before_first (needle s : string) : option string :=
  match strip_prefix needle s with
  | Some _ => Some ""
  | None =>
      match s with
      | EmptyString => None
      | String c s' => String c <$> before_first needle s'
      end
  end.

(** *** Code units

    JavaScript measures and indexes a string by UTF-16 code unit.  A
    character that takes one, two or three bytes in UTF-8 is one code unit;
    a character that takes four bytes is two, a high and a low surrogate.
    A surrogate on its own, which cutting a string can leave, is held in
    the three bytes the encoding scheme gives its number. *)

(** The code units of the character the byte [c] starts; none for a
    continuation byte. *)
Definition units_of (c : Ascii.ascii) : nat :=
  let n := Ascii.nat_of_ascii c in
  if (n <? 128)%nat then 1
  else if (n <? 192)%nat then 0
  else if (n <? 240)%nat then 1
  else 2.

(** [s.length]. *)
Fixpoint js_length (s : string) : nat :=
  match s with
  | EmptyString => 0
  | String c rest => units_of c + js_length rest
  end.

(** The continuation bytes [s] starts with. *)
Fixpoint continuation (s : string) : string :=
  match s with
  | EmptyString => ""
  | String c rest =>
      match units_of c with
      | 0 => String c (continuation rest)
      | _ => ""
      end
  end.

(** The number of the character of four bytes that starts with [c1] and
    goes on in [rest], less 0x10000. *)
Definition astral_offset (c1 : Ascii.ascii) (rest : string) : N :=
  match rest with
  | String c2 (String c3 (String c4 _)) =>
      ((Ascii.N_of_ascii c1 mod 8) * 262144
       + (Ascii.N_of_ascii c2 mod 64) * 4096
       + (Ascii.N_of_ascii c3 mod 64) * 64
       + Ascii.N_of_ascii c4 mod 64
       - 65536)%N
  | _ => 0%N
  end.

(** The three bytes of the code unit [u], from 0x0800 on. *)
Definition unit_bytes (u : N) : string :=
  String (Ascii.ascii_of_N (224 + u / 4096))
    (String (Ascii.ascii_of_N (128 + (u / 64) mod 64))
       (String (Ascii.ascii_of_N (128 + u mod 64)) "")).

Definition high_surrogate (c1 : Ascii.ascii) (rest : string) : string :=
  unit_bytes (55296 + astral_offset c1 rest / 1024).

Definition low_surrogate (c1 : Ascii.ascii) (rest : string) : string :=
  unit_bytes (56320 + astral_offset c1 rest mod 1024).

(** [s.substring(0, n)]. *)
Fixpoint js_prefix (n : nat) (s : string) : string :=
  match s with
  | EmptyString => ""
  | String c rest =>
      match units_of c, n with
      | 0, _ => String c (js_prefix n rest)
      | _, 0 => ""
      | 1, S n' => String c (js_prefix n' rest)
      | _, 1 => high_surrogate c rest
      | _, S (S n') => String c (js_prefix n' rest)
      end
  end.

(** [s[i]]; there is none when [i] is not less than [s.length]. *)
Fixpoint js_unit_at (i : nat) (s : string) : option string :=
  match s with
  | EmptyString => None
  | String c rest =>
      match units_of c, i with
      | 0, _ => js_unit_at i rest
      | 1, 0 => Some (String c (continuation rest))
      | 1, S i' => js_unit_at i' rest
      | _, 0 => Some (high_surrogate c rest)
      | _, 1 => Some (low_surrogate c rest)
      | _, S (S i') => js_unit_at i' rest
      end
  end.

(** ** Retry engine *)

(** [error instanceof TypeError], [error instanceof APIError] (with its
    [status]) and [error.message] when [typeof error.message === 'string'],
    for an [error] that is not [null] or [undefined] (on those, reading
    [message] throws; see [isRetryableError]). *)
Definition instanceof_TypeError (error : Thrown) : bool :=
  match error with
  | ThrownError {| err_class := TypeError |} => true
  | _ => false
  end.

Definition APIError_status (error : Thrown) : option Z :=
  match error with
  | ThrownError {| err_class := APIError status |} => Some status
  | _ => None
  end.

Definition message_string (error : Thrown) : option string :=
  match error with
  | ThrownError e => Some (err_message e)
  | ThrownValue _ msg => msg
  | ThrownNull | ThrownUndefined => None
  end.

(** The two [instanceof] tests are false on every value that is not an
    object; the third test reads [error.message], which throws a
    [TypeError] on [null] and [undefined] (message as worded by V8). *)
Definition isRetryableError (error : Thrown) : Outcome bool :=
  if instanceof_TypeError error
     && bool_decide (message_string error = Some "Failed to fetch")
  then Resolved true
  else
    match APIError_status error with
    | Some status =>
        Resolved
          ((status =? 429)%Z || ((500 <=? status)%Z && (status <=? 504)%Z))
    | None =>
        match error with
        | ThrownNull =>
            throw (mkError TypeError
              "Cannot read properties of null (reading 'message')")
        | ThrownUndefined =>
            throw (mkError TypeError
              "Cannot read properties of undefined (reading 'message')")
        | _ =>
            Resolved
              match message_string error with
              | Some m => includes "rate limit" m || includes "503" m
              | None => false
              end
        end
    end.

(** [e instanceof Error ? e : new Error(String(e))]. *)
Definition toError (t : Thrown) : JsError :=
  match t with
  | ThrownError e => e
  | ThrownValue repr _ => mkError PlainError repr
  | ThrownNull => mkError PlainError "null"
  | ThrownUndefined => mkError PlainError "undefined"
  end.

(** What one run of the engine does, in order. *)
Inductive RetryEvent :=
  | EvCall (attempt : nat)
  | EvOnRetry (error : JsError) (attempt : nat)
  | EvSleep (ms : Z).

Definition backoff_delay (attempt : nat) : Z :=
  (1000 * 2 ^ Z.of_nat (attempt - 1))%Z.

Section retry.
Context {T : Type}.
(** [fn k] is what the [k]-th invocation of the wrapped operation settles
    with. *)
Variable fn : nat → Outcome T.
Variable retries : nat.

(** The [for] loop; [iters] counts the iterations it has left, which is
    [retries + 2 - attempt].  The result is the value returned or the value
    thrown: [lastError] ([None] is [null]), or, when the classifier itself
    throws inside the [catch] block, the [TypeError] it throws. *)
Fixpoint retry_loop (iters attempt : nat) (lastError : option JsError)
    : list RetryEvent * (T + option JsError) :=
  match iters with
  | 0 => ([], inr lastError)
  | S iters' =>
      match fn attempt with
      | Resolved v => ([EvCall attempt], inl v)
      | Rejected e =>
          let lastError := toError e in
          match isRetryableError e with
          | Rejected thrown => ([EvCall attempt], inr (Some (toError thrown)))
          | Resolved retryable =>
              if retryable && (attempt <=? retries)%nat
              then
                let '(evs, r) :=
                  retry_loop iters' (S attempt) (Some lastError) in
                (EvCall attempt :: EvOnRetry lastError attempt
                   :: EvSleep (backoff_delay attempt) :: evs, r)
              else ([EvCall attempt], inr (Some lastError))
          end
      end
  end.

Definition retryWithBackoff : list RetryEvent * (T + option JsError) :=
  retry_loop (retries + 1) 1 None.
End retry.

(** ** Data model ([types.ts]) *)

Inductive Provider := gemini | openai | perplexity | openai_websearch.

#[global] Instance Provider_eq_dec : EqDecision Provider.
Proof. solve_decision. Defined.

(** The string a [Provider] is at run time. *)
Definition provider_tag (p : Provider) : string :=
  match p with
  | gemini => "gemini"
  | openai => "openai"
  | perplexity => "perplexity"
  | openai_websearch => "openai-websearch"
  end.

Definition providerBaseNames (p : Provider) : string :=
  match p with
  | gemini => "Google Gemini"
  | openai => "OpenAI"
  | openai_websearch => "OpenAI Web Search"
  | perplexity => "Perplexity"
  end.

Record ApiKeys := {
  key_gemini : option string;
  key_openai : option string;
  key_perplexity : option string;
  supabaseUrl : option string;
  supabaseKey : option string
}.

Record AppConfig := {
  providers : list Provider;
  apiKeys : ApiKeys;
  models : Provider → option string;
  clientName : string;
  description : option string;
  competitors : list string;
  prompts : list string;
  additionalQuestions : list string;
  broadMatch : option bool
}.

Record AdditionalQuestionAnswer := { question : string; answer : Value }.

Record Citation := { index : nat; url : Value; title : Value }.

(** The two counters of an adapter, as they are at run time: numbers, as
    long as the counts that are added are numbers. *)
Record TokenUsage := { inputTokens : Value; outputTokens : Value }.

(** The fields are what the adapters store at run time: [response] and
    [brandAnalyses] are taken from the provider's JSON without a check, so
    they are [Value]s ([BrandAnalysis[]] is the type the code casts to). *)
Record ProviderResponse := {
  provider : Provider;
  response : Value;
  brandAnalyses : Value;
  additionalAnswers : list AdditionalQuestionAnswer;
  rawResponse : option string;
  error : option string;
  citations : option (list Citation);
  tokenUsage : option TokenUsage;
  analysisTokenUsage : option TokenUsage
}.

Record AnalysisResult := { prompt : string; providerResponses : list ProviderResponse }.

(** [Task['status']]; the status ['error'] is [failed] here, [error] being
    the name of a field. *)
Inductive Status := pending | in_progress | completed | failed.

Module Task.
Record t := mk {
  id : string;
  description : string;
  status : Status;
  error : option string;
  retries : option nat
}.
End Task.

(** [gemini] is the SDK client, which the model identifies with the key it
    was built from; [None] is [null] or [undefined]. *)
Record LlmClients := {
  client_gemini : option string;
  client_openai : option string;
  client_perplexity : option string
}.

(** ** Client initializer *)

Definition initializeClients (config : AppConfig) : JsError + LlmClients :=
  let ps := providers config in
  let keys := apiKeys config in
  if bool_decide (gemini ∈ ps) && negb (truthy_str (key_gemini keys))
  then inl (mkError PlainError "Google Gemini API Key is missing.")
  else inr {|
    client_gemini :=
      if bool_decide (gemini ∈ ps) then key_gemini keys else None;
    client_openai :=
      if (bool_decide (openai ∈ ps) || bool_decide (openai_websearch ∈ ps))
         && truthy_str (key_openai keys)
      then key_openai keys else None;
    client_perplexity :=
      if bool_decide (perplexity ∈ ps) && truthy_str (key_perplexity keys)
      then key_perplexity keys else None
  |}.

(** ** Reading JSON *)

Fixpoint lookup_field (k : string) (fields : list (string * Value)) : Value :=
  match fields with
  | [] => VUndefined
  | (k', v) :: rest => if String.eqb k k' then v else lookup_field k rest
  end.

(** [v.k] for a [v] that is neither [null] nor [undefined].  Only the own
    data properties of parsed JSON are modelled. *)
Definition prop (v : Value) (k : string) : Value :=
  match v with
  | VObj fields => lookup_field k fields
  | _ => VUndefined
  end.

Definition nullish (v : Value) : bool :=
  match v with VUndefined | VNull => true | _ => false end.

Definition null_name (v : Value) : string :=
  match v with VNull => "null" | _ => "undefined" end.

(** [v.k]: a [TypeError] on [null] and [undefined] (message as worded by
    V8). *)
Definition get (v : Value) (k : string) : Outcome Value :=
  if nullish v
  then throw (mkError TypeError
         ("Cannot read properties of " ++ null_name v
            ++ " (reading '" ++ k ++ "')"))
  else Resolved (prop v k).

(** [v[i]]. *)
Definition at_index (v : Value) (i : nat) : Outcome Value :=
  if nullish v
  then throw (mkError TypeError
         ("Cannot read properties of " ++ null_name v
            ++ " (reading '" ++ pretty i ++ "')"))
  else Resolved match v with
                | VArr items => default VUndefined (items !! i)
                | VStr s => from_option VStr VUndefined (js_unit_at i s)
                | VObj fields => lookup_field (pretty i) fields
                | _ => VUndefined
                end.

(** [v?.k] and [v?.[i]]. *)
Definition opt_get (v : Value) (k : string) : Value :=
  if nullish v then VUndefined else prop v k.

Definition opt_at (v : Value) (i : nat) : Value :=
  match at_index v i with Resolved x => x | Rejected _ => VUndefined end.

(** [v === s] for a string literal [s]. *)
Definition is_string (v : Value) (s : string) : bool :=
  match v with
  | VStr s' => String.eqb s' s
  | _ => false
  end.

(** [data.choices[0].message.content]. *)
Definition first_choice_content (data : Value) : Outcome Value :=
  choices ← get data "choices";
  choice ← at_index choices 0;
  message ← get choice "message";
  get message "content".

(** [data.choices?.[0]?.message]; [data] itself is dereferenced. *)
Definition first_choice_message (data : Value) : Outcome Value :=
  choices ← get data "choices";
  Resolved (opt_get (opt_at choices 0) "message").

(** [String(v)]; a number is printed in full, as JavaScript prints the
    integers below 10^21 in size. *)
Fixpoint String_ (v : Value) : string :=
  match v with
  | VUndefined => "undefined"
  | VNull => "null"
  | VBool true => "true"
  | VBool false => "false"
  | VNum n => pretty n
  | VStr s => s
  | VArr items =>
      (fix join (l : list Value) : string :=
         match l with
         | [] => ""
         | [x] => if nullish x then "" else String_ x
         | x :: rest => (if nullish x then "" else String_ x) ++ "," ++ join rest
         end) items
  | VObj _ => "[object Object]"
  end.

(** The double nearest to the integer [n], the even one of two that are
    equally near: what an addition of doubles gives when the exact sum is
    [n] (and is within the range of the doubles).  An integer of at most 53
    bits is a double. *)
Definition round_double (n : Z) : Z :=
  let m := Z.abs n in
  let bits := (Z.log2 m + 1)%Z in
  if (bits <=? 53)%Z then n
  else
    let shift := (bits - 53)%Z in
    let q := Z.shiftr m shift in
    let r := (m - Z.shiftl q shift)%Z in
    let half := Z.shiftl 1 (shift - 1) in
    let q' := if (half <? r)%Z || ((r =? half)%Z && Z.odd q)
              then (q + 1)%Z else q in
    (Z.sgn n * Z.shiftl q' shift)%Z.

(** [Number(v)] for a number, a boolean or [null]. *)
Definition to_number (v : Value) : Z :=
  match v with
  | VNum n => n
  | VBool true => 1%Z
  | _ => 0%Z
  end.

(** [a + b].  Numbers, booleans and [null] are added as numbers; when an
    operand is a string, an array or an object, the two are made strings
    and concatenated.  (The sum of a number and [undefined], which is NaN,
    does not occur: the adapters add counters, which start at 0, and values
    of the form [x || 0].) *)
Definition js_plus (a b : Value) : Value :=
  match a, b with
  | (VNum _ | VBool _ | VNull), (VNum _ | VBool _ | VNull) =>
      VNum (round_double (to_number a + to_number b))
  | _, _ => VStr (String_ a ++ String_ b)
  end.

(** [count || 0]. *)
Definition count_or_0 (v : Value) : Value := or_else v (VNum 0).

Definition no_tokens : TokenUsage :=
  {| inputTokens := VNum 0; outputTokens := VNum 0 |}.

(** [input += ...; output += ...], or nothing. *)
Definition add_tokens (counters : TokenUsage) (used : option TokenUsage)
    : TokenUsage :=
  match used with
  | Some u =>
      {| inputTokens := js_plus (inputTokens counters) (inputTokens u);
         outputTokens := js_plus (outputTokens counters) (outputTokens u) |}
  | None => counters
  end.

(** What [if (data.usage) { input += data.usage.prompt_tokens || 0; output +=
    data.usage.completion_tokens || 0 }] adds to the two counters: nothing
    when [data.usage] is falsy. *)
Definition read_usage (data : Value) : Outcome (option TokenUsage) :=
  usage ← get data "usage";
  Resolved
    (if truthy usage
     then Some {| inputTokens := count_or_0 (prop usage "prompt_tokens");
                  outputTokens := count_or_0 (prop usage "completion_tokens") |}
     else None).

(** The same for the Gemini SDK's [usageMetadata]. *)
Definition read_usageMetadata (data : Value) : Outcome (option TokenUsage) :=
  usage ← get data "usageMetadata";
  Resolved
    (if truthy usage
     then Some {| inputTokens := count_or_0 (prop usage "promptTokenCount");
                  outputTokens :=
                    js_plus (count_or_0 (prop usage "candidatesTokenCount"))
                            (count_or_0 (prop usage "thoughtsTokenCount")) |}
     else None).

(** An entry of [allRawResponses]. *)
Definition trace_entry (type : string) (data : Value) : Value :=
  VObj [("type", VStr type); ("data", data)].

Definition question_entry (q : string) (data : Value) : Value :=
  VObj [("type", VStr "additional_question"); ("question", VStr q); ("data", data)].

(** ** The network *)

(** What [fetch] followed by [response.json()] can do.  A network failure is
    [fetch] rejecting with [TypeError: Failed to fetch]. *)
Inductive FetchReply :=
  | FetchRejects (t : Thrown)
  | HttpResponse (status : Z) (statusText : string) (json : Outcome Value).

Definition failed_to_fetch : Thrown :=
  ThrownError (mkError TypeError "Failed to fetch").

(** The replies to the calls of one adapter invocation: the primary call, the
    analysis call, and the call for the [i]-th additional question; and the
    order in which the calls for the questions, which are issued together,
    settle. *)
Record Exchange (R : Type) := {
  primary : R;
  analysis : R;
  answer_call : nat → R;
  settling : list nat
}.
Arguments primary {R} _.
Arguments analysis {R} _.
Arguments answer_call {R} _ _.
Arguments settling {R} _.

(** The [catch] block of [genericAIFetch]. *)
Definition fetch_catch (hostname : string) (e : Thrown) : Thrown :=
  if instanceof_TypeError e
     && bool_decide (message_string e = Some "Failed to fetch")
  then ThrownError (mkError PlainError
         ("Network Error: Failed to connect to " ++ hostname
          ++ ". Please check your internet connection and any firewalls or browser extensions (like ad-blockers) that might be blocking the request."))
  else e.

Definition try_fetch {A} (hostname : string) (o : Outcome A) : Outcome A :=
  match o with
  | Resolved a => Resolved a
  | Rejected t => Rejected (fetch_catch hostname t)
  end.

(** [genericAIFetch(url, apiKey, body)], with [hostname] the host of [url] and
    [reply] the environment's answer to the request.  The promise of
    [response.json()] is returned without [await], so its rejection does not
    pass through the [catch] block. *)
Definition genericAIFetch (hostname : string) (reply : FetchReply) : Outcome Value :=
  match reply with
  | FetchRejects t => Rejected (fetch_catch hostname t)
  | HttpResponse status statusText json =>
      if (200 <=? status)%Z && (status <=? 299)%Z then json
      else try_fetch hostname
        (if (status =? 401)%Z
         then throw (mkError (APIError 401)
                "Authentication failed. Please check your API key.")
         else
           let errorData :=
             match json with
             | Resolved d => d
             | Rejected _ =>
                 VObj [("error", VObj [("message", VStr statusText)])]
             end in
           err ← get errorData "error";
           throw (mkError (APIError status)
                    (String_ (or_else (opt_get err "message") (VStr statusText)))))
  end.

(** ** Provider adapters *)

Definition fence_open : string := "```json" ++ nl.
Definition fence_close : string := nl ++ "```".

(** The first capture group of [/```json\n([\s\S]*?)\n```/] on [s]: the
    match starts at the first opening fence and the lazy group stops at the
    first closing fence after it. *)
Definition json_fence_match (s : string) : option string :=
  rest ← after_first fence_open s;
  before_first fence_close rest.

(** [content.match(/```json\n([\s\S]*?)\n```/)] on whatever [content] is. *)
Definition match_json_fence (content : Value) : Outcome (option string) :=
  match content with
  | VStr s => Resolved (json_fence_match s)
  | VUndefined | VNull =>
      throw (mkError TypeError
        ("Cannot read properties of " ++ null_name content ++ " (reading 'match')"))
  | _ =>
      throw (mkError TypeError
        "analysisData.choices[0].message.content.match is not a function")
  end.

(** The characters [trim()] removes are the white space and the line
    terminators of ECMAScript: U+0009 to U+000D, U+0020, U+00A0, U+1680,
    U+2000 to U+200A, U+2028, U+2029, U+202F, U+205F, U+3000 and U+FEFF.
    In UTF-8 they take one, two or three bytes. *)
Definition is_js_space (c : Ascii.ascii) : bool :=
  let n := Ascii.nat_of_ascii c in
  (n =? 32)%nat || ((9 <=? n)%nat && (n <=? 13)%nat).

Definition is_js_space2 (c1 c2 : Ascii.ascii) : bool :=
  let a := Ascii.nat_of_ascii c1 in
  let b := Ascii.nat_of_ascii c2 in
  (a =? 194)%nat && (b =? 160)%nat.                         (* U+00A0 *)

Definition is_js_space3 (c1 c2 c3 : Ascii.ascii) : bool :=
  let a := Ascii.nat_of_ascii c1 in
  let b := Ascii.nat_of_ascii c2 in
  let c := Ascii.nat_of_ascii c3 in
  ((a =? 225)%nat && (b =? 154)%nat && (c =? 128)%nat)      (* U+1680 *)
  || ((a =? 226)%nat && (b =? 128)%nat
      && (((128 <=? c)%nat && (c <=? 138)%nat)              (* U+2000-U+200A *)
          || (c =? 168)%nat || (c =? 169)%nat               (* U+2028, U+2029 *)
          || (c =? 175)%nat))                               (* U+202F *)
  || ((a =? 226)%nat && (b =? 129)%nat && (c =? 159)%nat)   (* U+205F *)
  || ((a =? 227)%nat && (b =? 128)%nat && (c =? 128)%nat)   (* U+3000 *)
  || ((a =? 239)%nat && (b =? 187)%nat && (c =? 191)%nat).  (* U+FEFF *)

(** [!text.trim()]: every character of [text] is one that [trim()]
    removes. *)
Fixpoint is_blank (text : string) : bool :=
  match text with
  | EmptyString => true
  | String c1 rest1 =>
      if is_js_space c1 then is_blank rest1
      else
        match rest1 with
        | EmptyString => false
        | String c2 rest2 =>
            if is_js_space2 c1 c2 then is_blank rest2
            else
              match rest2 with
              | EmptyString => false
              | String c3 rest3 => is_js_space3 c1 c2 c3 && is_blank rest3
              end
        end
  end.

Section adapters.
(** [JSON.parse] and [JSON.stringify(_, null, 2)] of the host. *)
Variable JSON_parse : string → Outcome Value.
Variable JSON_stringify : Value → string.

Variable config : AppConfig.

(** One callback of [additionalQuestions.map(async (question) => ...)] of
    the OpenAI and Perplexity adapters: the answer, the entry pushed on
    [allRawResponses] and the tokens counted. *)
Definition answer_question (hostname : string) (q : string) (reply : FetchReply)
    : Outcome (AdditionalQuestionAnswer * Value * option TokenUsage) :=
  answerData ← genericAIFetch hostname reply;
  used ← read_usage answerData;
  content ← first_choice_content answerData;
  Resolved ({| question := q; answer := content |},
            question_entry q answerData, used).

Definition answer_questions (hostname : string) (ex : Exchange FetchReply)
    : Outcome (list (AdditionalQuestionAnswer * Value * option TokenUsage)) :=
  Promise_all_by (settling ex)
    (imap (λ i q, answer_question hostname q (answer_call ex i))
          (additionalQuestions config)).

Definition answers_of
    (l : list (AdditionalQuestionAnswer * Value * option TokenUsage))
    : list AdditionalQuestionAnswer := (λ x, x.1.1) <$> l.
(** The entries the callbacks push on [allRawResponses], each when its
    call settles. *)
Definition entries_of (order : list nat)
    (l : list (AdditionalQuestionAnswer * Value * option TokenUsage))
    : list Value := (λ x, x.1.2) <$> settled order l.
(** The counters after the callbacks have added to them, each when its
    call settles. *)
Definition tokens_of (order : list nat)
    (l : list (AdditionalQuestionAnswer * Value * option TokenUsage))
    (counters : TokenUsage) : TokenUsage :=
  foldl (λ acc x, add_tokens acc x.2) counters (settled order l).

(** *** Gemini *)

(** The [catch] block of the Gemini adapter. *)
Definition gemini_catch (e : Thrown) : Thrown :=
  let error :=
    match e with
    | ThrownError err => err_message err
    | _ => "An unknown Gemini error occurred."
    end in
  if includes "API key not valid" error
  then ThrownError (mkError PlainError
         "Authentication failed. Please check if the Google Gemini API key is correct and valid.")
  else e.

Definition gemini_answer (q : string) (call : Outcome Value)
    : Outcome (AdditionalQuestionAnswer * Value * option TokenUsage) :=
  answerResult ← call;
  used ← read_usageMetadata answerResult;
  text ← get answerResult "text";
  Resolved ({| question := q; answer := text |},
            question_entry q answerResult, used).

(** [ex] holds what each [client.models.generateContent] call settles
    with; the SDK's response object is read through its [text] and
    [usageMetadata] properties. *)
Definition runGeminiAnalysisForPrompt (ex : Exchange (Outcome Value))
    : Outcome ProviderResponse :=
  match
    rawResult ← primary ex;
    other ← read_usageMetadata rawResult;
    response ← get rawResult "text";
    analysisResult ← analysis ex;
    analysisTokens ← read_usageMetadata analysisResult;
    text ← get analysisResult "text";
    brandAnalyses ← JSON_parse (String_ text);
    answers ← Promise_all_by (settling ex)
      (imap (λ i q, gemini_answer q (answer_call ex i))
            (additionalQuestions config));
    Resolved {|
      provider := gemini;
      response := response;
      brandAnalyses := brandAnalyses;
      additionalAnswers := answers_of answers;
      rawResponse := Some (JSON_stringify (VArr
        (trace_entry "initial_prompt" rawResult
         :: trace_entry "brand_analysis" analysisResult
         :: entries_of (settling ex) answers)));
      error := None;
      citations := None;
      tokenUsage :=
      Some (tokens_of (settling ex) answers (add_tokens no_tokens other));
      analysisTokenUsage := Some (add_tokens no_tokens analysisTokens)
    |}
  with
  | Resolved r => Resolved r
  | Rejected e => Rejected (gemini_catch e)
  end.

(** *** OpenAI *)

Definition runOpenAIAnalysisForPrompt (ex : Exchange FetchReply)
    : Outcome ProviderResponse :=
  rawData ← genericAIFetch "api.openai.com" (primary ex);
  other ← read_usage rawData;
  response ← first_choice_content rawData;
  analysisData ← genericAIFetch "api.openai.com" (analysis ex);
  analysisTokens ← read_usage analysisData;
  content ← first_choice_content analysisData;
  parsed ← JSON_parse (String_ content);
  brands ← get parsed "brands";
  answers ← answer_questions "api.openai.com" ex;
  Resolved {|
    provider := openai;
    response := response;
    brandAnalyses := or_else brands (VArr []);
    additionalAnswers := answers_of answers;
    rawResponse := Some (JSON_stringify (VArr
      (trace_entry "initial_prompt" rawData
       :: trace_entry "brand_analysis" analysisData
       :: entries_of (settling ex) answers)));
    error := None;
    citations := None;
    tokenUsage :=
      Some (tokens_of (settling ex) answers (add_tokens no_tokens other));
    analysisTokenUsage := Some (add_tokens no_tokens analysisTokens)
  |}.
(** *** OpenAI web search *)

(** The body of the loop over [mainResponseMessage.annotations]; the state
    is [citationIndex] and [citations]. *)
Definition cite_annotation (st : nat * list Citation) (annotation : Value)
    : nat * list Citation :=
  let url_citation := opt_get annotation "url_citation" in
  if is_string (opt_get annotation "type") "url_citation"
     && truthy (opt_get url_citation "url")
  then (S st.1,
        (st.2 ++ [{| index := st.1;
                     url := prop url_citation "url";
                     title := prop url_citation "title" |}])%list)
  else st.

Definition websearch_citations (message : Value) : list Citation :=
  match prop message "annotations" with
  | VArr annotations => (foldl cite_annotation (1, []) annotations).2
  | _ => []
  end.

Definition websearch_answer (q : string) (reply : FetchReply)
    : Outcome (AdditionalQuestionAnswer * Value * option TokenUsage) :=
  answerData ← genericAIFetch "api.openai.com" reply;
  used ← read_usage answerData;
  message ← first_choice_message answerData;
  Resolved ({| question := q;
               answer := or_else (opt_get message "content")
                                 (VStr "Could not generate an answer.") |},
            question_entry q answerData, used).

Definition runOpenAIWebSearchAnalysisForPrompt (ex : Exchange FetchReply)
    : Outcome ProviderResponse :=
  rawData ← genericAIFetch "api.openai.com" (primary ex);
  other ← read_usage rawData;
  mainResponseMessage ← first_choice_message rawData;
  if negb (truthy mainResponseMessage)
  then throw (mkError PlainError
         "Invalid response structure from OpenAI Chat Completions API.")
  else
    let responseText :=
      match prop mainResponseMessage "content" with
      | VStr s => s
      | _ => ""
      end in
    let citations := websearch_citations mainResponseMessage in
    let responseText :=
      if is_blank responseText
      then "No text summary provided by the model."
      else responseText in
    analysisData ← genericAIFetch "api.openai.com" (analysis ex);
    analysisTokens ← read_usage analysisData;
    analysisMessage ← first_choice_message analysisData;
    let analysisContent := opt_get analysisMessage "content" in
    brandAnalyses ←
      (if truthy analysisContent
       then parsed ← JSON_parse (String_ analysisContent);
            brands ← get parsed "brands";
            Resolved (or_else brands (VArr []))
       else Resolved (VArr []));
    answers ← Promise_all_by (settling ex)
      (imap (λ i q, websearch_answer q (answer_call ex i))
            (additionalQuestions config));
    Resolved {|
      provider := openai_websearch;
      response := VStr responseText;
      brandAnalyses := brandAnalyses;
      additionalAnswers := answers_of answers;
      rawResponse := Some (JSON_stringify (VArr
        (trace_entry "initial_web_search" rawData
         :: trace_entry "brand_analysis" analysisData
         :: entries_of (settling ex) answers)));
      error := None;
      citations := Some citations;
      tokenUsage :=
      Some (tokens_of (settling ex) answers (add_tokens no_tokens other));
      analysisTokenUsage := Some (add_tokens no_tokens analysisTokens)
    |}.

(** *** Perplexity *)

(** The state of the citation parser: [foundUrls], [citationIndex] and
    [citations]. *)
Record CitationState := {
  foundUrls : gset string;
  citationIndex : nat;
  collected : list Citation
}.

(** [if (!foundUrls.has(url)) { foundUrls.add(url); citations.push({ index:
    citationIndex++, url, title }) }]. *)
Definition cite (st : CitationState) (u : string) (t : Value) : CitationState :=
  if bool_decide (u ∈ foundUrls st) then st
  else {| foundUrls := {[u]} ∪ foundUrls st;
          citationIndex := S (citationIndex st);
          collected := (collected st
            ++ [{| index := citationIndex st; url := VStr u; title := t |}])%list |}.

(** The callback over [rawData.citations]. *)
Definition cite_url (st : CitationState) (u : Value) : CitationState :=
  match u with
  | VStr s => cite st s (VStr "")
  | _ => st
  end.

(** The callback over [rawData.search_results]. *)
Definition cite_search_result (st : CitationState) (result : Value) : CitationState :=
  if truthy result
  then match prop result "url" with
       | VStr s => cite st s (or_else (prop result "title") (VStr ""))
       | _ => st
       end
  else st.

Definition array_items (v : Value) : list Value :=
  match v with VArr items => items | _ => [] end.

(** The citation block; [rawData] has been dereferenced before, so it is
    neither [null] nor [undefined]. *)
Definition perplexity_citations (rawData : Value) : list Citation :=
  let st0 := {| foundUrls := ∅; citationIndex := 1; collected := [] |} in
  let st1 := foldl cite_url st0 (array_items (prop rawData "citations")) in
  let st2 := foldl cite_search_result st1
               (array_items (prop rawData "search_results")) in
  collected st2.

Definition runPerplexityAnalysisForPrompt (ex : Exchange FetchReply)
    : Outcome ProviderResponse :=
  rawData ← genericAIFetch "api.perplexity.ai" (primary ex);
  other ← read_usage rawData;
  pResponse ← first_choice_content rawData;
  let citations := perplexity_citations rawData in
  analysisData ← genericAIFetch "api.perplexity.ai" (analysis ex);
  analysisTokens ← read_usage analysisData;
  content ← first_choice_content analysisData;
  jsonMatch ← match_json_fence content;
  brandAnalyses ←
    match jsonMatch with
    | Some payload => parsed ← JSON_parse payload; get parsed "brands"
    | None => Resolved (VArr [])
    end;
  answers ← answer_questions "api.perplexity.ai" ex;
  Resolved {|
    provider := perplexity;
    response := pResponse;
    brandAnalyses := brandAnalyses;
    additionalAnswers := answers_of answers;
    rawResponse := Some (JSON_stringify (VArr
      (trace_entry "initial_prompt" rawData
       :: trace_entry "brand_analysis" analysisData
       :: entries_of (settling ex) answers)));
    error := None;
    citations := Some citations;
    tokenUsage :=
      Some (tokens_of (settling ex) answers (add_tokens no_tokens other));
    analysisTokenUsage := Some (add_tokens no_tokens analysisTokens)
  |}.
End adapters.

(** ** Task tracker *)

Definition dquote : string := String (Ascii.ascii_of_nat 34) "".

(** [`prompt-${pIndex}-${provider}`]. *)
Definition task_id (pIndex : nat) (p : Provider) : string :=
  "prompt-" ++ pretty pIndex ++ "-" ++ provider_tag p.

(** [prompt.length > 40 ? prompt.substring(0, 40) + '...' : prompt]. *)
Definition shortPrompt (prompt : string) : string :=
  if (40 <? js_length prompt)%nat
  then js_prefix 40 prompt ++ "..."
  else prompt.

Definition new_task (config : AppConfig) (pIndex : nat) (prompt : string)
    (p : Provider) : Task.t :=
  let modelName := if truthy_str (models config p)
                   then default "" (models config p) else "default" in
  {| Task.id := task_id pIndex p;
     Task.description :=
       "Analyzing " ++ dquote ++ shortPrompt prompt ++ dquote ++ " with "
       ++ providerBaseNames p ++ " (" ++ modelName ++ ")";
     Task.status := pending;
     Task.error := None;
     Task.retries := None |}.

(** The two nested [forEach] loops that fill [tasks]. *)
Definition initial_tasks (config : AppConfig) : list Task.t :=
  concat (imap (λ pIndex prompt, new_task config pIndex prompt <$> providers config)
               (prompts config)).

(** The arguments of one call of [updateTaskStatus]. *)
Record Update := {
  upd_id : string;
  upd_status : Status;
  upd_error : option string;
  upd_retries : option nat
}.

(** The assignments to [tasks[taskIndex]]. *)
Definition updated (t : Task.t) (u : Update) : Task.t :=
  {| Task.id := Task.id t;
     Task.description := Task.description t;
     Task.status := upd_status u;
     Task.error := if truthy_str (upd_error u) then upd_error u else Task.error t;
     Task.retries := match upd_retries u with
                     | Some r => Some r
                     | None => Task.retries t
                     end |}.

(** [tasks.findIndex(t => t.id === taskId)]. *)
Definition findIndex (taskId : string) (tasks : list Task.t) : option (nat * Task.t) :=
  list_find (λ t, Task.id t = taskId) tasks.

(** [updateTaskStatus]: the array after the call, and the snapshot handed to
    [onProgress] when the task was found. *)
Definition updateTaskStatus (tasks : list Task.t) (u : Update)
    : list Task.t * option (list Task.t) :=
  match findIndex (upd_id u) tasks with
  | Some (taskIndex, t) =>
      let tasks' := <[taskIndex := updated t u]> tasks in
      (tasks', Some tasks')
  | None => (tasks, None)
  end.

(** The snapshots a sequence of calls emits, each as it is at the moment it
    is handed to [onProgress].  ([[...tasks]] copies the array, not the
    tasks: a snapshot the observer keeps changes with the later updates.) *)
Fixpoint replay (tasks : list Task.t) (calls : list Update) : list (list Task.t) :=
  match calls with
  | [] => []
  | u :: rest =>
      let '(tasks', snapshot) := updateTaskStatus tasks u in
      match snapshot with
      | Some s => s :: replay tasks' rest
      | None => replay tasks' rest
      end
  end.

(** ** Orchestrator *)

(** The environment of a run: the replies to the calls of the adapter
    invocation made for prompt [pIndex], for the provider at position [slot]
    of [config.providers], on attempt [attempt] of the retry engine. *)
Record World := {
  sdk_calls : nat → nat → nat → Exchange (Outcome Value);
  http_calls : nat → nat → nat → Exchange FetchReply
}.

(** The interleavings of queues: the elements of every queue in their order,
    the queues in any order relative to each other. *)
Inductive Interleaving {A} : list (list A) → list A → Prop :=
  | Interleaving_done queues :
      Forall (λ q, q = []) queues → Interleaving queues []
  | Interleaving_step queues i x q l :
      queues !! i = Some (x :: q) →
      Interleaving (<[i := q]> queues) l →
      Interleaving queues (x :: l).

(** What the callback of [config.providers.map] does for one provider. *)
Inductive UnitRun :=
  | UnitRefused (e : JsError)
      (* it threw in the [switch], before the [try] block *)
  | UnitRan (calls : list Update) (outcome : Outcome ProviderResponse).
      (* it went through the retry engine: the later calls of
         [updateTaskStatus] and what its promise settles with *)

Section orchestrator.
Variable JSON_parse : string → Outcome Value.
Variable JSON_stringify : Value → string.
(** [JSON.stringify(e, Object.getOwnPropertyNames(e), 2)] for an error: the
    text, or what the call throws (a [TypeError] when an own property of the
    error is cyclic or holds a BigInt). *)
Variable stringify_error : JsError → Outcome string.

Variable config : AppConfig.
Variable world : World.
(** The interleaving of the provider tasks, one schedule per prompt. *)
Variable sched : nat → list nat.

(** The [switch]: the error thrown when the client or the model is
    missing. *)
Definition not_initialized (clients : LlmClients) (p : Provider) : option JsError :=
  match p with
  | gemini =>
      if negb (bool_decide (is_Some (client_gemini clients)))
         || negb (truthy_str (models config gemini))
      then Some (mkError PlainError "Gemini client not initialized properly.")
      else None
  | openai =>
      if negb (truthy_str (client_openai clients))
         || negb (truthy_str (models config openai))
      then Some (mkError PlainError "OpenAI client not initialized properly.")
      else None
  | openai_websearch =>
      if negb (truthy_str (client_openai clients))
         || negb (truthy_str (models config openai_websearch))
      then Some (mkError PlainError
             "OpenAI Web Search client not initialized properly.")
      else None
  | perplexity =>
      if negb (truthy_str (client_perplexity clients))
         || negb (truthy_str (models config perplexity))
      then Some (mkError PlainError "Perplexity client not initialized properly.")
      else None
  end.

(** [providerFunction], as a function of the attempt that invokes it. *)
Definition providerFunction (pIndex slot : nat) (p : Provider) (attempt : nat)
    : Outcome ProviderResponse :=
  match p with
  | gemini =>
      runGeminiAnalysisForPrompt JSON_parse JSON_stringify config
        (sdk_calls world pIndex slot attempt)
  | openai =>
      runOpenAIAnalysisForPrompt JSON_parse JSON_stringify config
        (http_calls world pIndex slot attempt)
  | openai_websearch =>
      runOpenAIWebSearchAnalysisForPrompt JSON_parse JSON_stringify config
        (http_calls world pIndex slot attempt)
  | perplexity =>
      runPerplexityAnalysisForPrompt JSON_parse JSON_stringify config
        (http_calls world pIndex slot attempt)
  end.

Definition enter (taskId : string) : Update :=
  {| upd_id := taskId; upd_status := in_progress;
     upd_error := None; upd_retries := None |}.

(** The calls of [updateTaskStatus] made by [onRetry]. *)
Definition retry_updates (taskId : string) (evs : list RetryEvent) : list Update :=
  omap (λ ev, match ev with
              | EvOnRetry _ attempt =>
                  Some {| upd_id := taskId; upd_status := in_progress;
                          upd_error := None; upd_retries := Some attempt |}
              | _ => None
              end) evs.

(** The [try] block and its [catch]: the last call of [updateTaskStatus]
    and what the callback's promise settles with.  In the [catch] block the
    task is marked first and the error serialized after, outside any guard:
    when the serialization throws, the promise is rejected. *)
Definition settle (taskId : string) (p : Provider)
    (r : ProviderResponse + option JsError) : Update * Outcome ProviderResponse :=
  match r with
  | inl response =>
      (if truthy_str (error response)
       then {| upd_id := taskId; upd_status := failed;
               upd_error := error response; upd_retries := None |}
       else {| upd_id := taskId; upd_status := completed;
               upd_error := None; upd_retries := None |},
       Resolved response)
  | inr e =>
      let errorMsg := match e with
                      | Some err => err_message err
                      | None => "An unknown error occurred."
                      end in
      ({| upd_id := taskId; upd_status := failed;
          upd_error := Some errorMsg; upd_retries := None |},
       match e with
       | Some err =>
           rawErrorResponse ← stringify_error err;
           Resolved {| provider := p; response := VStr "";
                       brandAnalyses := VArr []; additionalAnswers := [];
                       rawResponse := Some rawErrorResponse;
                       error := Some errorMsg; citations := None;
                       tokenUsage := None; analysisTokenUsage := None |}
       | None =>
           (* [Object.getOwnPropertyNames(null)] *)
           throw (mkError TypeError "Cannot convert undefined or null to object")
       end)
  end.

Definition run_unit (clients : LlmClients) (pIndex slot : nat) (p : Provider)
    : UnitRun :=
  let taskId := task_id pIndex p in
  match not_initialized clients p with
  | Some e => UnitRefused e
  | None =>
      let '(evs, r) := retryWithBackoff (providerFunction pIndex slot p) 2 in
      let '(last, outcome) := settle taskId p r in
      UnitRan (retry_updates taskId evs ++ [last])%list outcome
  end.

Definition refusal (u : UnitRun) : option JsError :=
  match u with UnitRefused e => Some e | UnitRan _ _ => None end.
Definition later_calls (u : UnitRun) : list Update :=
  match u with UnitRefused _ => [] | UnitRan calls _ => calls end.
Definition unit_outcome (u : UnitRun) : Outcome ProviderResponse :=
  match u with
  | UnitRefused e => throw e
  | UnitRan _ outcome => outcome
  end.

(** What a unit that went through the retry engine does, in order: its
    later calls of [updateTaskStatus] and, when its promise is rejected, the
    rejection, which comes after its last call. *)
Definition later_steps (u : UnitRun) : list (Update + Thrown) :=
  match u with
  | UnitRefused _ => []
  | UnitRan calls outcome =>
      ((inl <$> calls)
       ++ match outcome with
          | Rejected t => [inr t]
          | Resolved _ => []
          end)%list
  end.

(** The calls made before the first rejection, and that rejection.
    [Promise.all] rejects with the first rejection in time, and with it the
    run; what the other callbacks do afterwards happens after the run has
    settled. *)
Fixpoint until_rejection (steps : list (Update + Thrown))
    : list Update * option Thrown :=
  match steps with
  | [] => ([], None)
  | inl u :: rest =>
      let '(calls, rejection) := until_rejection rest in (u :: calls, rejection)
  | inr t :: _ => ([], Some t)
  end.

(** One iteration of the loop over the prompts: the calls of
    [updateTaskStatus] until [Promise.all] settles, and what it settles
    with.  Every callback first marks its task [in_progress]; this happens
    for all providers, in order, before anything is awaited.  A callback
    that throws in the [switch] leaves a rejected promise, which makes
    [Promise.all] reject before any network reply arrives.  Otherwise the
    callbacks go on interleaved, until one of them is rejected or all have
    resolved. *)
Definition run_prompt (clients : LlmClients) (pIndex : nat)
    : list Update * Outcome (list ProviderResponse) :=
  let units := imap (run_unit clients pIndex) (providers config) in
  let entered := (λ p, enter (task_id pIndex p)) <$> providers config in
  match head (omap refusal units) with
  | Some e => (entered, throw e)
  | None =>
      let '(later, rejection) :=
        until_rejection (merge_by (sched pIndex) (later_steps <$> units)) in
      ((entered ++ later)%list,
       match rejection with
       | Some t => Rejected t
       | None => Promise_all (unit_outcome <$> units)
       end)
  end.

(** The loop over [config.prompts.entries()], from index [pIndex] on. *)
Fixpoint run_prompts (clients : LlmClients) (pIndex : nat) (ps : list string)
    : list Update * Outcome (list AnalysisResult) :=
  match ps with
  | [] => ([], Resolved [])
  | prompt :: rest =>
      match run_prompt clients pIndex with
      | (calls, Rejected e) => (calls, Rejected e)
      | (calls, Resolved providerResponses) =>
          let '(calls', r) := run_prompts clients (S pIndex) rest in
          ((calls ++ calls')%list,
           cons {| prompt := prompt; providerResponses := providerResponses |}
             <$> r)
      end
  end.

(** A run as its caller observes it: the calls of [updateTaskStatus] made
    until the returned promise settles, the snapshots passed to [onProgress]
    until then, and what the promise settles with. *)
Record Run := {
  calls : list Update;
  progress : list (list Task.t);
  result : Outcome (list AnalysisResult)
}.

Definition runAnalysis : Run :=
  match initializeClients config with
  | inl e => {| calls := []; progress := []; result := throw e |}
  | inr clients =>
      let tasks := initial_tasks config in
      let run := run_prompts clients 0 (prompts config) in
      {| calls := run.1;
         progress := tasks :: replay tasks run.1;
         result := run.2 |}
  end.
End orchestrator.

(** ** Key verification *)

(** [genericAIFetchGet(url, apiKey)]: the body of [genericAIFetch] with
    [method: 'GET'] and no request body. *)
Definition genericAIFetchGet (hostname : string) (reply : FetchReply) : Outcome Value :=
  match reply with
  | FetchRejects t => Rejected (fetch_catch hostname t)
  | HttpResponse status statusText json =>
      if (200 <=? status)%Z && (status <=? 299)%Z then json
      else try_fetch hostname
        (if (status =? 401)%Z
         then throw (mkError (APIError 401)
                "Authentication failed. Please check your API key.")
         else
           let errorData :=
             match json with
             | Resolved d => d
             | Rejected _ =>
                 VObj [("error", VObj [("message", VStr statusText)])]
             end in
           err ← get errorData "error";
           throw (mkError (APIError status)
                    (String_ (or_else (opt_get err "message") (VStr statusText)))))
  end.

(** [{ isValid, error? }], the result of a key verification. *)
Module Verification.
Record t := mk { isValid : bool; error : option string }.
End Verification.

(** [(e as APIError).status === 401]: of the errors that reach the handler
    from the two request helpers, only [APIError]s have a [status].  (The
    verification of a Gemini key goes through the SDK, whose errors carry a
    status of their own; it is not embedded.) *)
Definition handleVerificationError (e : Thrown) (provider : string) : Verification.t :=
  let errorMessage :=
    match e with
    | ThrownError err =>
        let errorMessage := err_message err in
        if includes "API key not valid" errorMessage
           || bool_decide (APIError_status e = Some 401%Z)
        then "Authentication failed. The API key is invalid or has been revoked."
        else if includes "Network Error" errorMessage
        then "Could not connect to " ++ provider
             ++ "'s servers. Please check your network connection."
        else errorMessage
    | _ =>
        "An unknown error occurred while verifying the " ++ provider ++ " key."
    end in
  {| Verification.isValid := false; Verification.error := Some errorMessage |}.

(** [reply] answers the request to [https://api.openai.com/v1/models]. *)
Definition verifyOpenAIApiKey (reply : FetchReply) : Verification.t :=
  match genericAIFetchGet "api.openai.com" reply with
  | Resolved _ => {| Verification.isValid := true; Verification.error := None |}
  | Rejected e => handleVerificationError e "OpenAI"
  end.

(** [reply] answers the request to
    [https://api.perplexity.ai/chat/completions]. *)
Definition verifyPerplexityApiKey (reply : FetchReply) : Verification.t :=
  match genericAIFetch "api.perplexity.ai" reply with
  | Resolved _ => {| Verification.isValid := true; Verification.error := None |}
  | Rejected e => handleVerificationError e "Perplexity"
  end.

(** ** Report export ([utils/exportUtils.ts]) *)

(** [s.replace(/c/g, replacement)] for a single character [c] and a
    replacement text without [$]. *)
Fixpoint replace_all (c : Ascii.ascii) (replacement s : string) : string :=
  match s with
  | EmptyString => EmptyString
  | String c' s' =>
      (if Ascii.eqb c' c then replacement else String c' EmptyString)
      ++ replace_all c replacement s'
  end.

Definition ampersand : Ascii.ascii := Ascii.ascii_of_nat 38.
Definition less_than : Ascii.ascii := Ascii.ascii_of_nat 60.
Definition greater_than : Ascii.ascii := Ascii.ascii_of_nat 62.
Definition double_quote : Ascii.ascii := Ascii.ascii_of_nat 34.
Definition single_quote : Ascii.ascii := Ascii.ascii_of_nat 39.

(** The five [replace] calls of [escapeHtml], in their order. *)
Definition replace_specials (s : string) : string :=
  replace_all single_quote "&#039;"
    (replace_all double_quote "&quot;"
       (replace_all greater_than "&gt;"
          (replace_all less_than "&lt;"
             (replace_all ampersand "&amp;" s)))).

(** [escapeHtml(unsafe)] on whatever the caller passes: the function is
    applied to fields of provider responses, which are not checked to be
    strings. *)
Definition escapeHtml (unsafe : Value) : Outcome string :=
  if negb (truthy unsafe) then Resolved ""
  else match unsafe with
       | VStr s => Resolved (replace_specials s)
       | _ => throw (mkError TypeError "unsafe.replace is not a function")
       end.

(** The entries of the citation summary: [{ title, url, count }]. *)
Module CitationSummary.
Record t := mk { title : Value; url : string; count : nat }.
End CitationSummary.

Definition question_mark : Ascii.ascii := Ascii.ascii_of_nat 63.

(** [s.split('?')[0]]. *)
Fixpoint before_question_mark (s : string) : string :=
  match s with
  | EmptyString => EmptyString
  | String c s' =>
      if Ascii.eqb c question_mark then EmptyString
      else String c (before_question_mark s')
  end.

(** [citation.url.split('?')[0]] on whatever [url] is. *)
Definition baseUrl (u : Value) : Outcome string :=
  match u with
  | VStr s => Resolved (before_question_mark s)
  | VUndefined | VNull =>
      throw (mkError TypeError
        ("Cannot read properties of " ++ null_name u ++ " (reading 'split')"))
  | _ => throw (mkError TypeError "citation.url.split is not a function")
  end.

(** One step on [citationMap], a [Map] from base URL to entry, kept as the
    list of its entries in insertion order: the entry for [base] is counted
    once more, or a new entry is added at the end. *)
Fixpoint count_citation (base : string) (title : Value)
    (citationMap : list CitationSummary.t) : list CitationSummary.t :=
  match citationMap with
  | [] => [CitationSummary.mk title base 1]
  | existing :: rest =>
      if String.eqb (CitationSummary.url existing) base
      then CitationSummary.mk (CitationSummary.title existing)
             (CitationSummary.url existing)
             (S (CitationSummary.count existing)) :: rest
      else existing :: count_citation base title rest
  end.

(** The citations the three nested [forEach] loops visit, in order. *)
Definition visited_citations (results : list AnalysisResult) : list Citation :=
  result ← results;
  pResponse ← providerResponses result;
  default [] (citations pResponse).

Fixpoint count_citations (citationMap : list CitationSummary.t)
    (cs : list Citation) : Outcome (list CitationSummary.t) :=
  match cs with
  | [] => Resolved citationMap
  | citation :: rest =>
      base ← baseUrl (url citation);
      count_citations (count_citation base (title citation) citationMap)
                      rest
  end.

(** [sort((a, b) => b.count - a.count)]: the sort of the language is
    stable, so its result is the one of a stable insertion sort by
    descending count. *)
Fixpoint insert_by_count (x : CitationSummary.t) (l : list CitationSummary.t)
    : list CitationSummary.t :=
  match l with
  | [] => [x]
  | y :: l' =>
      if (CitationSummary.count y <=? CitationSummary.count x)%nat
      then x :: y :: l'
      else y :: insert_by_count x l'
  end.

Definition sort_by_count (l : list CitationSummary.t) : list CitationSummary.t :=
  foldr insert_by_count [] l.

(** [aggregatedCitations], the rows of the citation summary table of
    [generateAllCitationsTable] (and of the [AllCitationsTable] component);
    no table is produced when there are none. *)
Definition aggregatedCitations (results : list AnalysisResult)
    : Outcome (list CitationSummary.t) :=
  citationMap ← count_citations [] (visited_citations results);
  Resolved (sort_by_count citationMap).

(** ** The notions of the specification *)

(** What the classifier sees of a network-transport failure: [fetch]
    rejecting with [TypeError: Failed to fetch]. *)
Definition is_network_failure (t : Thrown) : bool :=
  instanceof_TypeError t
  && bool_decide (message_string t = Some "Failed to fetch").

(** The classifier as the specification words it: retryable exactly for
    network-transport failures and HTTP responses with status 429 or 5xx. *)
Definition spec_retryable (t : Thrown) : bool :=
  is_network_failure t
  || match APIError_status t with
     | Some status =>
         (status =? 429)%Z || ((500 <=? status)%Z && (status <=? 599)%Z)
     | None => false
     end.

(** A 5xx status above the range the classifier tests. *)
Definition status_above_504 (t : Thrown) : bool :=
  match APIError_status t with
  | Some status => (505 <=? status)%Z && (status <=? 599)%Z
  | None => false
  end.

(** The error [genericAIFetch] substitutes for a failed [fetch]. *)
Definition is_rewrapped_network_failure (t : Thrown) : bool :=
  match t with
  | ThrownError {| err_class := PlainError; err_message := m |} =>
      bool_decide (is_Some (strip_prefix "Network Error: Failed to connect to " m))
  | _ => false
  end.

(** The message carries one of the two markers the classifier looks for. *)
Definition has_retry_marker (t : Thrown) : bool :=
  match message_string t with
  | Some m => includes "rate limit" m || includes "503" m
  | None => false
  end.





(** A text contains a fenced [json] block: an opening fence, a payload and a
    closing fence. *)
Definition has_json_fence (s : string) : Prop :=
  ∃ a b c, s = a ++ fence_open ++ b ++ fence_close ++ c.

(** [allBrands], the brands named in the configuration. *)
Definition allBrands (config : AppConfig) : list string :=
  clientName config :: competitors config.

(** The entries of a brand-analysis list for the brand [b]. *)
Definition brand_entries (b : string) (analyses : Value) : list Value :=
  filter (λ e, Is_true (is_string (prop e "brandName") b)) (array_items analyses).

(** The entry the specification expects for a brand the model left out. *)
Definition not_mentioned (b : string) : Value :=
  VObj [("brandName", VStr b); ("mentions", VNum 0);
        ("sentiment", VStr "Not Mentioned")].

(** Every selected provider has a credential and a model identifier. *)
Definition key_for (keys : ApiKeys) (p : Provider) : option string :=
  match p with
  | gemini => key_gemini keys
  | openai | openai_websearch => key_openai keys
  | perplexity => key_perplexity keys
  end.

Definition configured (config : AppConfig) (p : Provider) : bool :=
  truthy_str (key_for (apiKeys config) p) && truthy_str (models config p).

Definition valid_config (config : AppConfig) : Prop :=
  ∀ p, p ∈ providers config → configured config p = true.

(** The messages of the errors thrown for a configuration that lacks a
    credential or a model identifier: by [initializeClients], and by the
    [switch] of [runAnalysis]. *)
Definition configuration_errors : list string :=
  ["Google Gemini API Key is missing.";
   "Gemini client not initialized properly.";
   "OpenAI client not initialized properly.";
   "OpenAI Web Search client not initialized properly.";
   "Perplexity client not initialized properly."].

Definition is_configuration_error (t : Thrown) : Prop :=
  ∃ msg, t = ThrownError (mkError PlainError msg) ∧ msg ∈ configuration_errors.

(** The [ProviderResult] the orchestrator synthesizes for a failed unit
    whose error [e] has the dump [raw]. *)
Definition failure_result (raw : string) (p : Provider) (e : JsError)
    : ProviderResponse :=
  {| provider := p; response := VStr ""; brandAnalyses := VArr [];
     additionalAnswers := []; rawResponse := Some raw;
     error := Some (err_message e); citations := None;
     tokenUsage := None; analysisTokenUsage := None |}.

(** [JSON.stringify] has a dump for the error the engine ends with when the
    operation [fn] fails for good. *)
Definition has_dump {T} (stringify_error : JsError → Outcome string)
    (fn : nat → Outcome T) : Prop :=
  ∀ e, (retryWithBackoff fn 2).2 = inr (Some e) →
       ∃ raw, stringify_error e = Resolved raw.

(** The same of every unit of the run. *)
Definition failures_have_dumps (stringify_error : JsError → Outcome string)
    (config : AppConfig)
    (providerFunction : nat → nat → Provider → nat → Outcome ProviderResponse)
    : Prop :=
  ∀ pIndex text slot p,
    prompts config !! pIndex = Some text →
    providers config !! slot = Some p →
    has_dump stringify_error (providerFunction pIndex slot p).

(** The lifecycle [pending → in_progress → {completed | error}] as a step
    from a task [t] to its next state [t']: [in_progress] is entered from
    [pending], re-entered with the retry counter incremented, and left for
    [completed] or [error]; nothing follows those. *)
Definition lifecycle_step (t t' : Task.t) : Prop :=
  match Task.status t, Task.status t' with
  | pending, in_progress => Task.retries t' = Task.retries t
  | in_progress, in_progress =>
      Task.retries t' = Some (S (default 0 (Task.retries t)))
  | in_progress, completed | in_progress, failed => True
  | _, _ => False
  end.

(** Every call of [updateTaskStatus] in [calls], made in this order on
    [tasks], finds its task and moves it by a step of the lifecycle. *)
Fixpoint follows_lifecycle (tasks : list Task.t) (calls : list Update) : Prop :=
  match calls with
  | [] => True
  | u :: rest =>
      match findIndex (upd_id u) tasks with
      | Some (_, t) => lifecycle_step t (updated t u)
      | None => False
      end
      ∧ follows_lifecycle (updateTaskStatus tasks u).1 rest
  end.

(** ** Notions of the further properties *)

(** [response.ok]. *)
Definition response_ok (status : Z) : Prop := (200 ≤ status ≤ 299)%Z.

(** The statuses the classifier retries. *)
Definition retried_status (status : Z) : Prop :=
  (status = 429 ∨ 500 ≤ status ≤ 504)%Z.

(** The milliseconds a run of the engine asks [setTimeout] for, in total. *)
Definition total_wait (evs : list RetryEvent) : Z :=
  foldr (λ ev acc, match ev with EvSleep ms => (ms + acc)%Z | _ => acc end) 0%Z evs.

(** The attempts a run of the engine makes. *)
Definition attempts (evs : list RetryEvent) : list nat :=
  omap (λ ev, match ev with EvCall k => Some k | _ => None end) evs.



Definition backtick : Ascii.ascii := Ascii.ascii_of_nat 96.

(** The character [c] does not occur in [s]. *)
Fixpoint avoids (c : Ascii.ascii) (s : string) : Prop :=
  match s with
  | EmptyString => True
  | String c' s' => c' ≠ c ∧ avoids c s'
  end.

(** The host an HTTP adapter sends its requests to. *)
Definition api_host (p : Provider) : string :=
  match p with
  | perplexity => "api.perplexity.ai"
  | _ => "api.openai.com"
  end.

(** The error the request helpers substitute for a failed [fetch]. *)
Definition network_error (hostname : string) : JsError :=
  mkError PlainError
    ("Network Error: Failed to connect to " ++ hostname
     ++ ". Please check your internet connection and any firewalls or browser extensions (like ad-blockers) that might be blocking the request.").

(** The call of [updateTaskStatus] made by [onRetry] on attempt [k]. *)
Definition retry_update (taskId : string) (k : nat) : Update :=
  {| upd_id := taskId; upd_status := in_progress;
     upd_error := None; upd_retries := Some k |}.

(** The task array after a sequence of calls of [updateTaskStatus]. *)
Definition final_tasks (tasks : list Task.t) (calls : list Update) : list Task.t :=
  foldl (λ ts u, (updateTaskStatus ts u).1) tasks calls.

(** What [escapeHtml] writes for one character. *)
Definition escape_char (c : Ascii.ascii) : string :=
  if Ascii.eqb c ampersand then "&amp;"
  else if Ascii.eqb c less_than then "&lt;"
  else if Ascii.eqb c greater_than then "&gt;"
  else if Ascii.eqb c double_quote then "&quot;"
  else if Ascii.eqb c single_quote then "&#039;"
  else String c EmptyString.

Fixpoint escape_each (s : string) : string :=
  match s with
  | EmptyString => EmptyString
  | String c s' => escape_char c ++ escape_each s'
  end.

(** The base URL of a citation whose [url] is a string. *)
Definition base_of (c : Citation) : option string :=
  match url c with
  | VStr s => Some (before_question_mark s)
  | _ => None
  end.

(** How many of the citations [cs] have the base URL [base]. *)
Definition occurrences (base : string) (cs : list Citation) : nat :=
  length (filter (λ c, base_of c = Some base) cs).

(** The count the map [m] holds for the base URL [base]; 0 without an
    entry. *)
Definition counted (base : string) (m : list CitationSummary.t) : nat :=
  sum_list (CitationSummary.count
              <$> filter (λ e, CitationSummary.url e = base) m).

(** Sorted by descending count. *)
Definition by_descending_count (a b : CitationSummary.t) : Prop :=
  (CitationSummary.count b ≤ CitationSummary.count a)%nat.

(** ** Sample inputs *)

Module Sample.

Definition q (s : string) : string := dquote ++ s ++ dquote.

(** The analysis of a model that reports [Acme] only, as the JSON array the
    Gemini adapter asks for and as the object with a [brands] member the
    OpenAI adapter asks for. *)
Definition acme_entry_text : string :=
  "{" ++ q "brandName" ++ ":" ++ q "Acme" ++ "," ++ q "mentions" ++ ":1,"
  ++ q "sentiment" ++ ":" ++ q "Positive" ++ "}".
Definition acme_array_text : string := "[" ++ acme_entry_text ++ "]".
Definition acme_object_text : string :=
  "{" ++ q "brands" ++ ":[" ++ acme_entry_text ++ "]}".

Definition acme_entry : Value :=
  VObj [("brandName", VStr "Acme"); ("mentions", VNum 1);
        ("sentiment", VStr "Positive")].

(** [JSON.parse] on the two texts above; no other text is parsed in the
    examples. *)
Definition JSON_parse (text : string) : Outcome Value :=
  if String.eqb text acme_array_text then Resolved (VArr [acme_entry])
  else if String.eqb text acme_object_text
  then Resolved (VObj [("brands", VArr [acme_entry])])
  else throw (mkError SyntaxError "Unexpected end of JSON input").

(** The examples do not look at serialized traces. *)
Definition JSON_stringify (v : Value) : string := "[...]".

(** What [JSON.stringify] throws on an error that holds a reference to
    itself in its own property [self] (message as worded by V8). *)
Definition circular_structure : JsError :=
  mkError TypeError
    ("Converting circular structure to JSON" ++ nl
     ++ "    --> starting at object with constructor 'Error'" ++ nl
     ++ "    --- property 'self' closes the circle").

(** The dump of an error.  An error whose message says [circular] stands
    for one that holds a reference to itself in its own property [self],
    which [JSON.stringify] refuses. *)
Definition stringify_error (e : JsError) : Outcome string :=
  if includes "circular" (err_message e)
  then throw circular_structure
  else Resolved ("{" ++ q "message" ++ ": " ++ q (err_message e) ++ "}").

Definition no_keys : ApiKeys :=
  {| key_gemini := None; key_openai := None; key_perplexity := None;
     supabaseUrl := None; supabaseKey := None |}.

Definition all_keys : ApiKeys :=
  {| key_gemini := Some "g-key"; key_openai := Some "o-key";
     key_perplexity := Some "p-key";
     supabaseUrl := None; supabaseKey := None |}.

Definition default_models (p : Provider) : option string :=
  Some match p with
       | gemini => "gemini-2.5-flash"
       | openai => "gpt-4o-mini"
       | openai_websearch => "gpt-4o-search-preview"
       | perplexity => "sonar"
       end.

Definition config (ps : list Provider) (keys : ApiKeys) : AppConfig :=
  {| providers := ps; apiKeys := keys; models := default_models;
     clientName := "Acme"; description := None; competitors := ["Globex"];
     prompts := ["Who leads PIM software?"]; additionalQuestions := [];
     broadMatch := Some false |}.

(** A chat-completion body whose first choice has the given content. *)
Definition chat_body (content : string) : Value :=
  VObj [("choices", VArr [VObj [("message", VObj [("content", VStr content)])]])].

Definition ok (body : Value) : FetchReply := HttpResponse 200 "OK" (Resolved body).

Definition http_exchange (primary_text analysis_text : string) : Exchange FetchReply :=
  {| primary := ok (chat_body primary_text);
     analysis := ok (chat_body analysis_text);
     answer_call := λ _, ok (chat_body "Not in the text.");
     settling := [] |}.

Definition sdk_exchange (primary_text analysis_text : string)
    : Exchange (Outcome Value) :=
  {| primary := Resolved (VObj [("text", VStr primary_text)]);
     analysis := Resolved (VObj [("text", VStr analysis_text)]);
     answer_call := λ _, Resolved (VObj [("text", VStr "Not in the text.")]);
     settling := [] |}.

(** Every call is answered with HTTP 503. *)
Definition unavailable : FetchReply :=
  HttpResponse 503 "Service Unavailable"
    (Resolved (VObj [("error", VObj [("message", VStr "overloaded")])])).

Definition overloaded : Thrown :=
  ThrownError (mkError (APIError 503) "overloaded").

Definition unauthorized : Thrown :=
  ThrownError (mkError (APIError 401)
    "Authentication failed. Please check your API key.").

(** A parse failure at offset 503 of the text. *)
Definition parse_failure : Thrown :=
  ThrownError (mkError SyntaxError
    "Expected ',' or '}' after property value in JSON at position 503").

(** An operation that fails with HTTP 503 on every attempt. *)
Definition always_overloaded (attempt : nat) : Outcome Value :=
  Rejected overloaded.

(** A plain object thrown as it is, [{ message: 'rate limit exceeded' }],
    and an operation that throws it on every attempt. *)
Definition rate_limited : Thrown :=
  ThrownValue "[object Object]" (Some "rate limit exceeded").

Definition always_rate_limited (attempt : nat) : Outcome Value :=
  Rejected rate_limited.

(** An error that holds a reference to itself in its own property [self]
    (see [stringify_error]). *)
Definition self_referring : Thrown :=
  ThrownError (mkError PlainError "circular reference in the request").

Definition down : World :=
  {| sdk_calls := λ _ _ _,
       {| primary := Rejected overloaded; analysis := Rejected overloaded;
          answer_call := λ _, Rejected overloaded;
          settling := [] |};
     http_calls := λ _ _ _,
       {| primary := unavailable; analysis := unavailable;
          answer_call := λ _, unavailable;
          settling := [] |} |}.

Definition healthy : World :=
  {| sdk_calls := λ _ _ _, sdk_exchange "Acme leads." acme_array_text;
     http_calls := λ _ _ _, http_exchange "Acme leads." acme_object_text |}.

(** The HTTP providers answer; every call of the Gemini SDK rejects with
    the self-referring error. *)
Definition entangled : World :=
  {| sdk_calls := λ _ _ _,
       {| primary := Rejected self_referring;
          analysis := Rejected self_referring;
          answer_call := λ _, Rejected self_referring;
          settling := [] |};
     http_calls := λ _ _ _, http_exchange "Acme leads." acme_object_text |}.

(** An operation that is overloaded once and then answers. *)
Definition second_time_lucky (attempt : nat) : Outcome Value :=
  if (attempt =? 1)%nat then Rejected overloaded else Resolved (VStr "ok").

(** An analysis reply that wraps its JSON in a fenced block. *)
Definition fenced_analysis : string :=
  "Here is the analysis:" ++ fence_open ++ acme_object_text ++ fence_close
  ++ " Done.".

(** The SDK rejecting an invalid key, on every call. *)
Definition invalid_key : Thrown :=
  ThrownError (mkError PlainError
    "API key not valid. Please pass a valid API key.").

Definition rejected_key : Exchange (Outcome Value) :=
  {| primary := Rejected invalid_key; analysis := Rejected invalid_key;
     answer_call := λ _, Rejected invalid_key;
     settling := [] |}.

(** Every provider is overloaded on the first attempt and healthy after. *)
Definition recovering : World :=
  {| sdk_calls := λ pIndex slot attempt,
       if (attempt =? 1)%nat then sdk_calls down pIndex slot attempt
       else sdk_calls healthy pIndex slot attempt;
     http_calls := λ pIndex slot attempt,
       if (attempt =? 1)%nat then http_calls down pIndex slot attempt
       else http_calls healthy pIndex slot attempt |}.

(** No request gets through. *)
Definition offline : World :=
  {| sdk_calls := λ _ _ _,
       {| primary := Rejected failed_to_fetch; analysis := Rejected failed_to_fetch;
          answer_call := λ _, Rejected failed_to_fetch;
          settling := [] |};
     http_calls := λ _ _ _,
       {| primary := FetchRejects failed_to_fetch;
          analysis := FetchRejects failed_to_fetch;
          answer_call := λ _, FetchRejects failed_to_fetch;
          settling := [] |} |}.

(** A result whose Perplexity response cites one page twice, once with a
    query string, and another page once. *)
Definition cited_results : list AnalysisResult :=
  [{| prompt := "Who leads PIM software?";
      providerResponses :=
        [{| provider := perplexity; response := VStr "Acme leads.";
            brandAnalyses := VArr []; additionalAnswers := [];
            rawResponse := None; error := None;
            citations := Some
              [{| index := 1; url := VStr "https://b.example/"; title := VStr "B" |};
               {| index := 2; url := VStr "https://a.example/x?utm=1";
                  title := VStr "A" |};
               {| index := 3; url := VStr "https://a.example/x"; title := VStr "" |}];
            tokenUsage := None; analysisTokenUsage := None |}] |}].

End Sample.

Local Close Scope string_scope.

(** The engine gets as far as attempt [k]: every earlier attempt failed with
    a retryable error. *)
Definition reached {T} (fn : nat → Outcome T) (k : nat) : Prop :=
  ∀ j, 1 ≤ j < k → ∃ t, fn j = Rejected t ∧ isRetryableError t = Resolved true.

(** What the engine throws when it gives up on the thrown value [t]: the
    [Error] made of [t], or what the classifier throws when it cannot read
    [t]. *)
Definition given_up (t : Thrown) : JsError :=
  match isRetryableError t with
  | Resolved _ => toError t
  | Rejected thrown => toError thrown
  end.

(** One failed attempt that is retried: the call, [onRetry], the wait. *)
Definition retry_round (e : JsError) (attempt : nat) : list RetryEvent :=
  [EvCall attempt; EvOnRetry e attempt; EvSleep (backoff_delay attempt)].

(** The rounds of the attempts [a], ..., [a + d - 1]. *)
Definition rounds {T} (fn : nat → Outcome T) (a d : nat) : list RetryEvent :=
  flat_map (λ j, match fn j with
                 | Rejected t => retry_round (toError t) j
                 | Resolved _ => []
                 end) (seq a d).

(** ** Notions used in the proofs *)


Definition dash : Ascii.ascii := Ascii.ascii_of_nat 45.

Fixpoint dash_free (s : string) : Prop :=
  match s with
  | EmptyString => True
  | String c s' => c ≠ dash ∧ dash_free s'
  end.


(** The calls of a log that name the task [taskId]. *)
Definition calls_for (taskId : string) (calls : list Update) : list Update :=
  filter (λ u, upd_id u = taskId) calls.

(** The calls of [updateTaskStatus] among the steps of the units. *)
Definition step_calls (steps : list (Update + Thrown)) : list Update :=
  omap (λ s, match s with inl u => Some u | inr _ => None end) steps.

(** The call [u] is a step of the lifecycle for a task whose status is [st]
    and whose retry counter is [r]. *)
Definition allowed (st : Status) (r : option nat) (u : Update) : Prop :=
  match st, upd_status u with
  | pending, in_progress => upd_retries u = None
  | in_progress, in_progress => upd_retries u = Some (S (default 0 r))
  | in_progress, completed | in_progress, failed => True
  | _, _ => False
  end.

Definition retries_after (r : option nat) (u : Update) : option nat :=
  match upd_retries u with Some k => Some k | None => r end.

(** A sequence of calls for one task, each a step of the lifecycle. *)
Fixpoint valid_from (st : Status) (r : option nat) (calls : list Update) : Prop :=
  match calls with
  | [] => True
  | u :: rest =>
      allowed st r u ∧ valid_from (upd_status u) (retries_after r u) rest
  end.

(** * Properties *)

(** ** Retry engine *)

Lemma Resolved_eq {A} (a b : A) : Resolved a = Resolved b ↔ a = b.
Proof. split; [by intros [= ->]|by intros ->]. Qed.

Section retry_facts.
Context {T : Type}.
Variable fn : nat → Outcome T.
Variable retries : nat.

Lemma retry_loop_give_up n k last t :
  fn k = Rejected t →
  isRetryableError t ≠ Resolved true ∨ retries < k →
  retry_loop fn retries (S n) k last = ([EvCall k], inr (Some (given_up t))).
Proof.
  intros Hk Hno. simpl. rewrite Hk. unfold given_up.
  destruct (isRetryableError t) as [[]|thrown]; [|done..].
  destruct Hno as [?|Hlt]; [done|].
  by replace (k <=? retries)%nat with false
    by (symmetry; apply Nat.leb_gt; lia).
Qed.

Lemma retry_loop_again n k last t :
  fn k = Rejected t →
  isRetryableError t = Resolved true → k ≤ retries →
  retry_loop fn retries (S n) k last =
    ((retry_round (toError t) k
        ++ (retry_loop fn retries n (S k) (Some (toError t))).1)%list,
     (retry_loop fn retries n (S k) (Some (toError t))).2).
Proof.
  intros Hk Hre Hle. simpl. rewrite Hk, Hre.
  replace (k <=? retries)%nat with true by (symmetry; by apply Nat.leb_le).
  simpl. by destruct (retry_loop fn retries n (S k) (Some (toError t))).
Qed.

(** Skipping over [d] retried attempts. *)
Lemma retry_loop_rounds d : ∀ a n last,
  (∀ j, a ≤ j < a + d →
     ∃ t, fn j = Rejected t ∧ isRetryableError t = Resolved true) →
  a + d ≤ S retries →
  ∃ last',
    (d = 0 → last' = last) ∧
    retry_loop fn retries (d + n) a last =
      ((rounds fn a d ++ (retry_loop fn retries n (a + d) last').1)%list,
       (retry_loop fn retries n (a + d) last').2).
Proof.
  induction d as [|d IH]; intros a n last Hfail Hle.
  - exists last. split; [done|]. rewrite Nat.add_0_r. simpl.
    by destruct (retry_loop fn retries n a last).
  - destruct (Hfail a) as (t & Ht & Hre); [lia|].
    destruct (IH (S a) n (Some (toError t))) as (last' & _ & Heq).
    { intros j Hj. apply Hfail. lia. }
    { lia. }
    exists last'. split; [done|].
    change (S d + n) with (S (d + n)).
    rewrite (retry_loop_again _ _ _ t) by (done || lia).
    rewrite Heq. simpl. unfold rounds at 2. simpl. rewrite Ht.
    replace (a + S d) with (S a + d) by lia. done.
Qed.

(** From the first attempt to attempt [k]. *)
Lemma retry_reaches k :
  1 ≤ k → k ≤ S retries → reached fn k →
  ∃ last,
    retryWithBackoff fn retries =
      ((rounds fn 1 (k - 1)
          ++ (retry_loop fn retries (S (S retries - k)) k last).1)%list,
       (retry_loop fn retries (S (S retries - k)) k last).2).
Proof.
  intros H1 Hk Hreach. unfold retryWithBackoff.
  destruct (retry_loop_rounds (k - 1) 1 (S (S retries - k)) None)
    as (last & _ & Heq).
  { intros j Hj. apply Hreach. lia. }
  { lia. }
  exists last.
  replace (retries + 1) with (k - 1 + S (S retries - k)) by lia.
  rewrite Heq. by replace (1 + (k - 1)) with k by lia.
Qed.

(** The engine gives up at attempt [k] and throws what that attempt
    threw, made an [Error] if it was not one (or what the classifier throws
    on [null] and [undefined]). *)
Lemma retry_gives_up k t :
  1 ≤ k → k ≤ S retries → reached fn k →
  fn k = Rejected t →
  isRetryableError t ≠ Resolved true ∨ k = S retries →
  retryWithBackoff fn retries =
    ((rounds fn 1 (k - 1) ++ [EvCall k])%list, inr (Some (given_up t))).
Proof.
  intros H1 Hk Hreach Ht Hstop.
  destruct (retry_reaches k) as (last & ->); [done..|].
  rewrite (retry_loop_give_up _ _ _ t); [done..|].
  destruct Hstop as [?| ->]; [by left|right; lia].
Qed.

(** The thrown value is never [null]: the loop runs at least once. *)
Lemma retry_loop_throws_error n : ∀ a last e,
  (n = 0 → is_Some last) →
  (retry_loop fn retries n a last).2 = inr e → is_Some e.
Proof.
  induction n as [|n IH]; intros a last e Hlast; simpl.
  - intros [= <-]. by apply Hlast.
  - destruct (fn a) as [v|t]; [done|].
    destruct (isRetryableError t) as [retryable|thrown];
      [|simpl; intros [= <-]; eauto].
    destruct (retryable && (a <=? retries)%nat).
    + specialize (IH (S a) (Some (toError t)) e).
      destruct (retry_loop fn retries n (S a) (Some (toError t))).
      simpl in *. apply IH. eauto.
    + simpl. intros [= <-]. eauto.
Qed.

Lemma retryWithBackoff_throws_error e :
  (retryWithBackoff fn retries).2 = inr e → is_Some e.
Proof.
  apply retry_loop_throws_error. lia.
Qed.
End retry_facts.

Lemma given_up_classified t b :
  isRetryableError t = Resolved b → given_up t = toError t.
Proof. intros H. unfold given_up. by rewrite H. Qed.

Lemma given_up_Error e : given_up (ThrownError e) = e.
Proof. unfold given_up. by destruct (isRetryableError (ThrownError e)) eqn:H;
  [|unfold isRetryableError in H; repeat case_match]. Qed.

(** The classifier returns on every value that is not [null] or
    [undefined]. *)
Lemma isRetryableError_returns t :
  t ≠ ThrownNull → t ≠ ThrownUndefined → ∃ b, isRetryableError t = Resolved b.
Proof.
  intros Hnull Hundefined. unfold isRetryableError.
  repeat case_match; eauto; done.
Qed.

(** The first event of a loop that still has an iteration left is the call
    of the current attempt. *)
Lemma retry_loop_starts_with_call {T} (fn : nat → Outcome T) retries n a last :
  ∃ post, (retry_loop fn retries (S n) a last).1 = EvCall a :: post.
Proof.
  simpl. destruct (fn a) as [v|t]; [by eexists|].
  destruct (isRetryableError t) as [retryable|thrown]; [|by eexists].
  destruct (retryable && (a <=? retries)%nat); [|by eexists].
  destruct (retry_loop fn retries n (S a) (Some (toError t))). by eexists.
Qed.

(** The last iteration emits the call and nothing else. *)
Lemma retry_loop_last_attempt {T} (fn : nat → Outcome T) retries n last :
  (retry_loop fn retries (S n) (S retries) last).1 = [EvCall (S retries)].
Proof.
  cbn [retry_loop]. destruct (fn (S retries)) as [v|t]; [done|].
  destruct (isRetryableError t) as [retryable|thrown]; [|done].
  assert ((S retries <=? retries)%nat = false) as ->
    by (apply Nat.leb_gt; lia).
  by rewrite andb_false_r.
Qed.

(** C3 (as amended).  Leaving aside [APIError]s with a status from 505 to
    599 and the errors [genericAIFetch] substitutes for a failed [fetch], the
    classifier marks an error retryable exactly when it is a
    network-transport failure or an HTTP response with status 429 or 5xx, as
    the specification says, or when it is not an [APIError] and its message
    contains ["rate limit"] or ["503"]; so HTTP 401, the other 4xx statuses
    and parse failures without such a message are not retryable. *)
Theorem classifier_retryable (t : Thrown) :
  status_above_504 t = false →
  is_rewrapped_network_failure t = false →
  isRetryableError t = Resolved true ↔
    spec_retryable t = true
    ∨ (APIError_status t = None ∧ has_retry_marker t = true).
Proof.
  unfold status_above_504, spec_retryable, has_retry_marker, isRetryableError,
    is_network_failure.
  intros Habove _.
  destruct (instanceof_TypeError t
            && bool_decide (message_string t = Some "Failed to fetch"%string))
    eqn:Hnet; simpl.
  { split; auto. }
  destruct (APIError_status t) as [status|] eqn:Hst.
  - rewrite Resolved_eq. split.
    + intros H. left. apply orb_true_iff in H as [H|H];
        apply orb_true_iff; [by left|right].
      apply andb_true_iff in H as [H1 H2]. apply andb_true_iff.
      split; [done|]. apply Z.leb_le in H2. apply Z.leb_le. lia.
    + intros [H|[? _]]; [|done].
      apply orb_true_iff in H as [H|H]; apply orb_true_iff; [by left|right].
      apply andb_true_iff in H as [H1 H2]. apply andb_true_iff.
      split; [done|]. apply Z.leb_le in H1. apply Z.leb_le in H2.
      apply Z.leb_le.
      apply andb_false_iff in Habove as [Hf|Hf]; apply Z.leb_gt in Hf; lia.
  - destruct t as [e|repr msg| |]; cbn [message_string];
      try (split; [done|by intros [?|[_ ?]]]).
    + rewrite Resolved_eq. split; auto. by intros [?|[_ ?]].
    + rewrite Resolved_eq. destruct msg as [m|]; split; auto;
        by intros [?|[_ ?]].
Qed.

(** The two cases C3 leaves aside: a status above 504 is not
    retried, and neither is a network failure once [genericAIFetch] has put
    its own error in the place of [fetch]'s. *)
Lemma status_505_is_not_retried :
  isRetryableError (ThrownError (mkError (APIError 505) "")) = Resolved false.
Proof. reflexivity. Qed.

Lemma rewrapped_network_failure_is_not_retried :
  ∃ t, genericAIFetch "api.openai.com" (FetchRejects failed_to_fetch) = Rejected t
       ∧ is_rewrapped_network_failure t = true
       ∧ isRetryableError failed_to_fetch = Resolved true
       ∧ isRetryableError t = Resolved false.
Proof. eexists. split; [reflexivity|]. by vm_compute. Qed.

(** C5.  When attempt [k] fails with a retryable error and a retry is left,
    the engine calls [onRetry(error, k)], then waits [1000 * 2^(k-1)] ms, and
    only then starts attempt [k + 1]; when attempt [k] fails with an error
    that is not retryable the run of the engine ends with that call, without
    a wait.  With the orchestrator's 2 retries the waits are 1000 ms and
    2000 ms. *)
Theorem retry_backoff_schedule {T} (fn : nat → Outcome T) (retries k : nat)
    (t : Thrown) :
  1 ≤ k → k ≤ S retries → reached fn k → fn k = Rejected t →
  (isRetryableError t = Resolved true → k ≤ retries →
     ∃ post,
       (retryWithBackoff fn retries).1 =
         rounds fn 1 (k - 1)
         ++ [EvCall k; EvOnRetry (toError t) k;
             EvSleep (1000 * 2 ^ (Z.of_nat k - 1))]
         ++ EvCall (S k) :: post)
  ∧ (isRetryableError t ≠ Resolved true →
       (retryWithBackoff fn retries).1 = rounds fn 1 (k - 1) ++ [EvCall k])
  ∧ (∀ t1 t2,
       fn 1 = Rejected t1 → isRetryableError t1 = Resolved true →
       fn 2 = Rejected t2 → isRetryableError t2 = Resolved true →
       (retryWithBackoff fn 2).1 =
         [EvCall 1; EvOnRetry (toError t1) 1; EvSleep 1000;
          EvCall 2; EvOnRetry (toError t2) 2; EvSleep 2000;
          EvCall 3]).
Proof.
  intros H1 Hk Hreach Ht. split; [|split].
  - intros Hre Hle.
    destruct (retry_reaches fn retries k) as (last & ->); [done..|].
    replace (S retries - k) with (S (retries - k)) by lia.
    rewrite (retry_loop_again _ _ _ _ _ t) by done. cbn [fst].
    destruct (retry_loop_starts_with_call fn retries (retries - k) (S k)
                (Some (toError t))) as (post & ->).
    exists post. unfold retry_round, backoff_delay.
    by replace (Z.of_nat (k - 1)) with (Z.of_nat k - 1)%Z by lia.
  - intros Hno.
    rewrite (retry_gives_up fn retries k t); [done..|].
    by left.
  - intros t1 t2 Ht1 Hre1 Ht2 Hre2. unfold retryWithBackoff.
    change (2 + 1) with (S 2).
    rewrite (retry_loop_again _ _ _ _ _ t1) by (done || lia).
    rewrite (retry_loop_again _ _ _ _ _ t2) by (done || lia).
    by rewrite (retry_loop_last_attempt fn 2).
Qed.

(** C8 (as amended).  When the engine gives up at attempt [k], because the
    error is not retryable or because no retry is left, it throws the error
    of that attempt: an [Error] instance is thrown as it is, with its class
    and its message, and any other thrown value [v] that [String] can
    convert is thrown as [new Error(String(v))].  (A rejection with [null]
    or [undefined] is left aside.) *)
Theorem retry_rethrows_last_error {T} (fn : nat → Outcome T) (retries k : nat)
    (t : Thrown) :
  1 ≤ k → k ≤ S retries → reached fn k → fn k = Rejected t →
  t ≠ ThrownNull → t ≠ ThrownUndefined →
  isRetryableError t = Resolved false ∨ k = S retries →
  (retryWithBackoff fn retries).2 = inr (Some (toError t))
  ∧ (∀ e, t = ThrownError e → (retryWithBackoff fn retries).2 = inr (Some e))
  ∧ (∀ repr msg, t = ThrownValue repr msg →
       (retryWithBackoff fn retries).2 = inr (Some (mkError PlainError repr))).
Proof.
  intros H1 Hk Hreach Ht Hnull Hundefined Hstop.
  destruct (isRetryableError_returns t Hnull Hundefined) as [b Hb].
  rewrite (retry_gives_up fn retries k t); [|done..|].
  - rewrite (given_up_classified t b Hb).
    split; [done|]. split; [by intros e ->|by intros repr msg ->].
  - destruct Hstop as [Hno|?]; [left; by rewrite Hno|by right].
Qed.

(** ** Citations of the Perplexity adapter *)










(** ** Searching in strings *)

Local Open Scope string_scope.

Lemma string_app_assoc (a b c : string) : (a ++ b) ++ c = a ++ b ++ c.
Proof.
  induction a as [|x a IH]; [done|].
  change (String x ((a ++ b) ++ c) = String x (a ++ b ++ c)). by rewrite IH.
Qed.

Lemma strip_prefix_Some needle : ∀ s rest,
  strip_prefix needle s = Some rest ↔ s = needle ++ rest.
Proof.
  induction needle as [|a needle IH]; intros s rest; simpl.
  - split; [by intros [= ->]|by intros ->].
  - change (String a needle ++ rest) with (String a (needle ++ rest)).
    destruct s as [|b s]; [done|].
    destruct (Ascii.eqb_spec a b) as [->|Hne].
    + rewrite IH. split; [by intros ->|by intros [= ->]].
    + split; [done|]. by intros [= ? _].
Qed.

(** Two suffixes of one string: the shorter is a suffix of the longer. *)
Lemma suffix_of_longer (x : string) : ∀ x' y y',
  x ++ y = x' ++ y' → (String.length x' ≤ String.length x)%nat →
  ∃ m, y' = m ++ y.
Proof.
  induction x as [|c x IH]; intros x' y y' Heq Hlen.
  - destruct x'; simpl in Hlen; [|lia]. exists "". symmetry. exact Heq.
  - destruct x' as [|c' x'].
    + exists (String c x). symmetry. exact Heq.
    + change (String c (x ++ y) = String c' (x' ++ y')) in Heq.
      injection Heq as -> Heq. apply (IH x'); [done|]. simpl in Hlen. lia.
Qed.

(** [simpl] leaves string concatenation alone; this exposes its two
    computation rules. *)
Ltac string_app :=
  repeat match goal with
    | |- context [String.append EmptyString ?x] =>
        change (String.append EmptyString x) with x
    | |- context [String.append (String ?c ?x) ?y] =>
        change (String.append (String c x) y) with (String c (String.append x y))
    end.

Lemma after_first_found needle s rest :
  strip_prefix needle s = Some rest → after_first needle s = Some rest.
Proof. intros Hs. destruct s; simpl; by rewrite Hs. Qed.

Lemma before_first_found needle s rest :
  strip_prefix needle s = Some rest → before_first needle s = Some "".
Proof. intros Hs. destruct s; simpl; by rewrite Hs. Qed.

Lemma after_first_Some needle : ∀ s rest,
  after_first needle s = Some rest → ∃ a, s = a ++ needle ++ rest.
Proof.
  intros s. induction s as [|c s IH]; intros rest; simpl.
  - destruct (strip_prefix needle "") eqn:Hs; [|done].
    intros [= ->]. exists "". string_app. by apply strip_prefix_Some.
  - destruct (strip_prefix needle (String c s)) eqn:Hs.
    + intros [= ->]. exists "". string_app. by apply strip_prefix_Some.
    + intros (a & ->)%IH. by exists (String c a).
Qed.

(** An occurrence of [needle] followed by [rest]: the search stops at that
    occurrence or before, so what it returns ends with [rest]. *)
Lemma after_first_occurrence needle (a : string) : ∀ s rest,
  s = a ++ needle ++ rest →
  ∃ m, after_first needle s = Some (m ++ rest).
Proof.
  induction a as [|c a IH]; intros s rest ->.
  - exists "". string_app. by apply after_first_found, strip_prefix_Some.
  - change (String c a ++ needle ++ rest)
      with (String c (a ++ needle ++ rest)).
    simpl. destruct (strip_prefix needle _) as [r|] eqn:Hs.
    + apply strip_prefix_Some in Hs.
      destruct (suffix_of_longer (String c a ++ needle) needle rest r)
        as (m & ->).
      * by rewrite string_app_assoc.
      * clear. induction (String c a) as [|? ? IHs]; [done|]. simpl. lia.
      * by exists m.
    + by apply IH.
Qed.

Lemma before_first_Some needle : ∀ s b,
  before_first needle s = Some b → ∃ c, s = b ++ needle ++ c.
Proof.
  intros s. induction s as [|x s IH]; intros b; simpl.
  - destruct (strip_prefix needle "") eqn:Hs; [|done].
    intros [= <-]. eexists. string_app. by apply strip_prefix_Some.
  - destruct (strip_prefix needle (String x s)) eqn:Hs.
    + intros [= <-]. eexists. string_app. by apply strip_prefix_Some.
    + destruct (before_first needle s) as [b'|]; [|done].
      intros [= <-]. destruct (IH b' eq_refl) as (c & ->). by exists c.
Qed.

Lemma before_first_occurrence needle (a : string) : ∀ s rest,
  s = a ++ needle ++ rest → is_Some (before_first needle s).
Proof.
  induction a as [|c a IH]; intros s rest ->.
  - string_app. exists "".
    by apply (before_first_found _ _ rest), strip_prefix_Some.
  - change (String c a ++ needle ++ rest)
      with (String c (a ++ needle ++ rest)).
    simpl. destruct (strip_prefix needle _); [eauto|].
    destruct (IH _ rest eq_refl) as [b ->]. simpl. eauto.
Qed.

(** The regular expression matches exactly the texts with a fenced block. *)
Lemma json_fence_match_Some s : is_Some (json_fence_match s) ↔ has_json_fence s.
Proof.
  unfold json_fence_match, has_json_fence. split.
  - intros [payload Hm].
    destruct (after_first fence_open s) as [rest|] eqn:Ha; [|done].
    simpl in Hm. apply after_first_Some in Ha as (a & ->).
    apply before_first_Some in Hm as (c & ->). by exists a, payload, c.
  - intros (a & b & c & ->).
    destruct (after_first_occurrence fence_open a _ (b ++ fence_close ++ c)
                eq_refl) as (m & ->). simpl.
    apply (before_first_occurrence fence_close (m ++ b) _ c).
    by rewrite string_app_assoc.
Qed.

Lemma json_fence_match_None s : ¬ has_json_fence s → json_fence_match s = None.
Proof.
  intros Hno. destruct (json_fence_match s) eqn:Hm; [|done].
  destruct Hno. apply json_fence_match_Some. eauto.
Qed.

Local Close Scope string_scope.

(** ** Provider adapters *)

Lemma bind_Resolved {A B} (m : Outcome A) (f : A → Outcome B) (b : B) :
  m ≫= f = Resolved b → ∃ a, m = Resolved a ∧ f a = Resolved b.
Proof. destruct m as [a|t]; simpl; [eauto|discriminate]. Qed.

(** Splits a resolved sequence of awaits into its resolved steps. *)
Ltac awaits H :=
  repeat (let a := fresh "v" in
          let Ha := fresh "H" a in
          apply bind_Resolved in H as (a & Ha & H)).

Lemma get_not_nullish v k x : get v k = Resolved x → nullish v = false.
Proof. unfold get. by destruct (nullish v). Qed.

Lemma read_usage_resolves data :
  nullish data = false → ∃ used, read_usage data = Resolved used.
Proof. intros Hn. unfold read_usage, get. rewrite Hn. simpl. eauto. Qed.

Lemma first_choice_content_not_nullish data x :
  first_choice_content data = Resolved x → nullish data = false.
Proof.
  unfold first_choice_content. intros H. awaits H. by eapply get_not_nullish.
Qed.

(** C10.  When the Perplexity analysis reply has a text content without a
    fenced [json] block, the primary reply is well formed and the calls for
    the additional questions succeed, the adapter returns a result: its
    [brandAnalyses] is the empty list and its [error] is not set. *)
Theorem perplexity_absorbs_missing_fence
    (JSON_parse : string → Outcome Value) (JSON_stringify : Value → string)
    (config : AppConfig) (ex : Exchange FetchReply)
    (rawData pResponse analysisData : Value) (content : string)
    (answers : list (AdditionalQuestionAnswer * Value * option TokenUsage)) :
  genericAIFetch "api.perplexity.ai" (primary ex) = Resolved rawData →
  first_choice_content rawData = Resolved pResponse →
  genericAIFetch "api.perplexity.ai" (analysis ex) = Resolved analysisData →
  first_choice_content analysisData = Resolved (VStr content) →
  ¬ has_json_fence content →
  answer_questions config "api.perplexity.ai" ex = Resolved answers →
  ∃ r, runPerplexityAnalysisForPrompt JSON_parse JSON_stringify config ex
         = Resolved r
       ∧ brandAnalyses r = VArr []
       ∧ error r = None
       ∧ response r = pResponse.
Proof.
  intros Hraw Hresp Hdata Hcontent Hfence Hanswers.
  destruct (read_usage_resolves rawData) as (other & Hother).
  { by eapply first_choice_content_not_nullish. }
  destruct (read_usage_resolves analysisData) as (used & Hused).
  { by eapply first_choice_content_not_nullish. }
  unfold runPerplexityAnalysisForPrompt.
  rewrite Hraw. simpl. rewrite Hother. simpl. rewrite Hresp. simpl.
  rewrite Hdata. simpl. rewrite Hused. simpl. rewrite Hcontent. simpl.
  rewrite (json_fence_match_None content Hfence). simpl.
  rewrite Hanswers. simpl. eauto.
Qed.

(** C4 (as amended).  A successful invocation of the Gemini or of the OpenAI
    adapter returns as [brandAnalyses] what the model's analysis reply
    parses to (for OpenAI its [brands] member, or the empty list when that is
    missing): the adapter adds no entry and removes none. *)
Theorem adapters_return_model_analysis
    (JSON_parse : string → Outcome Value) (JSON_stringify : Value → string)
    (config : AppConfig) :
  (∀ ex r,
     runGeminiAnalysisForPrompt JSON_parse JSON_stringify config ex = Resolved r →
     ∃ analysisResult text,
       analysis ex = Resolved analysisResult
       ∧ get analysisResult "text" = Resolved text
       ∧ JSON_parse (String_ text) = Resolved (brandAnalyses r))
  ∧ (∀ ex r,
       runOpenAIAnalysisForPrompt JSON_parse JSON_stringify config ex = Resolved r →
       ∃ analysisData content parsed,
         genericAIFetch "api.openai.com" (analysis ex) = Resolved analysisData
         ∧ first_choice_content analysisData = Resolved content
         ∧ JSON_parse (String_ content) = Resolved parsed
         ∧ brandAnalyses r = or_else (prop parsed "brands") (VArr [])).
Proof.
  split; intros ex r Hrun.
  - unfold runGeminiAnalysisForPrompt in Hrun.
    match type of Hrun with
    | match ?m with _ => _ end = _ => destruct m as [r'|t] eqn:Hbody; [|done]
    end.
    injection Hrun as ->. awaits Hbody. injection Hbody as <-. simpl.
    eauto.
  - unfold runOpenAIAnalysisForPrompt in Hrun. awaits Hrun.
    injection Hrun as <-. simpl.
    match goal with
    | H : get ?parsed "brands" = Resolved ?b |- _ =>
        assert (b = prop parsed "brands") as ->
          by (unfold get in H; destruct (nullish parsed); by inversion H)
    end.
    eauto 10.
Qed.

(** ** Orchestrator: the result matrix *)

Lemma retry_loop_returns {T} (fn : nat → Outcome T) retries n : ∀ a last v,
  (retry_loop fn retries n a last).2 = inl v → ∃ k, fn k = Resolved v.
Proof.
  induction n as [|n IH]; intros a last v; simpl; [done|].
  destruct (fn a) as [v'|t] eqn:Hfn.
  - intros [= <-]. eauto.
  - destruct (isRetryableError t) as [retryable|thrown]; [|done].
    destruct (retryable && (a <=? retries)%nat); [|done].
    specialize (IH (S a) (Some (toError t)) v).
    by destruct (retry_loop fn retries n (S a) (Some (toError t))).
Qed.

Lemma Promise_all_lookup {A} (os : list (Outcome A)) : ∀ rs,
  Promise_all os = Resolved rs →
  ∀ i o, os !! i = Some o → ∃ r, o = Resolved r ∧ rs !! i = Some r.
Proof.
  induction os as [|[a|t] os IH]; intros rs; simpl; [by intros _ i o| |done].
  destruct (Promise_all os) as [l|] eqn:Hall; [|done].
  intros [= <-] [|i] o; simpl.
  - intros [= <-]. eauto.
  - by apply IH.
Qed.

Lemma Promise_all_Rejected {A} (os : list (Outcome A)) t :
  Promise_all os = Rejected t → ∃ i, os !! i = Some (Rejected t).
Proof.
  induction os as [|[a|t'] os IH]; simpl; [done| |].
  - destruct (Promise_all os) as [l|t''] eqn:Hall; [done|].
    intros [= <-]. destruct (IH eq_refl) as [i Hi]. by exists (S i).
  - intros [= <-]. by exists 0.
Qed.

Lemma elem_of_concat {A} (x : A) (ls : list (list A)) :
  x ∈ concat ls ↔ ∃ l, l ∈ ls ∧ x ∈ l.
Proof.
  induction ls as [|l ls IH]; simpl.
  - split; [by intros ?%elem_of_nil|by intros (? & ?%elem_of_nil & _)].
  - rewrite elem_of_app, IH. split.
    + intros [?|(l' & ? & ?)]; [exists l; split; [by left|done]|].
      exists l'. split; [by right|done].
    + intros (l' & [->|?]%elem_of_cons & ?); [by left|right; eauto].
Qed.

Lemma merge_by_elem {A} (sched : list nat) : ∀ (queues : list (list A)) x,
  x ∈ merge_by sched queues → ∃ q, q ∈ queues ∧ x ∈ q.
Proof.
  induction sched as [|i sched IH]; intros queues x; simpl.
  { by intros ?%elem_of_concat. }
  destruct (queues !! i) as [[|y q]|] eqn:Hi; [by apply IH| |by apply IH].
  intros [->|Hx]%elem_of_cons.
  - exists (y :: q). split; [by eapply list_elem_of_lookup_2|by left].
  - destruct (IH _ _ Hx) as (q' & Hq' & Hxq').
    apply list_elem_of_lookup in Hq' as [j Hj].
    destruct (decide (j = i)) as [->|Hne].
    + rewrite list_lookup_insert_eq in Hj by by eapply lookup_lt_Some.
      injection Hj as <-. exists (y :: q).
      split; [by eapply list_elem_of_lookup_2|by right].
    + rewrite list_lookup_insert_ne in Hj by done.
      exists q'. split; [by eapply list_elem_of_lookup_2|done].
Qed.

Lemma merge_by_fmap {A B} (f : A → B) (sched : list nat) :
  ∀ queues : list (list A),
  merge_by sched (fmap (M := list) f <$> queues) = f <$> merge_by sched queues.
Proof.
  induction sched as [|i sched IH]; intros queues; cbn [merge_by].
  - induction queues as [|q queues IHq]; [done|].
    rewrite fmap_cons. cbn [concat]. by rewrite fmap_app, IHq.
  - rewrite list_lookup_fmap.
    destruct (queues !! i) as [[|x q]|]; cbn; [apply IH| |apply IH].
    by rewrite <- IH, list_fmap_insert.
Qed.

Lemma until_rejection_calls (calls : list Update) :
  until_rejection (inl <$> calls) = (calls, None).
Proof.
  induction calls as [|u calls IH]; [done|].
  rewrite fmap_cons. cbn [until_rejection]. by rewrite IH.
Qed.

Lemma until_rejection_Some steps t :
  (until_rejection steps).2 = Some t → inr t ∈ steps.
Proof.
  induction steps as [|[u|t'] steps IH]; cbn [until_rejection]; [done| |].
  - destruct (until_rejection steps) as [calls rejection]. cbn in *.
    intros H. right. by apply IH.
  - intros [= ->]. by left.
Qed.

Section orchestrator_facts.
Variable JSON_parse : string → Outcome Value.
Variable JSON_stringify : Value → string.
Variable stringify_error : JsError → Outcome string.
Variable config : AppConfig.
Variable world : World.
Variable sched : nat → list nat.

#[local] Abbreviation providerFunction :=
  (providerFunction JSON_parse JSON_stringify config world).
#[local] Abbreviation run_unit :=
  (run_unit JSON_parse JSON_stringify stringify_error config world).
#[local] Abbreviation run_prompt :=
  (run_prompt JSON_parse JSON_stringify stringify_error config world sched).
#[local] Abbreviation run_prompts :=
  (run_prompts JSON_parse JSON_stringify stringify_error config world sched).
#[local] Abbreviation runAnalysis :=
  (runAnalysis JSON_parse JSON_stringify stringify_error config world sched).

(** Every adapter tags its result with its own provider. *)
Lemma providerFunction_provider pIndex slot p attempt r :
  providerFunction pIndex slot p attempt = Resolved r → provider r = p.
Proof.
  destruct p; simpl; intros Hrun.
  - unfold runGeminiAnalysisForPrompt in Hrun.
    match type of Hrun with
    | match ?m with _ => _ end = _ => destruct m as [r'|t] eqn:Hbody; [|done]
    end.
    injection Hrun as ->. awaits Hbody. by injection Hbody as <-.
  - unfold runOpenAIAnalysisForPrompt in Hrun. awaits Hrun.
    by injection Hrun as <-.
  - unfold runPerplexityAnalysisForPrompt in Hrun. awaits Hrun.
    by injection Hrun as <-.
  - unfold runOpenAIWebSearchAnalysisForPrompt in Hrun. awaits Hrun.
    destruct (negb (truthy _)); [done|]. awaits Hrun.
    by injection Hrun as <-.
Qed.

(** What the [try] block and the [catch] block settle the promise with. *)
Lemma settle_inl taskId p response :
  (settle stringify_error taskId p (inl response)).2 = Resolved response.
Proof. done. Qed.

Lemma settle_inr taskId p e :
  (settle stringify_error taskId p (inr (Some e))).2
    = (raw ← stringify_error e; Resolved (failure_result raw p e)).
Proof. done. Qed.

Lemma run_unit_ran clients pIndex slot p :
  not_initialized config clients p = None →
  ∃ calls,
    run_unit clients pIndex slot p
      = UnitRan calls
          (settle stringify_error (task_id pIndex p) p
             (retryWithBackoff (providerFunction pIndex slot p) 2).2).2.
Proof.
  intros Hinit. unfold run_unit. rewrite Hinit.
  destruct (retryWithBackoff _ 2) as [evs r]. cbn [snd].
  destruct (settle stringify_error (task_id pIndex p) p r) as [last o].
  by eexists.
Qed.

(** A unit that passes the [switch] settles with a result for its provider,
    unless its adapter failed for good with an error that cannot be
    serialized. *)
Lemma run_unit_settles clients pIndex slot p :
  not_initialized config clients p = None →
  ∃ calls outcome,
    run_unit clients pIndex slot p = UnitRan calls outcome
    ∧ (∀ r, outcome = Resolved r → provider r = p)
    ∧ (∀ t, outcome = Rejected t →
         ∃ e, (retryWithBackoff (providerFunction pIndex slot p) 2).2
                = inr (Some e)
              ∧ stringify_error e = Rejected t).
Proof.
  intros Hinit. destruct (run_unit_ran clients pIndex slot p Hinit) as [calls ->].
  eexists _, _. split; [done|].
  destruct (retryWithBackoff (providerFunction pIndex slot p) 2)
    as [evs [response|e]] eqn:Hretry; cbn [snd].
  - rewrite settle_inl. split; [|by intros t [=]].
    intros r [= <-].
    destruct (retry_loop_returns (providerFunction pIndex slot p) 2 3 1 None
                response) as (k & Hk).
    { unfold retryWithBackoff in Hretry. simpl "+" in Hretry.
      by rewrite Hretry. }
    by eapply providerFunction_provider.
  - destruct (retryWithBackoff_throws_error
                (providerFunction pIndex slot p) 2 e) as [err ->].
    { by rewrite Hretry. }
    rewrite settle_inr.
    destruct (stringify_error err) as [raw|t'] eqn:Hdump; cbn.
    + split; [by intros r [= <-]|by intros t [=]].
    + split; [by intros r [=]|]. intros t [= <-]. eauto.
Qed.

Lemma run_unit_resolves clients pIndex slot p :
  not_initialized config clients p = None →
  has_dump stringify_error (providerFunction pIndex slot p) →
  ∃ calls r, run_unit clients pIndex slot p = UnitRan calls (Resolved r)
             ∧ provider r = p.
Proof.
  intros Hinit Hdump.
  destruct (run_unit_settles clients pIndex slot p Hinit)
    as (calls & [r|t] & -> & Hr & Ht); [by eauto|].
  destruct (Ht t eq_refl) as (e & He & Hthrows).
  destruct (Hdump e He) as [raw Hraw]. congruence.
Qed.

(** The units of a prompt, for any numbering of the slots. *)
Lemma units_resolve clients pIndex (ps : list Provider) :
  ∀ (first : nat),
  (∀ p, p ∈ ps → not_initialized config clients p = None) →
  (∀ i p, ps !! i = Some p →
     has_dump stringify_error (providerFunction pIndex (first + i) p)) →
  ∃ rs,
    Promise_all
      (unit_outcome <$> imap (λ i, run_unit clients pIndex (first + i)) ps)
      = Resolved rs
    ∧ provider <$> rs = ps.
Proof.
  induction ps as [|p ps IH]; intros first Hinit Hdump.
  - by exists [].
  - destruct (run_unit_resolves clients pIndex (first + 0) p)
      as (calls & r & Hunit & Hp).
    { apply Hinit. by left. }
    { by apply (Hdump 0). }
    destruct (IH (S first)) as (rs & Hall & Hps).
    { intros p' Hp'. apply Hinit. by right. }
    { intros i p' Hi. replace (S first + i) with (first + S i) by lia.
      by apply Hdump. }
    rewrite imap_cons.
    rewrite (imap_ext _ (λ i, run_unit clients pIndex (S first + i)))
      by (intros; simpl; f_equal; lia).
    rewrite Hunit. simpl in Hall |- *.
    unfold fmap in Hall. rewrite Hall. exists (r :: rs). split; [done|].
    rewrite fmap_cons. by rewrite Hp, Hps.
Qed.

(** When every unit of a prompt resolves, the calls are those of all the
    units, interleaved, and [Promise.all] resolves. *)
Lemma run_prompt_all_resolve clients pIndex rs :
  Promise_all
    (unit_outcome <$> imap (run_unit clients pIndex) (providers config))
    = Resolved rs →
  run_prompt clients pIndex =
    ((((λ p, enter (task_id pIndex p)) <$> providers config)
        ++ merge_by (sched pIndex)
             (later_calls <$> imap (run_unit clients pIndex) (providers config)))%list,
     Resolved rs).
Proof.
  intros Hall. unfold run_prompt.
  set (units := imap (run_unit clients pIndex) (providers config)) in *.
  assert (∀ u, u ∈ units → ∃ calls r, u = UnitRan calls (Resolved r)) as Hunits.
  { intros u [i Hu]%list_elem_of_lookup.
    destruct (Promise_all_lookup _ _ Hall i (unit_outcome u)) as (r & Hr & _).
    { by rewrite list_lookup_fmap, Hu. }
    destruct u as [e|calls [r'|t]]; try done. eauto. }
  assert (omap refusal units = []) as ->.
  { destruct (omap refusal units) as [|e l] eqn:Hrefused; [done|].
    assert (e ∈ omap refusal units) as Hin by (rewrite Hrefused; by left).
    apply list_elem_of_omap in Hin as (u & Hu & He).
    by destruct (Hunits u Hu) as (calls & r & ->). }
  assert (later_steps <$> units
          = fmap (M := list) inl <$> (later_calls <$> units)) as ->.
  { rewrite <- list_fmap_compose. apply list_fmap_ext.
    intros i u Hu%list_elem_of_lookup_2.
    destruct (Hunits u Hu) as (calls & r & ->). cbn. by rewrite app_nil_r. }
  cbn [head]. by rewrite merge_by_fmap, until_rejection_calls, Hall.
Qed.

Lemma run_prompt_Resolved clients pIndex rs :
  (run_prompt clients pIndex).2 = Resolved rs →
  Promise_all
    (unit_outcome <$> imap (run_unit clients pIndex) (providers config))
    = Resolved rs.
Proof.
  unfold run_prompt. destruct (head (omap refusal _)); [done|].
  by destruct (until_rejection _) as [later [t|]].
Qed.

Lemma run_prompt_resolves clients pIndex :
  (∀ p, p ∈ providers config → not_initialized config clients p = None) →
  (∀ slot p, providers config !! slot = Some p →
     has_dump stringify_error (providerFunction pIndex slot p)) →
  ∃ rs, (run_prompt clients pIndex).2 = Resolved rs
        ∧ provider <$> rs = providers config.
Proof.
  intros Hinit Hdump.
  assert (∃ rs,
            Promise_all
              (unit_outcome <$> imap (run_unit clients pIndex) (providers config))
              = Resolved rs
            ∧ provider <$> rs = providers config)
    as (rs & Hall & Hps)
    by exact (units_resolve clients pIndex (providers config) 0 Hinit Hdump).
  exists rs. by rewrite (run_prompt_all_resolve clients pIndex rs Hall).
Qed.

Lemma run_prompts_resolves clients (ps : list string) : ∀ pIndex,
  (∀ p, p ∈ providers config → not_initialized config clients p = None) →
  (∀ i text slot p, ps !! i = Some text → providers config !! slot = Some p →
     has_dump stringify_error (providerFunction (pIndex + i) slot p)) →
  ∃ results,
    (run_prompts clients pIndex ps).2 = Resolved results
    ∧ prompt <$> results = ps
    ∧ Forall (λ ar, provider <$> providerResponses ar = providers config) results.
Proof.
  induction ps as [|text ps IH]; intros pIndex Hinit Hdump; simpl.
  - exists []. by split_and!.
  - destruct (run_prompt_resolves clients pIndex Hinit) as (rs & Hrs & Hps).
    { intros slot p Hslot. rewrite <- (Nat.add_0_r pIndex).
      by apply (Hdump 0 text). }
    destruct (run_prompt clients pIndex) as [calls o]. simpl in Hrs. subst o.
    destruct (IH (S pIndex) Hinit) as (results & Hres & Htexts & Hall).
    { intros i text' slot p Hi Hslot.
      replace (S pIndex + i) with (pIndex + S i) by lia.
      by apply (Hdump (S i) text'). }
    destruct (run_prompts clients (S pIndex) ps) as [calls' o].
    simpl in Hres. subst o. simpl.
    exists ({| prompt := text; providerResponses := rs |} :: results).
    split_and!; [done|rewrite fmap_cons; by rewrite Htexts|by constructor].
Qed.

(** A valid configuration passes the initializer and every [switch]. *)
Lemma valid_config_initializes :
  valid_config config →
  ∃ clients, initializeClients config = inr clients
    ∧ ∀ p, p ∈ providers config → not_initialized config clients p = None.
Proof.
  intros Hvalid. unfold initializeClients.
  assert (∀ p, p ∈ providers config →
            truthy_str (key_for (apiKeys config) p) = true
            ∧ truthy_str (models config p) = true) as Hok.
  { intros p Hp. apply andb_true_iff. by apply Hvalid. }
  destruct (bool_decide (gemini ∈ providers config)
            && negb (truthy_str (key_gemini (apiKeys config)))) eqn:Hg.
  { apply andb_true_iff in Hg as [Hin Hkey]. apply bool_decide_eq_true in Hin.
    destruct (Hok _ Hin) as [Hk _]. simpl in Hk. by rewrite Hk in Hkey. }
  eexists. split; [done|]. intros p Hp. destruct (Hok p Hp) as [Hk Hm].
  destruct p; simpl in *; rewrite ?Hm.
  - rewrite (bool_decide_eq_true_2 _ Hp).
    destruct (key_gemini (apiKeys config)); [|done].
    rewrite bool_decide_eq_true_2 by eauto. done.
  - rewrite (bool_decide_eq_true_2 _ Hp). simpl. by rewrite Hk, Hk.
  - rewrite (bool_decide_eq_true_2 _ Hp). simpl. by rewrite Hk, Hk.
  - rewrite (bool_decide_eq_true_2 _ Hp), orb_true_r. simpl. by rewrite Hk, Hk.
Qed.

(** A valid configuration makes the run resolve, with one row per prompt and
    one cell per selected provider, when the errors of the failed units can
    be serialized. *)
Lemma valid_run_resolves :
  valid_config config →
  failures_have_dumps stringify_error config providerFunction →
  ∃ results,
    result runAnalysis = Resolved results
    ∧ prompt <$> results = prompts config
    ∧ Forall (λ ar, provider <$> providerResponses ar = providers config) results.
Proof.
  intros Hvalid Hdump.
  destruct (valid_config_initializes Hvalid) as (clients & Hclients & Hinit).
  destruct (run_prompts_resolves clients (prompts config) 0 Hinit)
    as (results & Hres & Htexts & Hall).
  { intros i text slot p Hi Hslot. by apply (Hdump i text). }
  exists results. unfold runAnalysis. by rewrite Hclients.
Qed.

(** C1 (as amended).  For a configuration in which every selected provider
    has a credential and a model identifier, [runAnalysis] returns one
    [AnalysisResult] per prompt, in prompt order, each with one
    [ProviderResult] per selected provider, in selection order, whatever the
    providers answer.  (Runs in which the error of a failed unit cannot be
    serialized are left aside.) *)
Theorem result_matrix_shape :
  valid_config config →
  failures_have_dumps stringify_error config providerFunction →
  ∃ results,
    result runAnalysis = Resolved results
    ∧ prompt <$> results = prompts config
    ∧ Forall (λ ar, provider <$> providerResponses ar = providers config) results
    ∧ length results = length (prompts config)
    ∧ Forall (λ ar, length (providerResponses ar) = length (providers config))
             results.
Proof.
  intros Hvalid Hdump.
  destruct (valid_run_resolves Hvalid Hdump) as (results & Hres & Htexts & Hall).
  exists results. split_and!; [done..| |].
  - by rewrite <-Htexts, length_fmap.
  - eapply Forall_impl; [exact Hall|]. simpl. intros ar <-.
    by rewrite length_fmap.
Qed.

(** What the [switch] throws is a configuration error. *)
Lemma not_initialized_error clients p e :
  not_initialized config clients p = Some e →
  is_configuration_error (ThrownError e).
Proof.
  unfold is_configuration_error, configuration_errors.
  destruct p; simpl; case_match; intros [= <-]; eexists; (split; [done|]);
    set_solver.
Qed.

Lemma refusal_head clients pIndex (ps : list Provider) : ∀ first e,
  head (omap refusal (imap (λ i, run_unit clients pIndex (first + i)) ps))
    = Some e →
  ∃ p, p ∈ ps ∧ not_initialized config clients p = Some e.
Proof.
  induction ps as [|p ps IH]; intros first e; [done|].
  rewrite imap_cons.
  rewrite (imap_ext _ (λ i, run_unit clients pIndex (S first + i)))
    by (intros; simpl; f_equal; lia).
  cbn [omap list_omap].
  destruct (not_initialized config clients p) as [e'|] eqn:Hinit.
  - unfold run_unit at 1. rewrite Hinit. cbn [refusal head].
    intros [= <-]. exists p. split; [by left|done].
  - destruct (run_unit_ran clients pIndex (first + 0) p Hinit) as [calls ->].
    cbn [refusal].
    intros (p' & Hp' & He)%IH. exists p'. split; [by right|done].
Qed.

(** The unit in slot [slot] is the one the callback made for the provider
    there. *)
Lemma units_lookup clients pIndex slot u :
  imap (run_unit clients pIndex) (providers config) !! slot = Some u →
  ∃ p, providers config !! slot = Some p ∧ u = run_unit clients pIndex slot p.
Proof.
  rewrite list_lookup_imap.
  destruct (providers config !! slot) as [p|]; [|done].
  intros [= <-]. eauto.
Qed.

(** A rejected unit that was not refused failed in the serialization of its
    error. *)
Lemma rejected_unit clients pIndex slot p t :
  unit_outcome (run_unit clients pIndex slot p) = Rejected t →
  (∃ e, not_initialized config clients p = Some e ∧ t = ThrownError e)
  ∨ (∃ e, (retryWithBackoff (providerFunction pIndex slot p) 2).2
            = inr (Some e)
          ∧ stringify_error e = Rejected t).
Proof.
  destruct (not_initialized config clients p) as [e|] eqn:Hinit.
  - unfold run_unit. rewrite Hinit. intros [= <-]. left. eauto.
  - destruct (run_unit_settles clients pIndex slot p Hinit)
      as (calls & outcome & -> & _ & Ht).
    cbn. intros ->. right. by apply Ht.
Qed.

(** A prompt is rejected by a refusal in the [switch], or by the
    serialization of the error of a unit that failed for good. *)
Lemma run_prompt_rejects clients pIndex t :
  (run_prompt clients pIndex).2 = Rejected t →
  (∃ p e, p ∈ providers config ∧ not_initialized config clients p = Some e
          ∧ t = ThrownError e)
  ∨ (∃ slot p e,
       providers config !! slot = Some p
       ∧ (retryWithBackoff (providerFunction pIndex slot p) 2).2 = inr (Some e)
       ∧ stringify_error e = Rejected t).
Proof.
  assert (∀ slot p, providers config !! slot = Some p →
            unit_outcome (run_unit clients pIndex slot p) = Rejected t →
            (∃ p e, p ∈ providers config
                    ∧ not_initialized config clients p = Some e
                    ∧ t = ThrownError e)
            ∨ (∃ slot p e,
                 providers config !! slot = Some p
                 ∧ (retryWithBackoff (providerFunction pIndex slot p) 2).2
                     = inr (Some e)
                 ∧ stringify_error e = Rejected t)) as Hunit.
  { intros slot p Hslot [(e & He & ->)|(e & He & Hdump)]%rejected_unit.
    - left. exists p, e. split; [by eapply list_elem_of_lookup_2|done].
    - right. by exists slot, p, e. }
  unfold run_prompt.
  destruct (head (omap refusal _)) as [e|] eqn:Hhead; cbn [snd].
  - intros [= <-]. left.
    destruct (refusal_head clients pIndex (providers config) 0 e Hhead)
      as (p & Hp & He).
    by exists p, e.
  - destruct (until_rejection _) as [later [t'|]] eqn:Hsteps; cbn [snd].
    + intros [= <-].
      assert (inr t' ∈ merge_by (sched pIndex)
                (later_steps <$> imap (run_unit clients pIndex) (providers config)))
        as Hin by (apply until_rejection_Some; by rewrite Hsteps).
      apply merge_by_elem in Hin as (q & Hq & Hin).
      apply list_elem_of_fmap in Hq as (u & -> & [slot Hu]%list_elem_of_lookup).
      apply units_lookup in Hu as (p & Hslot & ->).
      apply (Hunit slot p Hslot).
      destruct (run_unit clients pIndex slot p) as [e|calls [r|t]];
        cbn in Hin |- *.
      * by apply elem_of_nil in Hin.
      * rewrite app_nil_r in Hin.
        by apply list_elem_of_fmap in Hin as (? & [=] & _).
      * apply elem_of_app in Hin as [Hin|Hin].
        -- by apply list_elem_of_fmap in Hin as (? & [=] & _).
        -- apply list_elem_of_singleton in Hin. by injection Hin as ->.
    + intros (slot & Hrej)%Promise_all_Rejected.
      rewrite list_lookup_fmap in Hrej.
      destruct (imap _ _ !! slot) as [u|] eqn:Hu; [|done].
      apply units_lookup in Hu as (p & Hslot & ->).
      injection Hrej as Hrej. by apply (Hunit slot p Hslot).
Qed.

Lemma run_prompts_rejects clients (ps : list string) : ∀ pIndex t,
  (run_prompts clients pIndex ps).2 = Rejected t →
  (∃ p e, p ∈ providers config ∧ not_initialized config clients p = Some e
          ∧ t = ThrownError e)
  ∨ (∃ i text slot p e,
       ps !! i = Some text
       ∧ providers config !! slot = Some p
       ∧ (retryWithBackoff (providerFunction (pIndex + i) slot p) 2).2
           = inr (Some e)
       ∧ stringify_error e = Rejected t).
Proof.
  induction ps as [|text ps IH]; intros pIndex t; simpl; [done|].
  destruct (run_prompt clients pIndex) as [calls [rs|t']] eqn:Hprompt.
  - specialize (IH (S pIndex) t).
    destruct (run_prompts clients (S pIndex) ps) as [calls' [results|t'']];
      simpl in *; [done|].
    intros [= <-].
    destruct (IH eq_refl) as [?|(i & text' & slot & p & e & Hi & Hslot & He & Hdump)];
      [by left|right].
    exists (S i), text', slot, p, e.
    by replace (pIndex + S i) with (S (pIndex + i)) by lia.
  - simpl. intros [= <-].
    destruct (run_prompt_rejects clients pIndex t')
      as [?|(slot & p & e & Hslot & He & Hdump)];
      [by rewrite Hprompt|by left|right].
    exists 0, text, slot, p, e. by rewrite Nat.add_0_r.
Qed.

Lemma run_prompts_lookup clients (ps : list string) : ∀ pIndex results,
  (run_prompts clients pIndex ps).2 = Resolved results →
  ∀ i text, ps !! i = Some text →
  ∃ rs, (run_prompt clients (pIndex + i)).2 = Resolved rs
        ∧ results !! i = Some {| prompt := text; providerResponses := rs |}.
Proof.
  induction ps as [|text0 ps IH]; intros pIndex results; simpl;
    [by intros _ i text|].
  destruct (run_prompt clients pIndex) as [calls [rs|t]] eqn:Hprompt; [|done].
  specialize (IH (S pIndex)).
  destruct (run_prompts clients (S pIndex) ps) as [calls' [rest|t]];
    simpl in *; [|done].
  intros [= <-] [|i] text; simpl.
  - intros [= <-]. exists rs. by rewrite Nat.add_0_r, Hprompt.
  - intros Hi. destruct (IH rest eq_refl i text Hi) as (rs' & Hrs' & Hlook).
    exists rs'. by replace (pIndex + S i) with (S pIndex + i) by lia.
Qed.

Lemma run_prompt_lookup clients pIndex rs :
  (run_prompt clients pIndex).2 = Resolved rs →
  ∀ slot p, providers config !! slot = Some p →
  ∃ r, unit_outcome (run_unit clients pIndex slot p) = Resolved r
       ∧ rs !! slot = Some r.
Proof.
  intros Hall%run_prompt_Resolved slot p Hslot.
  apply (Promise_all_lookup _ _ Hall).
  by rewrite list_lookup_fmap, list_lookup_imap, Hslot.
Qed.

(** What a unit that resolves settles with, by the result of the engine. *)
Lemma run_unit_outcome clients pIndex slot p r :
  unit_outcome (run_unit clients pIndex slot p) = Resolved r →
  not_initialized config clients p = None
  ∧ (settle stringify_error (task_id pIndex p) p
       (retryWithBackoff (providerFunction pIndex slot p) 2).2).2 = Resolved r.
Proof.
  destruct (not_initialized config clients p) as [e|] eqn:Hinit.
  { unfold run_unit. by rewrite Hinit. }
  destruct (run_unit_ran clients pIndex slot p Hinit) as [calls ->]. done.
Qed.

(** The [catch] block: what a unit settles with when the engine gave up. *)
Lemma run_unit_gives_up clients pIndex slot p k t r :
  unit_outcome (run_unit clients pIndex slot p) = Resolved r →
  1 ≤ k → k ≤ 3 → reached (providerFunction pIndex slot p) k →
  providerFunction pIndex slot p k = Rejected t →
  isRetryableError t ≠ Resolved true ∨ k = 3 →
  ∃ raw, stringify_error (given_up t) = Resolved raw
         ∧ r = failure_result raw p (given_up t).
Proof.
  intros [_ Hout]%run_unit_outcome H1 Hk Hreach Ht Hstop.
  rewrite (retry_gives_up (providerFunction pIndex slot p) 2 k t) in Hout
    by done.
  cbn [snd] in Hout. rewrite settle_inr in Hout.
  apply bind_Resolved in Hout as (raw & Hraw & [= <-]). eauto.
Qed.

(** A unit whose adapter failed for good with an error that cannot be
    serialized makes the run reject. *)
Lemma stringify_failure_rejects_run pIndex text slot p e t :
  prompts config !! pIndex = Some text →
  providers config !! slot = Some p →
  (retryWithBackoff (providerFunction pIndex slot p) 2).2 = inr (Some e) →
  stringify_error e = Rejected t →
  ∃ t', result runAnalysis = Rejected t'.
Proof.
  intros Hi Hslot He Hdump.
  destruct (result runAnalysis) as [results|t'] eqn:Hres; [|by eauto].
  exfalso. unfold runAnalysis in Hres.
  destruct (initializeClients config) as [?|clients]; [done|].
  cbn [result] in Hres.
  destruct (run_prompts_lookup clients _ _ _ Hres pIndex text Hi)
    as (rs & Hrs & _).
  change (0 + pIndex) with pIndex in Hrs.
  destruct (run_prompt_lookup clients _ _ Hrs slot p Hslot) as (r & Hr & _).
  apply run_unit_outcome in Hr as [_ Hr].
  rewrite He, settle_inr, Hdump in Hr. done.
Qed.
End orchestrator_facts.

(** ** Task identifiers *)

Local Open Scope string_scope.

Lemma pretty_N_go_dash_free (x : N) : ∀ s,
  dash_free s → dash_free (pretty_N_go x s).
Proof.
  induction (N.lt_wf_0 x) as [x _ IH]. intros s Hs.
  destruct (decide (x = 0)%N) as [->|Hx].
  - by rewrite pretty_N_go_0.
  - rewrite pretty_N_go_step by lia. apply IH.
    + apply N.div_lt; lia.
    + split; [|done]. unfold pretty_N_char, dash.
      by repeat case_match.
Qed.

Lemma pretty_nat_dash_free (n : nat) : dash_free (pretty n).
Proof.
  unfold pretty, pretty_nat, pretty, pretty_N.
  case_decide; [by split|]. by apply pretty_N_go_dash_free.
Qed.

(** Two texts that agree up to their first dash agree on both sides of it. *)
Lemma dash_split (a : string) : ∀ a' b b',
  dash_free a → dash_free a' →
  a ++ String dash b = a' ++ String dash b' → a = a' ∧ b = b'.
Proof.
  induction a as [|c a IH]; intros [|c' a'] b b' Ha Ha' Heq.
  - by injection Heq as ->.
  - injection Heq as <- _. by destruct Ha'.
  - injection Heq as -> _. by destruct Ha.
  - change (String c (a ++ String dash b) = String c' (a' ++ String dash b'))
      in Heq.
    injection Heq as -> Heq. destruct Ha as [_ Ha], Ha' as [_ Ha'].
    destruct (IH a' b b' Ha Ha' Heq) as [-> ->]. done.
Qed.

Lemma provider_tag_inj p p' : provider_tag p = provider_tag p' → p = p'.
Proof. by destruct p, p'. Qed.

Lemma task_id_inj pIndex p pIndex' p' :
  task_id pIndex p = task_id pIndex' p' → pIndex = pIndex' ∧ p = p'.
Proof.
  unfold task_id. intros Heq.
  apply (inj (String.append "prompt-")) in Heq.
  change ("-" ++ provider_tag p) with (String dash (provider_tag p)) in Heq.
  change ("-" ++ provider_tag p') with (String dash (provider_tag p')) in Heq.
  apply dash_split in Heq as [Hidx Htag]; [|apply pretty_nat_dash_free..].
  split; [by apply (inj pretty)|by apply provider_tag_inj].
Qed.

Local Close Scope string_scope.

(** ** Task tracker *)

Lemma findIndex_Some taskId tasks i t :
  findIndex taskId tasks = Some (i, t) →
  tasks !! i = Some t ∧ Task.id t = taskId.
Proof. unfold findIndex. intros H. by apply list_find_Some in H as (? & ? & _). Qed.

Lemma findIndex_is_Some taskId tasks :
  taskId ∈ Task.id <$> tasks → is_Some (findIndex taskId tasks).
Proof.
  intros (t & -> & Ht)%list_elem_of_fmap.
  unfold findIndex. apply list_find_elem_of with t; done.
Qed.

Lemma updated_id t u : Task.id (updated t u) = Task.id t.
Proof. done. Qed.

Lemma allowed_step t u :
  allowed (Task.status t) (Task.retries t) u → lifecycle_step t (updated t u).
Proof.
  unfold allowed, lifecycle_step. simpl.
  destruct (Task.status t), (upd_status u); try done; by intros ->.
Qed.

(** A log in which the calls for every task, taken by themselves, are steps
    of the lifecycle from that task's state. *)
Lemma tracker_follows_lifecycle calls : ∀ tasks,
  NoDup (Task.id <$> tasks) →
  (∀ u, u ∈ calls → upd_id u ∈ Task.id <$> tasks) →
  (∀ t, t ∈ tasks →
     valid_from (Task.status t) (Task.retries t) (calls_for (Task.id t) calls)) →
  follows_lifecycle tasks calls.
Proof.
  induction calls as [|u calls IH]; intros tasks Hnd Hids Hvalid; [done|].
  destruct (findIndex_is_Some (upd_id u) tasks) as [[i t] Hfind].
  { apply Hids. by left. }
  destruct (findIndex_Some _ _ _ _ Hfind) as [Hi Hid].
  assert (allowed (Task.status t) (Task.retries t) u
          ∧ valid_from (upd_status u) (retries_after (Task.retries t) u)
              (calls_for (Task.id t) calls)) as [Hallowed Hrest].
  { specialize (Hvalid t). unfold calls_for in Hvalid.
    rewrite filter_cons_True in Hvalid by done.
    apply Hvalid. by eapply list_elem_of_lookup_2. }
  simpl. rewrite Hfind. split; [by apply allowed_step|].
  unfold updateTaskStatus. rewrite Hfind. simpl.
  assert (Task.id <$> <[i:=updated t u]> tasks = Task.id <$> tasks) as Hsame.
  { rewrite list_fmap_insert. apply list_insert_id.
    by rewrite list_lookup_fmap, Hi. }
  apply IH.
  - by rewrite Hsame.
  - intros u' Hu'. rewrite Hsame. apply Hids. by right.
  - intros t' (j & Hj)%list_elem_of_lookup.
    destruct (decide (j = i)) as [->|Hne].
    + rewrite list_lookup_insert_eq in Hj by by eapply lookup_lt_Some.
      injection Hj as <-. exact Hrest.
    + rewrite list_lookup_insert_ne in Hj by done.
      assert (Task.id t' ≠ upd_id u) as Hother.
      { rewrite <-Hid. intros Heq. apply Hne.
        eapply (NoDup_lookup _ _ _ _ Hnd).
        - by rewrite list_lookup_fmap, Hj.
        - by rewrite list_lookup_fmap, Hi, Heq. }
      specialize (Hvalid t'). unfold calls_for in Hvalid |- *.
      rewrite filter_cons_False in Hvalid by done.
      apply Hvalid. by eapply list_elem_of_lookup_2.
Qed.

(** ** Interleavings *)

(** The schedules produce the interleavings, and all of them. *)
Lemma Interleaving_after_nil {A} (queues : list (list A)) l :
  Interleaving queues l → Interleaving ([] :: queues) l.
Proof.
  induction 1 as [queues Hnil|queues i x q l Hi _ IH].
  - constructor. by constructor.
  - by apply (Interleaving_step _ (S i) x q).
Qed.

Lemma Interleaving_concat {A} (queues : list (list A)) :
  Interleaving queues (concat queues).
Proof.
  induction queues as [|q queues IH]; [by constructor|].
  induction q as [|x q IHq]; simpl.
  - by apply Interleaving_after_nil.
  - by apply (Interleaving_step _ 0 x q).
Qed.

Lemma merge_by_Interleaving {A} (sched : list nat) : ∀ queues : list (list A),
  Interleaving queues (merge_by sched queues).
Proof.
  induction sched as [|i sched IH]; intros queues; simpl.
  { apply Interleaving_concat. }
  destruct (queues !! i) as [[|x q]|] eqn:Hi; [apply IH| |apply IH].
  by apply (Interleaving_step _ i x q).
Qed.

Lemma Interleaving_merge_by {A} (queues : list (list A)) l :
  Interleaving queues l → ∃ sched, merge_by sched queues = l.
Proof.
  induction 1 as [queues Hnil|queues i x q l Hi _ [sched IH]].
  - exists []. simpl. induction Hnil as [|q queues -> _ IH]; [done|]. exact IH.
  - exists (i :: sched). simpl. by rewrite Hi, IH.
Qed.

Lemma Interleaving_omap {A B} (f : A → option B) (queues : list (list A)) l :
  Interleaving queues l →
  Interleaving (omap (M := list) f <$> queues) (omap f l).
Proof.
  induction 1 as [queues Hnil|queues i x q l Hi _ IH].
  - constructor. apply Forall_fmap. eapply Forall_impl; [exact Hnil|].
    by intros q ->.
  - rewrite list_fmap_insert in IH. cbn [omap list_omap].
    assert ((omap f <$> queues) !! i = Some (omap f (x :: q))) as Hi'
      by by rewrite list_lookup_fmap, Hi.
    cbn [omap list_omap] in Hi'. destruct (f x) as [y|].
    + by apply (Interleaving_step _ i y (omap f q)).
    + by rewrite list_insert_id in IH.
Qed.

Lemma calls_for_cons taskId u calls :
  calls_for taskId (u :: calls)
    = if decide (upd_id u = taskId) then u :: calls_for taskId calls
      else calls_for taskId calls.
Proof. unfold calls_for. by rewrite filter_cons. Qed.

Lemma calls_for_app taskId calls calls' :
  calls_for taskId (calls ++ calls')
    = calls_for taskId calls ++ calls_for taskId calls'.
Proof. unfold calls_for. by rewrite filter_app. Qed.

Lemma calls_for_concat_single taskId (queues : list (list Update)) : ∀ j,
  (∀ j' q, queues !! j' = Some q → j' ≠ j → calls_for taskId q = []) →
  calls_for taskId (concat queues) = calls_for taskId (default [] (queues !! j)).
Proof.
  unfold calls_for.
  induction queues as [|q queues IH]; intros j Hothers; [done|].
  simpl. rewrite filter_app. destruct j as [|j]; simpl.
  - rewrite (IH (length queues)).
    + rewrite (lookup_ge_None_2 queues) by done. simpl.
      by rewrite filter_nil, app_nil_r.
    + intros j' q' Hq' Hne. by apply (Hothers (S j') q').
  - rewrite (Hothers 0 q) by done. apply IH.
    intros j' q' Hq' Hne. apply (Hothers (S j') q'); [done|lia].
Qed.

(** The calls for a task that only one queue mentions keep their order in
    every interleaving. *)
Lemma calls_for_merge_by taskId (sched : list nat) : ∀ (queues : list (list Update)) j,
  (∀ j' q, queues !! j' = Some q → j' ≠ j → calls_for taskId q = []) →
  calls_for taskId (merge_by sched queues)
    = calls_for taskId (default [] (queues !! j)).
Proof.
  induction sched as [|i sched IH]; intros queues j Hothers; simpl.
  { by apply calls_for_concat_single. }
  destruct (queues !! i) as [[|x q]|] eqn:Hi; [by apply IH| |by apply IH].
  assert (i < length queues) as Hlen by by eapply lookup_lt_Some.
  destruct (decide (i = j)) as [->|Hne].
  - rewrite Hi. cbn [default]. rewrite !calls_for_cons.
    rewrite (IH _ j).
    + by rewrite list_lookup_insert_eq.
    + intros j' q' Hq' Hj'. rewrite list_lookup_insert_ne in Hq' by done.
      by apply (Hothers j' q').
  - pose proof (Hothers i (x :: q) Hi Hne) as Hx.
    rewrite calls_for_cons in Hx |- *.
    case_decide; [done|].
    rewrite (IH _ j).
    + by rewrite list_lookup_insert_ne.
    + intros j' q' Hq' Hj'. destruct (decide (j' = i)) as [->|Hne'].
      * rewrite list_lookup_insert_eq in Hq' by done. by injection Hq' as <-.
      * rewrite list_lookup_insert_ne in Hq' by done. by apply (Hothers j' q').
Qed.

(** ** Orchestrator: the lifecycle of the work units *)

Lemma calls_for_nil taskId calls :
  (∀ u, u ∈ calls → upd_id u ≠ taskId) → calls_for taskId calls = [].
Proof.
  intros Hne. induction calls as [|u calls IH]; [done|].
  rewrite calls_for_cons. case_decide as Hid.
  - destruct (Hne u); [by left|done].
  - apply IH. intros u' Hu'. apply Hne. by right.
Qed.

Lemma calls_for_all taskId calls :
  (∀ u, u ∈ calls → upd_id u = taskId) → calls_for taskId calls = calls.
Proof.
  intros Hall. induction calls as [|u calls IH]; [done|].
  rewrite calls_for_cons. case_decide as Hid.
  - f_equal. apply IH. intros u' Hu'. apply Hall. by right.
  - destruct Hid. apply Hall. by left.
Qed.

Lemma valid_from_prefix calls : ∀ st r calls',
  valid_from st r (calls ++ calls') → valid_from st r calls.
Proof.
  induction calls as [|u calls IH]; intros st r calls'; [done|].
  cbn [app valid_from]. intros [Hu Hrest]. split; [done|]. by eapply IH.
Qed.

(** The calls made before the rejection that ends the wait, if any. *)
Lemma until_rejection_prefix steps :
  ∃ rest, step_calls steps = (until_rejection steps).1 ++ rest.
Proof.
  induction steps as [|[u|t] steps [rest IH]]; cbn [until_rejection].
  - by exists [].
  - destruct (until_rejection steps) as [calls rejection].
    exists rest. unfold step_calls in *. cbn in *. by rewrite IH.
  - by eexists.
Qed.

Lemma step_calls_inl (calls : list Update) : step_calls (inl <$> calls) = calls.
Proof.
  induction calls as [|u calls IH]; [done|].
  rewrite fmap_cons. unfold step_calls in *. cbn. by rewrite IH.
Qed.

Lemma step_calls_later_steps u : step_calls (later_steps u) = later_calls u.
Proof.
  destruct u as [e|calls outcome]; [done|]. cbn [later_steps later_calls].
  unfold step_calls. rewrite omap_app. fold (step_calls (inl <$> calls)).
  rewrite step_calls_inl. destruct outcome; cbn; by rewrite app_nil_r.
Qed.

(** The calls a prompt makes after entering its units are the first of an
    interleaving of the later calls of the units. *)
Lemma until_rejection_merge_by (sched : list nat) (units : list UnitRun) :
  ∃ sched' rest,
    merge_by sched' (later_calls <$> units)
      = (until_rejection (merge_by sched (later_steps <$> units))).1 ++ rest.
Proof.
  destruct (until_rejection_prefix (merge_by sched (later_steps <$> units)))
    as [rest Hrest].
  destruct (Interleaving_merge_by (later_calls <$> units)
              (step_calls (merge_by sched (later_steps <$> units))))
    as [sched' Hsched']; [|exists sched', rest; by rewrite <- Hrest].
  assert (later_calls <$> units = omap (M := list)
            (λ s : Update + Thrown,
               match s with inl u => Some u | inr _ => None end)
            <$> (later_steps <$> units)) as ->.
  { rewrite <- list_fmap_compose. apply list_fmap_ext.
    intros i u _. symmetry. apply step_calls_later_steps. }
  apply Interleaving_omap, merge_by_Interleaving.
Qed.

(** The calls [onRetry] makes count the attempts upwards. *)
Lemma retry_updates_valid {T} (fn : nat → Outcome T) retries taskId final n :
  ∀ a last r,
  a = S (default 0 r) →
  upd_status final = completed ∨ upd_status final = failed →
  valid_from in_progress r
    (retry_updates taskId (retry_loop fn retries n a last).1 ++ [final]).
Proof.
  induction n as [|n IH]; intros a last r Ha Hfinal; simpl.
  - split; [|done]. unfold allowed. by destruct Hfinal as [-> | ->].
  - destruct (fn a) as [v|t]; simpl.
    { split; [|done]. unfold allowed. by destruct Hfinal as [-> | ->]. }
    assert (valid_from in_progress r (retry_updates taskId [EvCall a] ++ [final]))
      as Hstop.
    { split; [|done]. unfold allowed. by destruct Hfinal as [-> | ->]. }
    destruct (isRetryableError t) as [retryable|thrown]; [|done].
    destruct (retryable && (a <=? retries)%nat); [|done].
    specialize (IH (S a) (Some (toError t)) (Some a) eq_refl Hfinal).
    destruct (retry_loop fn retries n (S a) (Some (toError t))) as [evs res].
    simpl in *. split; [|done]. unfold allowed. simpl. by rewrite Ha.
Qed.

Lemma retry_updates_ids taskId evs u :
  u ∈ retry_updates taskId evs → upd_id u = taskId.
Proof.
  unfold retry_updates. intros (ev & _ & Hev)%list_elem_of_omap.
  destruct ev; simplify_eq. done.
Qed.

Section lifecycle_facts.
Variable JSON_parse : string → Outcome Value.
Variable JSON_stringify : Value → string.
Variable stringify_error : JsError → Outcome string.
Variable config : AppConfig.
Variable world : World.
Variable sched : nat → list nat.
Hypothesis distinct_providers : NoDup (providers config).

#[local] Abbreviation run_unit :=
  (run_unit JSON_parse JSON_stringify stringify_error config world).
#[local] Abbreviation run_prompt :=
  (run_prompt JSON_parse JSON_stringify stringify_error config world sched).
#[local] Abbreviation run_prompts :=
  (run_prompts JSON_parse JSON_stringify stringify_error config world sched).
#[local] Abbreviation runAnalysis :=
  (runAnalysis JSON_parse JSON_stringify stringify_error config world sched).

Lemma settle_update taskId p r :
  upd_id (settle stringify_error taskId p r).1 = taskId
  ∧ (upd_status (settle stringify_error taskId p r).1 = completed
     ∨ upd_status (settle stringify_error taskId p r).1 = failed).
Proof.
  destruct r as [response|e]; simpl.
  - destruct (truthy_str (error response)); simpl; auto.
  - auto.
Qed.

Lemma later_calls_ids clients pIndex slot p u :
  u ∈ later_calls (run_unit clients pIndex slot p) →
  upd_id u = task_id pIndex p.
Proof.
  unfold run_unit. destruct (not_initialized config clients p).
  { by intros ?%elem_of_nil. }
  destruct (retryWithBackoff _ 2) as [evs r].
  pose proof (settle_update (task_id pIndex p) p r) as [Hid _].
  destruct (settle stringify_error (task_id pIndex p) p r) as [last o].
  simpl in *.
  intros [Hu|Hu%list_elem_of_singleton]%elem_of_app; [|by subst].
  by eapply retry_updates_ids.
Qed.

Lemma later_calls_valid clients pIndex slot p :
  valid_from in_progress None (later_calls (run_unit clients pIndex slot p)).
Proof.
  unfold run_unit. destruct (not_initialized config clients p); [done|].
  unfold retryWithBackoff.
  pose proof (λ final, retry_updates_valid
    (providerFunction JSON_parse JSON_stringify config world pIndex slot p)
    2 (task_id pIndex p) final (2 + 1) 1 None None eq_refl) as Hvalid.
  destruct (retry_loop _ 2 (2 + 1) 1 None) as [evs r].
  pose proof (settle_update (task_id pIndex p) p r) as [_ Hlast].
  destruct (settle stringify_error (task_id pIndex p) p r) as [last o].
  simpl in *. by apply Hvalid.
Qed.

Lemma entered_calls_for pIndex p (ps : list Provider) :
  NoDup ps → p ∈ ps →
  calls_for (task_id pIndex p) ((λ p', enter (task_id pIndex p')) <$> ps)
    = [enter (task_id pIndex p)].
Proof.
  induction ps as [|p0 ps IH]; intros Hnd Hp; [by apply elem_of_nil in Hp|].
  apply NoDup_cons in Hnd as [Hp0 Hnd].
  rewrite fmap_cons, calls_for_cons. simpl. case_decide as Hid.
  - apply task_id_inj in Hid as [_ ->]. f_equal. apply calls_for_nil.
    intros u (p' & -> & Hp')%list_elem_of_fmap. simpl.
    intros [_ ->]%task_id_inj. done.
  - apply elem_of_cons in Hp as [->|Hp]; [done|]. by apply IH.
Qed.

Lemma run_prompt_calls_ids clients pIndex u :
  u ∈ (run_prompt clients pIndex).1 →
  ∃ p, p ∈ providers config ∧ upd_id u = task_id pIndex p.
Proof.
  assert (u ∈ (λ p, enter (task_id pIndex p)) <$> providers config →
          ∃ p, p ∈ providers config ∧ upd_id u = task_id pIndex p) as Hentered.
  { intros (p & -> & Hp)%list_elem_of_fmap. eauto. }
  unfold run_prompt. destruct (head (omap refusal _)); simpl; [done|].
  destruct (until_rejection_merge_by (sched pIndex)
              (imap (run_unit clients pIndex) (providers config)))
    as (sched' & rest & Hmerge).
  destruct (until_rejection _) as [later rejection]. cbn [fst] in *.
  intros [Hu|Hu]%elem_of_app; [by apply Hentered|].
  assert (u ∈ merge_by sched'
                (later_calls <$> imap (run_unit clients pIndex) (providers config)))
    as Hin by (rewrite Hmerge; apply elem_of_app; by left).
  apply merge_by_elem in Hin as (q & Hq & Hin).
  apply list_elem_of_fmap in Hq as (unit & -> & Hunit).
  apply elem_of_lookup_imap in Hunit as (slot & p & -> & Hslot).
  exists p. split; [by eapply list_elem_of_lookup_2|].
  by eapply later_calls_ids.
Qed.

Lemma run_prompt_valid clients pIndex p :
  p ∈ providers config →
  valid_from pending None
    (calls_for (task_id pIndex p) (run_prompt clients pIndex).1).
Proof.
  intros Hp.
  pose proof (entered_calls_for pIndex p _ distinct_providers Hp) as Hentered.
  unfold run_prompt. destruct (head (omap refusal _)); simpl.
  { rewrite Hentered. by split. }
  destruct (until_rejection_merge_by (sched pIndex)
              (imap (run_unit clients pIndex) (providers config)))
    as (sched' & rest & Hmerge).
  destruct (until_rejection _) as [later rejection]. cbn [fst] in *.
  rewrite calls_for_app, Hentered.
  apply list_elem_of_lookup in Hp as [slot Hslot].
  split; [done|]. cbn [upd_status enter retries_after upd_retries].
  apply (valid_from_prefix _ _ _ (calls_for (task_id pIndex p) rest)).
  cbn [app]. rewrite <- calls_for_app, <- Hmerge.
  rewrite (calls_for_merge_by _ _ _ slot).
  - rewrite list_lookup_fmap, list_lookup_imap, Hslot. simpl.
    rewrite calls_for_all by (intros u; apply later_calls_ids).
    apply later_calls_valid.
  - intros j q Hq Hj.
    rewrite list_lookup_fmap, list_lookup_imap in Hq.
    destruct (providers config !! j) as [p'|] eqn:Hj'; [|done].
    injection Hq as <-. apply calls_for_nil.
    intros u Hu%later_calls_ids Heq. rewrite Hu in Heq.
    apply task_id_inj in Heq as [_ ->].
    apply Hj. by eapply (NoDup_lookup _ _ _ _ distinct_providers).
Qed.

Lemma run_prompts_calls_ids clients (ps : list string) : ∀ pIndex u,
  u ∈ (run_prompts clients pIndex ps).1 →
  ∃ i p, pIndex ≤ i < pIndex + length ps ∧ p ∈ providers config
         ∧ upd_id u = task_id i p.
Proof.
  induction ps as [|text ps IH]; intros pIndex u; simpl.
  { by intros ?%elem_of_nil. }
  pose proof (run_prompt_calls_ids clients pIndex u) as Hhere.
  destruct (run_prompt clients pIndex) as [callsP [rs|t]]; simpl in *.
  - specialize (IH (S pIndex) u).
    destruct (run_prompts clients (S pIndex) ps) as [calls' r]. simpl in *.
    intros [Hu|Hu]%elem_of_app.
    + destruct (Hhere Hu) as (p & Hp & Hid). exists pIndex, p.
      split_and!; [lia..|done|done].
    + destruct (IH Hu) as (i & p & Hi & Hp & Hid). exists i, p.
      split_and!; [lia..|done|done].
  - intros Hu. destruct (Hhere Hu) as (p & Hp & Hid). exists pIndex, p.
    split_and!; [lia..|done|done].
Qed.

Lemma run_prompts_valid clients (ps : list string) : ∀ pIndex i p,
  p ∈ providers config →
  valid_from pending None
    (calls_for (task_id i p) (run_prompts clients pIndex ps).1).
Proof.
  induction ps as [|text ps IH]; intros pIndex i p Hp; simpl; [done|].
  pose proof (run_prompt_valid clients pIndex p Hp) as Hhere.
  pose proof (run_prompt_calls_ids clients pIndex) as Hids.
  destruct (run_prompt clients pIndex) as [callsP [rs|t]]; simpl in *.
  - specialize (IH (S pIndex) i p Hp).
    pose proof (run_prompts_calls_ids clients ps (S pIndex)) as Hlater.
    destruct (run_prompts clients (S pIndex) ps) as [calls' r]. simpl in *.
    rewrite calls_for_app.
    destruct (decide (i = pIndex)) as [->|Hne].
    + rewrite (calls_for_nil _ calls'), app_nil_r; [done|].
      intros u (i' & p' & Hi' & _ & ->)%Hlater [-> _]%task_id_inj. lia.
    + rewrite (calls_for_nil _ callsP); [done|].
      intros u (p' & _ & ->)%Hids [-> _]%task_id_inj. done.
  - destruct (decide (i = pIndex)) as [->|Hne]; [done|].
    rewrite (calls_for_nil _ callsP); [done|].
    intros u (p' & _ & ->)%Hids [-> _]%task_id_inj. done.
Qed.

(** The initial tasks: one per prompt and provider, all [pending], with
    distinct identifiers. *)
Lemma initial_tasks_elem t :
  t ∈ initial_tasks config →
  ∃ i text p, prompts config !! i = Some text ∧ p ∈ providers config
              ∧ t = new_task config i text p.
Proof.
  unfold initial_tasks. intros (row & Hrow & Ht)%elem_of_concat.
  apply elem_of_lookup_imap in Hrow as (i & text & -> & Hi).
  apply list_elem_of_fmap in Ht as (p & -> & Hp). eauto 6.
Qed.

Lemma initial_tasks_has i text p :
  prompts config !! i = Some text → p ∈ providers config →
  task_id i p ∈ Task.id <$> initial_tasks config.
Proof.
  intros Hi Hp. apply list_elem_of_fmap. exists (new_task config i text p).
  split; [done|]. unfold initial_tasks. apply elem_of_concat.
  exists (new_task config i text <$> providers config). split.
  - by apply (elem_of_lookup_imap_2
                (λ i text, new_task config i text <$> providers config)).
  - by apply list_elem_of_fmap_2.
Qed.

Lemma rows_ids_NoDup (ps : list string) : ∀ first,
  NoDup (Task.id <$>
    concat (imap (λ i text, new_task config (first + i) text <$> providers config)
                 ps)).
Proof.
  induction ps as [|text ps IH]; intros first; [by apply NoDup_nil|].
  rewrite imap_cons. simpl. rewrite fmap_app. apply NoDup_app. split_and!.
  - rewrite <-list_fmap_compose.
    apply (NoDup_fmap_2_strong _ _); [|done].
    intros p p' _ _ Hid. simpl in Hid. by apply task_id_inj in Hid as [_ ?].
  - intros x (t & -> & (p & -> & _)%list_elem_of_fmap)%list_elem_of_fmap.
    intros (t' & Hid & (row & Hrow & Ht')%elem_of_concat)%list_elem_of_fmap.
    apply elem_of_lookup_imap in Hrow as (j & text' & -> & _).
    apply list_elem_of_fmap in Ht' as (p' & -> & _).
    simpl in Hid. apply task_id_inj in Hid as [Hidx _]. lia.
  - rewrite (imap_ext _ (λ i text', new_task config (S first + i) text'
                                      <$> providers config)).
    + apply IH.
    + intros j text' _. simpl. by replace (first + S j) with (S (first + j)) by lia.
Qed.

Lemma initial_tasks_NoDup : NoDup (Task.id <$> initial_tasks config).
Proof. exact (rows_ids_NoDup (prompts config) 0). Qed.

(** C9.  When the selected providers are distinct, every call of
    [updateTaskStatus] made during a run finds its task and moves it by one
    step of the lifecycle: from [pending] to [in_progress], from
    [in_progress] to [in_progress] with the retry counter incremented, or
    from [in_progress] to [completed] or [error]; no call touches a task that
    is [completed] or in [error]. *)
Theorem units_follow_lifecycle :
  follows_lifecycle (initial_tasks config) (calls runAnalysis).
Proof.
  unfold runAnalysis.
  destruct (initializeClients config) as [e|clients]; [done|]. simpl.
  apply tracker_follows_lifecycle.
  - apply initial_tasks_NoDup.
  - intros u (i & p & Hi & Hp & ->)%run_prompts_calls_ids.
    destruct (lookup_lt_is_Some_2 (prompts config) i) as [text Htext]; [lia|].
    by eapply initial_tasks_has.
  - intros t (i & text & p & _ & Hp & ->)%initial_tasks_elem. simpl.
    by apply run_prompts_valid.
Qed.
End lifecycle_facts.

(** * Further properties *)

(** ** The retry engine as a whole *)

Lemma attempts_app evs evs' : attempts (evs ++ evs') = attempts evs ++ attempts evs'.
Proof. apply omap_app. Qed.

Lemma total_wait_app evs evs' :
  total_wait (evs ++ evs') = (total_wait evs + total_wait evs')%Z.
Proof.
  induction evs as [|ev evs IH]; [done|].
  cbn [app total_wait foldr]. fold (total_wait (evs ++ evs')).
  fold (total_wait evs). rewrite IH. destruct ev; lia.
Qed.

Lemma rounds_S {T} (fn : nat → Outcome T) a d :
  rounds fn a (S d) =
    match fn a with
    | Rejected t => retry_round (toError t) a
    | Resolved _ => []
    end ++ rounds fn (S a) d.
Proof. reflexivity. Qed.

Lemma rounds_attempts {T} (fn : nat → Outcome T) d : ∀ a,
  (∀ j, a ≤ j < a + d → ∃ t, fn j = Rejected t) →
  attempts (rounds fn a d) = seq a d.
Proof.
  induction d as [|d IH]; intros a Hfail; [done|].
  rewrite rounds_S, attempts_app.
  destruct (Hfail a) as [t ->]; [lia|].
  rewrite IH by (intros j ?; apply Hfail; lia). done.
Qed.

Lemma attempts_of_run {T} (fn : nat → Outcome T) n :
  1 ≤ n →
  (∀ j, 1 ≤ j < n → ∃ t, fn j = Rejected t) →
  attempts (rounds fn 1 (n - 1) ++ [EvCall n]) = seq 1 n.
Proof.
  intros Hn Hfail. destruct n as [|n]; [lia|].
  replace (S n - 1) with n by lia.
  rewrite attempts_app, rounds_attempts by (intros j ?; apply Hfail; lia).
  by rewrite seq_S.
Qed.

Lemma backoff_delay_S k : 1 ≤ k → backoff_delay (S k) = (2 * backoff_delay k)%Z.
Proof.
  intros ?. unfold backoff_delay.
  replace (Z.of_nat (S k - 1)) with (Z.succ (Z.of_nat (k - 1))) by lia.
  rewrite Z.pow_succ_r by lia. lia.
Qed.

Lemma rounds_total_wait {T} (fn : nat → Outcome T) d : ∀ a,
  1 ≤ a →
  (∀ j, a ≤ j < a + d → ∃ t, fn j = Rejected t) →
  total_wait (rounds fn a d) = (backoff_delay a * (2 ^ Z.of_nat d - 1))%Z.
Proof.
  induction d as [|d IH]; intros a Ha Hfail.
  - cbn. lia.
  - rewrite rounds_S, total_wait_app.
    destruct (Hfail a) as [t ->]; [lia|].
    rewrite IH by (try lia; intros j ?; apply Hfail; lia).
    rewrite backoff_delay_S by done.
    replace (Z.of_nat (S d)) with (Z.succ (Z.of_nat d)) by lia.
    rewrite Z.pow_succ_r by lia.
    cbn [retry_round total_wait foldr]. lia.
Qed.

Lemma retry_loop_outcome {T} (fn : nat → Outcome T) retries m : ∀ a last,
  a + m = S retries →
  ∃ k,
    a ≤ k ≤ S retries
    ∧ (∀ j, a ≤ j < k →
         ∃ t, fn j = Rejected t ∧ isRetryableError t = Resolved true)
    ∧ retry_loop fn retries (S m) a last =
        (rounds fn a (k - a) ++ [EvCall k],
         match fn k with
         | Resolved v => inl v
         | Rejected t => inr (Some (given_up t))
         end)
    ∧ (k ≤ retries → ∀ t, fn k = Rejected t →
         isRetryableError t ≠ Resolved true).
Proof.
  induction m as [|m IH]; intros a last Ham.
  - exists a. split; [lia|]. split; [intros; lia|].
    replace (a - a) with 0 by lia. split; [|intros; lia].
    destruct (fn a) as [v|t] eqn:Hfn; [by cbn [retry_loop]; rewrite Hfn|].
    rewrite (retry_loop_give_up fn retries 0 a last t); [done..|]. right. lia.
  - destruct (fn a) as [v|t] eqn:Hfn.
    + exists a. split; [lia|]. split; [intros; lia|].
      replace (a - a) with 0 by lia. rewrite Hfn. split; [|congruence].
      cbn [retry_loop]. rewrite Hfn. done.
    + assert (isRetryableError t = Resolved true
              ∨ isRetryableError t ≠ Resolved true) as [Hretry|Hretry]
        by (destruct (isRetryableError t) as [[]|]; auto).
      * destruct (IH (S a) (Some (toError t))) as (k & Hk & Hbefore & Hrun & Hstop);
          [lia|].
        exists k. split; [lia|]. split.
        { intros j Hj. destruct (decide (j = a)) as [->|]; [eauto|].
          apply Hbefore. lia. }
        split; [|done].
        rewrite (retry_loop_again fn retries (S m) a last t) by (done || lia).
        rewrite Hrun. cbn [fst snd].
        replace (k - a) with (S (k - S a)) by lia.
        rewrite rounds_S, Hfn, <- app_assoc. done.
      * exists a. split; [lia|]. split; [intros; lia|].
        replace (a - a) with 0 by lia. rewrite Hfn. split.
        -- rewrite (retry_loop_give_up fn retries (S m) a last t); [done..|].
           by left.
        -- intros _ t' [= <-]. done.
Qed.

(** X1. Whatever the operation returns or throws (of the values of
    [Thrown]), a run of the engine makes the attempts 1, ..., n for some n
    between 1 and [retries + 1], and attempt n decides its outcome: every
    earlier attempt failed with a value the classifier calls retryable, and
    attempt n succeeded, failed with a value the classifier does not call
    retryable (one it throws on included), or was the last one allowed.
    The engine returns the value of attempt n, or throws what [given_up]
    makes of what attempt n threw: an [Error] as it is,
    [new Error(String(v))] for another value [v], and the [TypeError] of
    the classifier for [null] and [undefined].  Each failed attempt before
    n is followed by [onRetry] and a wait, and the waits add up to
    1000 * (2^(n-1) - 1) ms, so to at most 1000 * (2^retries - 1) ms. *)
Theorem retry_stops_at_first_final_attempt {T} (fn : nat → Outcome T)
    (retries : nat) :
  ∃ n,
    1 ≤ n ≤ S retries
    ∧ reached fn n
    ∧ retryWithBackoff fn retries =
        (rounds fn 1 (n - 1) ++ [EvCall n],
         match fn n with
         | Resolved v => inl v
         | Rejected t => inr (Some (given_up t))
         end)
    ∧ (n ≤ retries → ∀ t, fn n = Rejected t →
         isRetryableError t ≠ Resolved true)
    ∧ (∀ e, given_up (ThrownError e) = e)
    ∧ (∀ repr msg, given_up (ThrownValue repr msg) = mkError PlainError repr)
    ∧ err_class (given_up ThrownNull) = TypeError
    ∧ err_class (given_up ThrownUndefined) = TypeError
    ∧ attempts (retryWithBackoff fn retries).1 = seq 1 n
    ∧ total_wait (retryWithBackoff fn retries).1
        = (1000 * (2 ^ Z.of_nat (n - 1) - 1))%Z
    ∧ (total_wait (retryWithBackoff fn retries).1
        ≤ 1000 * (2 ^ Z.of_nat retries - 1))%Z.
Proof.
  unfold retryWithBackoff. replace (retries + 1) with (S retries) by lia.
  destruct (retry_loop_outcome fn retries retries 1 None)
    as (n & Hn & Hbefore & Hrun & Hstop); [lia|].
  assert (Hfail : ∀ j, 1 ≤ j < 1 + (n - 1) → ∃ t, fn j = Rejected t).
  { intros j Hj. destruct (Hbefore j) as (t & ? & _); [lia|eauto]. }
  assert (Hwait : total_wait (retry_loop fn retries (S retries) 1 None).1
                  = (1000 * (2 ^ Z.of_nat (n - 1) - 1))%Z).
  { rewrite Hrun. cbn [fst]. rewrite total_wait_app, rounds_total_wait by (done || lia).
    change (backoff_delay 1) with 1000%Z. change (total_wait [EvCall n]) with 0%Z.
    lia. }
  exists n. split_and!; try done || lia.
  - apply given_up_Error.
  - rewrite Hrun. cbn [fst]. apply attempts_of_run; [lia|].
    intros j Hj. apply Hfail. lia.
  - rewrite Hwait.
    assert (2 ^ Z.of_nat (n - 1) ≤ 2 ^ Z.of_nat retries)%Z
      by (apply Z.pow_le_mono_r; lia).
    lia.
Qed.

(** X2. The first attempt that succeeds ends the run: when the attempts
    before [k] fail with retryable errors and attempt [k] (within the
    [retries + 1] allowed) resolves with [v], the engine returns [v] after
    exactly [k] attempts and [k - 1] notifications of [onRetry]. *)
Theorem retry_returns_first_success {T} (fn : nat → Outcome T)
    (retries k : nat) (v : T) :
  1 ≤ k → k ≤ S retries → reached fn k → fn k = Resolved v →
  retryWithBackoff fn retries = (rounds fn 1 (k - 1) ++ [EvCall k], inl v)
  ∧ attempts (retryWithBackoff fn retries).1 = seq 1 k.
Proof.
  intros Hk Hle Hreached Hfn.
  destruct (retry_reaches fn retries k Hk Hle Hreached) as (last & Hrun).
  assert (Heq : retryWithBackoff fn retries
                = (rounds fn 1 (k - 1) ++ [EvCall k], inl v)).
  { rewrite Hrun. cbn [retry_loop]. rewrite Hfn. done. }
  split; [done|]. rewrite Heq. cbn [fst].
  apply attempts_of_run; [done|].
  intros j Hj. destruct (Hreached j) as (t & ? & _); [lia|eauto].
Qed.

(** ** The HTTP helpers *)

Lemma genericAIFetchGet_eq hostname reply :
  genericAIFetchGet hostname reply = genericAIFetch hostname reply.
Proof. reflexivity. Qed.

Lemma response_ok_true status :
  (200 <=? status)%Z && (status <=? 299)%Z = true ↔ response_ok status.
Proof. unfold response_ok. rewrite andb_true_iff, !Z.leb_le. tauto. Qed.

Lemma response_ok_false status :
  (200 <=? status)%Z && (status <=? 299)%Z = false ↔ ¬ response_ok status.
Proof. rewrite <- response_ok_true. destruct (_ && _); split; congruence. Qed.

Lemma fetch_catch_APIError hostname status msg :
  fetch_catch hostname (ThrownError (mkError (APIError status) msg))
    = ThrownError (mkError (APIError status) msg).
Proof. reflexivity. Qed.

Lemma fetch_catch_not_resolved hostname (o : Outcome Value) v :
  try_fetch hostname o = Resolved v → o = Resolved v.
Proof. destruct o; [done|discriminate]. Qed.

Lemma fetch_not_ok_rejects hostname status statusText json v :
  ¬ response_ok status →
  genericAIFetch hostname (HttpResponse status statusText json) ≠ Resolved v.
Proof.
  intros Hok%response_ok_false. unfold genericAIFetch. rewrite Hok.
  intros H%fetch_catch_not_resolved. destruct (status =? 401)%Z; [discriminate|].
  cbn zeta in H. apply bind_Resolved in H as (err & _ & H). discriminate.
Qed.

Lemma fetch_resolved_is_ok hostname reply v :
  genericAIFetch hostname reply = Resolved v →
  ∃ status statusText,
    reply = HttpResponse status statusText (Resolved v) ∧ response_ok status.
Proof.
  destruct reply as [t|status statusText json]; [discriminate|].
  intros H.
  destruct ((200 <=? status)%Z && (status <=? 299)%Z) eqn:Hok.
  - unfold genericAIFetch in H. rewrite Hok in H. subst json.
    exists status, statusText. by apply response_ok_true in Hok.
  - apply response_ok_false in Hok.
    by apply fetch_not_ok_rejects in H.
Qed.

(** X3. A request helper resolves exactly when the response has a 2xx
    status and its body parses: [genericAIFetch] and [genericAIFetchGet]
    resolve with [v] if and only if the reply is an HTTP response with a
    status from 200 to 299 whose [json()] resolves with [v].  A reply with
    any other status never yields a value, whatever its body. *)
Theorem fetch_resolves_iff_ok (hostname : string) (reply : FetchReply) (v : Value) :
  (genericAIFetch hostname reply = Resolved v ↔
     ∃ status statusText,
       reply = HttpResponse status statusText (Resolved v) ∧ response_ok status)
  ∧ (genericAIFetchGet hostname reply = Resolved v ↔
       genericAIFetch hostname reply = Resolved v).
Proof.
  split; [|by rewrite genericAIFetchGet_eq].
  split.
  - apply fetch_resolved_is_ok.
  - intros (status & statusText & -> & Hok%response_ok_true).
    unfold genericAIFetch. by rewrite Hok.
Qed.

Lemma APIError_retryable (status : Z) (msg : string) :
  isRetryableError (ThrownError (mkError (APIError status) msg)) = Resolved true
  ↔ retried_status status.
Proof.
  unfold isRetryableError, retried_status. cbn.
  rewrite Resolved_eq, orb_true_iff, andb_true_iff, Z.eqb_eq, !Z.leb_le. tauto.
Qed.

Lemma fetch_error_status (hostname statusText : string) (status : Z)
    (json : Outcome Value) :
  ¬ response_ok status →
  status = 401%Z ∨ (∀ d, json = Resolved d → nullish d = false) →
  ∃ msg,
    genericAIFetch hostname (HttpResponse status statusText json)
      = throw (mkError (APIError status) msg)
    ∧ (status = 401%Z →
       msg = "Authentication failed. Please check your API key."%string)
    ∧ (status ≠ 401%Z → (∃ t, json = Rejected t) → msg = statusText).
Proof.
  intros Hok%response_ok_false Hbody.
  unfold genericAIFetch. rewrite Hok.
  destruct (status =? 401)%Z eqn:H401.
  - apply Z.eqb_eq in H401 as ->.
    exists "Authentication failed. Please check your API key."%string.
    split; [reflexivity|]. split; [done|]. done.
  - apply Z.eqb_neq in H401. destruct Hbody as [?|Hbody]; [done|].
    destruct json as [d|t].
    + specialize (Hbody d eq_refl).
      exists (String_ (or_else (opt_get (prop d "error") "message")
                               (VStr statusText))).
      split; [unfold get; rewrite Hbody; reflexivity|].
      split; [done|]. intros _ [t [=]].
    + exists statusText. split.
      { cbn. unfold or_else. cbn.
        by destruct (negb (String.eqb statusText "")). }
      done.
Qed.

(** X4. A response that is not OK is turned into an [APIError] that carries
    its status, and the classifier then decides by the status alone: for a
    status outside 200..299 (with status 401, or with a body that is not
    [null]), the helper throws an [APIError] with that status, which is
    retryable exactly for 429 and 500..504.  The message is the fixed
    authentication text for 401 and the status text when the body does not
    parse. *)
Theorem fetch_error_carries_status (hostname statusText : string) (status : Z)
    (json : Outcome Value) :
  ¬ response_ok status →
  status = 401%Z ∨ (∀ d, json = Resolved d → nullish d = false) →
  ∃ msg,
    genericAIFetch hostname (HttpResponse status statusText json)
      = throw (mkError (APIError status) msg)
    ∧ (isRetryableError (ThrownError (mkError (APIError status) msg))
         = Resolved true
       ↔ retried_status status)
    ∧ (status = 401%Z →
       msg = "Authentication failed. Please check your API key."%string)
    ∧ (status ≠ 401%Z → (∃ t, json = Rejected t) → msg = statusText).
Proof.
  intros Hok Hbody.
  destruct (fetch_error_status hostname statusText status json Hok Hbody)
    as (msg & Hfetch & H401 & Htext).
  exists msg. split; [done|]. split; [apply APIError_retryable|done].
Qed.

(** X5. The status is lost when the error body is the JSON value [null]:
    for a status outside 200..299 other than 401, reading [errorData.error]
    throws a [TypeError], which is what the helper rejects with.  It is not
    an [APIError], so the classifier does not retry it, whatever the status
    was (a 503 included). *)
Theorem fetch_null_error_body_loses_status (hostname statusText : string)
    (status : Z) :
  ¬ response_ok status → status ≠ 401%Z →
  ∃ t,
    genericAIFetch hostname (HttpResponse status statusText (Resolved VNull))
      = Rejected t
    ∧ instanceof_TypeError t = true
    ∧ APIError_status t = None
    ∧ isRetryableError t = Resolved false.
Proof.
  intros Hok%response_ok_false H401%Z.eqb_neq.
  unfold genericAIFetch. rewrite Hok, H401. cbn.
  eexists. split; [reflexivity|]. by vm_compute.
Qed.

(** ** Key verification *)

Lemma handleVerificationError_invalid e provider :
  Verification.isValid (handleVerificationError e provider) = false
  ∧ is_Some (Verification.error (handleVerificationError e provider)).
Proof. split; [done|]. unfold handleVerificationError. cbn. eauto. Qed.

(** X6. A key is reported valid exactly when the verification request gets
    a 2xx response whose body parses as JSON, for OpenAI (GET /v1/models)
    and for Perplexity (a one-token chat completion); the content of the
    body is not looked at.  In every other case the result is invalid and
    carries an error message. *)
Theorem key_is_valid_iff_request_succeeds (reply : FetchReply) :
  let accepted :=
    ∃ status statusText v,
      reply = HttpResponse status statusText (Resolved v) ∧ response_ok status in
  (Verification.isValid (verifyOpenAIApiKey reply) = true ↔ accepted)
  ∧ (Verification.isValid (verifyPerplexityApiKey reply) = true ↔ accepted)
  ∧ (Verification.isValid (verifyOpenAIApiKey reply) = true →
     Verification.error (verifyOpenAIApiKey reply) = None)
  ∧ (Verification.isValid (verifyOpenAIApiKey reply) = false →
     is_Some (Verification.error (verifyOpenAIApiKey reply)))
  ∧ (Verification.isValid (verifyPerplexityApiKey reply) = true →
     Verification.error (verifyPerplexityApiKey reply) = None)
  ∧ (Verification.isValid (verifyPerplexityApiKey reply) = false →
     is_Some (Verification.error (verifyPerplexityApiKey reply))).
Proof.
  intros accepted.
  assert (Hiff : ∀ hostname provider,
    Verification.isValid
      match genericAIFetch hostname reply with
      | Resolved _ =>
          {| Verification.isValid := true; Verification.error := None |}
      | Rejected e => handleVerificationError e provider
      end = true ↔ accepted).
  { intros hostname provider. split.
    - destruct (genericAIFetch hostname reply) as [v|t] eqn:Hfetch; [|done].
      intros _. apply fetch_resolved_is_ok in Hfetch as (s & txt & -> & ?).
      by exists s, txt, v.
    - intros (s & txt & v & -> & Hok%response_ok_true).
      unfold genericAIFetch. by rewrite Hok. }
  unfold verifyOpenAIApiKey, verifyPerplexityApiKey.
  rewrite genericAIFetchGet_eq.
  split; [apply Hiff|]. split; [apply Hiff|].
  destruct (genericAIFetch "api.openai.com" reply),
           (genericAIFetch "api.perplexity.ai" reply);
    repeat split; try done; intros _; apply handleVerificationError_invalid.
Qed.

(** X7. What the user is told when verification fails for the two common
    reasons.  A 401 response gives the invalid-key message, whatever its
    body; a network failure ([fetch] rejecting with [Failed to fetch]) gives
    the could-not-connect message naming the provider: the [Network Error]
    text that the request helper substitutes is recognised by the handler. *)
Theorem key_verification_explains_failure :
  (∀ statusText json,
     Verification.error (verifyOpenAIApiKey (HttpResponse 401 statusText json))
       = Some "Authentication failed. The API key is invalid or has been revoked."%string
     ∧ Verification.error (verifyPerplexityApiKey (HttpResponse 401 statusText json))
       = Some "Authentication failed. The API key is invalid or has been revoked."%string)
  ∧ Verification.error (verifyOpenAIApiKey (FetchRejects failed_to_fetch))
      = Some "Could not connect to OpenAI's servers. Please check your network connection."%string
  ∧ Verification.error (verifyPerplexityApiKey (FetchRejects failed_to_fetch))
      = Some "Could not connect to Perplexity's servers. Please check your network connection."%string.
Proof.
  split; [|split; by vm_compute].
  intros statusText json. split; reflexivity.
Qed.

(** ** Adapters *)



(** X9. The web-search adapter never returns a blank answer text: whenever
    it resolves, [response] is a string with a character that is not white
    space, and it is the [content] of the first choice or the fixed text
    [No text summary provided by the model.]; a missing, non-string, empty
    or blank [content] is replaced by the fixed text. *)
Theorem websearch_response_is_never_blank
    (JSON_parse : string → Outcome Value) (JSON_stringify : Value → string)
    (config : AppConfig) (ex : Exchange FetchReply) (r : ProviderResponse) :
  runOpenAIWebSearchAnalysisForPrompt JSON_parse JSON_stringify config ex
    = Resolved r →
  ∃ rawData message text,
    genericAIFetch "api.openai.com" (primary ex) = Resolved rawData
    ∧ first_choice_message rawData = Resolved message
    ∧ response r = VStr text
    ∧ is_blank text = false
    ∧ (prop message "content" = VStr text
       ∨ text = "No text summary provided by the model."%string)
    ∧ ((∀ s, prop message "content" = VStr s → is_blank s = true) →
       text = "No text summary provided by the model."%string).
Proof.
  intros H. unfold runOpenAIWebSearchAnalysisForPrompt in H.
  apply bind_Resolved in H as (rawData & HrawData & H).
  apply bind_Resolved in H as (other & _ & H).
  apply bind_Resolved in H as (message & Hmessage & H).
  destruct (negb (truthy message)); [discriminate|]. cbn zeta in H.
  apply bind_Resolved in H as (analysisData & _ & H).
  apply bind_Resolved in H as (analysisTokens & _ & H).
  apply bind_Resolved in H as (analysisMessage & _ & H).
  apply bind_Resolved in H as (brands & _ & H).
  apply bind_Resolved in H as (answers & _ & H).
  injection H as <-. cbn [response].
  exists rawData, message. eexists. split; [done|]. split; [done|].
  split; [reflexivity|].
  destruct (prop message "content") as [| | | |s| |] eqn:Hcontent;
    try (split; [by vm_compute|]; split; [by right|done]).
  destruct (is_blank s) eqn:Hblank.
  - split; [by vm_compute|]. split; [by right|done].
  - split; [done|]. split; [by left|].
    intros Hall. specialize (Hall s eq_refl). congruence.
Qed.

Lemma Promise_all_by_Resolved {A} order (ps : list (Outcome A)) l :
  Promise_all_by order ps = Resolved l → Promise_all ps = Resolved l.
Proof. unfold Promise_all_by. by destruct (head _). Qed.

Lemma Promise_all_imap_questions qs :
  ∀ (f : nat → string → Outcome (AdditionalQuestionAnswer * Value * option TokenUsage)) l,
  (∀ i q x, f i q = Resolved x → question x.1.1 = q) →
  Promise_all (imap f qs) = Resolved l →
  question <$> answers_of l = qs.
Proof.
  induction qs as [|q qs IH]; intros f l Hf Hall.
  - by injection Hall as <-.
  - cbn [imap Promise_all] in Hall.
    destruct (f 0 q) as [x|] eqn:Hx; [|done].
    destruct (Promise_all (imap (f ∘ S) qs)) as [l'|] eqn:Hl'; [|done].
    injection Hall as <-. cbn. f_equal; [by eapply Hf|].
    apply (IH (f ∘ S)); [|done]. intros i q' x'. apply Hf.
Qed.

Lemma answer_question_question hostname q reply x :
  answer_question hostname q reply = Resolved x → question x.1.1 = q.
Proof. intros H. unfold answer_question in H. awaits H. by injection H as <-. Qed.

Lemma websearch_answer_question q reply x :
  websearch_answer q reply = Resolved x → question x.1.1 = q.
Proof. intros H. unfold websearch_answer in H. awaits H. by injection H as <-. Qed.

Lemma gemini_answer_question q call x :
  gemini_answer q call = Resolved x → question x.1.1 = q.
Proof. intros H. unfold gemini_answer in H. awaits H. by injection H as <-. Qed.

Ltac answered :=
  match goal with
  | H : answer_questions _ _ _ = Resolved _ |- _ =>
      unfold answer_questions in H;
      apply Promise_all_by_Resolved, Promise_all_imap_questions in H;
      [|intros ???; apply answer_question_question]
  | H : Promise_all_by _ (imap (λ i q, websearch_answer _ _) _) = Resolved _
    |- _ =>
      apply Promise_all_by_Resolved, Promise_all_imap_questions in H;
      [|intros ???; apply websearch_answer_question]
  | H : Promise_all_by _ (imap (λ i q, gemini_answer _ _) _) = Resolved _
    |- _ =>
      apply Promise_all_by_Resolved, Promise_all_imap_questions in H;
      [|intros ???; apply gemini_answer_question]
  end.

(** No adapter sets [error] on the result it returns. *)
Lemma providerFunction_no_error
    (JSON_parse : string → Outcome Value) (JSON_stringify : Value → string)
    (config : AppConfig) (world : World) (pIndex slot attempt : nat)
    (p : Provider) (r : ProviderResponse) :
  providerFunction JSON_parse JSON_stringify config world pIndex slot p attempt
    = Resolved r →
  error r = None.
Proof.
  destruct p; simpl; intros Hrun.
  - unfold runGeminiAnalysisForPrompt in Hrun.
    match type of Hrun with
    | match ?m with _ => _ end = _ => destruct m as [r'|t] eqn:Hbody; [|done]
    end.
    injection Hrun as ->. awaits Hbody. by injection Hbody as <-.
  - unfold runOpenAIAnalysisForPrompt in Hrun. awaits Hrun.
    by injection Hrun as <-.
  - unfold runPerplexityAnalysisForPrompt in Hrun. awaits Hrun.
    by injection Hrun as <-.
  - unfold runOpenAIWebSearchAnalysisForPrompt in Hrun. awaits Hrun.
    destruct (negb (truthy _)); [done|]. awaits Hrun.
    by injection Hrun as <-.
Qed.

(** X10. What every adapter returns on success: the result is tagged with
    the adapter's provider, carries no error, has the serialized trace and
    both token counts, answers the additional questions of the
    configuration one by one in their order, and has a citation list exactly
    for the two web-enabled providers (OpenAI web search and Perplexity). *)
Theorem adapter_result_is_well_formed
    (JSON_parse : string → Outcome Value) (JSON_stringify : Value → string)
    (config : AppConfig) (world : World) (pIndex slot attempt : nat)
    (p : Provider) (r : ProviderResponse) :
  providerFunction JSON_parse JSON_stringify config world pIndex slot p attempt
    = Resolved r →
  provider r = p
  ∧ error r = None
  ∧ question <$> additionalAnswers r = additionalQuestions config
  ∧ is_Some (rawResponse r)
  ∧ is_Some (tokenUsage r)
  ∧ is_Some (analysisTokenUsage r)
  ∧ (is_Some (citations r) ↔ p = openai_websearch ∨ p = perplexity).
Proof.
  assert (Hno : ∀ q : Provider, q = gemini ∨ q = openai →
            is_Some (@None (list Citation)) ↔ q = openai_websearch ∨ q = perplexity).
  { intros q Hq. split; [by intros [? [=]]|]. by intros [->| ->]; destruct Hq. }
  destruct p; simpl; intros Hrun.
  - unfold runGeminiAnalysisForPrompt in Hrun.
    match type of Hrun with
    | match ?m with _ => _ end = _ => destruct m as [r'|t] eqn:Hbody; [|done]
    end.
    injection Hrun as ->. awaits Hbody. injection Hbody as <-. answered.
    cbn. split_and!; eauto.
  - unfold runOpenAIAnalysisForPrompt in Hrun. awaits Hrun.
    injection Hrun as <-. answered.
    cbn. split_and!; eauto.
  - unfold runPerplexityAnalysisForPrompt in Hrun. awaits Hrun.
    injection Hrun as <-. answered.
    cbn. split_and!; eauto. split; eauto.
  - unfold runOpenAIWebSearchAnalysisForPrompt in Hrun. awaits Hrun.
    destruct (negb (truthy _)); [done|]. awaits Hrun.
    injection Hrun as <-. answered.
    cbn. split_and!; eauto. split; eauto.
Qed.

(** *** The fenced block of the Perplexity adapter *)

Lemma strip_fence_open_None ch s :
  ch ≠ backtick → strip_prefix fence_open (String ch s) = None.
Proof.
  intros Hch. unfold fence_open. string_app. cbn [strip_prefix].
  destruct (Ascii.eqb _ ch) eqn:Heq; [|done].
  apply Ascii.eqb_eq in Heq. by subst.
Qed.

Lemma after_first_fence_open prose : ∀ rest,
  avoids backtick prose →
  after_first fence_open (prose ++ fence_open ++ rest) = Some rest.
Proof.
  induction prose as [|ch prose IH]; intros rest Hfree.
  - string_app. apply after_first_found. by apply strip_prefix_Some.
  - destruct Hfree as [Hch Hfree]. string_app. cbn [after_first].
    rewrite strip_fence_open_None by done. by apply IH.
Qed.

Lemma strip_fence_close_None ch s :
  match s with String c' _ => c' ≠ backtick | EmptyString => True end →
  strip_prefix fence_close (String ch s) = None.
Proof.
  intros Hs. unfold fence_close, nl. string_app. cbn [strip_prefix].
  destruct (Ascii.eqb _ ch); [|done].
  destruct s as [|c' s]; [done|].
  destruct (Ascii.eqb _ c') eqn:Heq; [|done].
  apply Ascii.eqb_eq in Heq. by subst.
Qed.

Lemma before_first_fence_close payload : ∀ rest,
  avoids backtick payload →
  before_first fence_close (payload ++ fence_close ++ rest) = Some payload.
Proof.
  induction payload as [|ch payload IH]; intros rest Hfree.
  - string_app. eapply before_first_found. by apply strip_prefix_Some.
  - destruct Hfree as [Hch Hfree]. string_app. cbn [before_first].
    rewrite strip_fence_close_None.
    + by rewrite IH.
    + destruct payload as [|c' payload]; string_app.
      * unfold fence_close, nl. string_app. done.
      * by destruct Hfree.
Qed.

(** X11. Extraction of the fenced block is the inverse of fencing: when a
    payload without backticks is wrapped in [```json] and [```] fences on
    lines of their own and preceded by text without backticks, the match
    used by the Perplexity adapter returns exactly that payload, whatever
    follows the closing fence (further fenced blocks included). *)
Theorem fence_extraction_returns_payload (prose payload rest : string) :
  avoids backtick prose → avoids backtick payload →
  json_fence_match (prose ++ fence_open ++ payload ++ fence_close ++ rest)%string
    = Some payload.
Proof.
  intros Hprose Hpayload. unfold json_fence_match.
  rewrite after_first_fence_open by done. cbn.
  by apply before_first_fence_close.
Qed.

(** X12. When the analysis reply of Perplexity has a fenced block, the
    adapter depends on its payload: a payload that [JSON.parse] rejects
    makes the adapter reject with the parser's error, and a payload that
    parses gives [brandAnalyses] as the [brands] member of the parsed value,
    taken as it is (there is no default: a missing member leaves
    [undefined]). *)
Theorem perplexity_parses_fenced_payload
    (JSON_parse : string → Outcome Value) (JSON_stringify : Value → string)
    (config : AppConfig) (ex : Exchange FetchReply)
    (rawData pResponse analysisData : Value) (content payload : string) :
  genericAIFetch "api.perplexity.ai" (primary ex) = Resolved rawData →
  first_choice_content rawData = Resolved pResponse →
  genericAIFetch "api.perplexity.ai" (analysis ex) = Resolved analysisData →
  first_choice_content analysisData = Resolved (VStr content) →
  json_fence_match content = Some payload →
  (∀ t, JSON_parse payload = Rejected t →
        runPerplexityAnalysisForPrompt JSON_parse JSON_stringify config ex
          = Rejected t)
  ∧ (∀ parsed answers,
       JSON_parse payload = Resolved parsed → nullish parsed = false →
       answer_questions config "api.perplexity.ai" ex = Resolved answers →
       ∃ r, runPerplexityAnalysisForPrompt JSON_parse JSON_stringify config ex
              = Resolved r
            ∧ brandAnalyses r = prop parsed "brands"
            ∧ response r = pResponse).
Proof.
  intros Hraw Hresp Hdata Hcontent Hfence.
  destruct (read_usage_resolves rawData) as (other & Hother).
  { by eapply first_choice_content_not_nullish. }
  destruct (read_usage_resolves analysisData) as (used & Hused).
  { by eapply first_choice_content_not_nullish. }
  unfold runPerplexityAnalysisForPrompt.
  rewrite Hraw. simpl. rewrite Hother. simpl. rewrite Hresp. simpl.
  rewrite Hdata. simpl. rewrite Hused. simpl. rewrite Hcontent. simpl.
  rewrite Hfence. simpl. split.
  - intros t ->. done.
  - intros parsed answers -> Hparsed Hanswers. simpl.
    unfold get. rewrite Hparsed. simpl. rewrite Hanswers. simpl. eauto.
Qed.

Lemma gemini_rejects_invalid_key
    (JSON_parse : string → Outcome Value) (JSON_stringify : Value → string)
    (config : AppConfig) (ex : Exchange (Outcome Value)) (e : JsError) :
  primary ex = Rejected (ThrownError e) →
  includes "API key not valid" (err_message e) = true →
  runGeminiAnalysisForPrompt JSON_parse JSON_stringify config ex
    = throw (mkError PlainError
        "Authentication failed. Please check if the Google Gemini API key is correct and valid.").
Proof.
  intros Hprimary Hmsg. unfold runGeminiAnalysisForPrompt.
  rewrite Hprimary. simpl. unfold gemini_catch. by rewrite Hmsg.
Qed.

(** X13. An invalid Gemini key is reported once and never retried: when the
    first call of the Gemini adapter fails with an error whose message
    contains [API key not valid], the adapter replaces it by its
    authentication error, and the retry engine makes one attempt and throws
    that error, however many retries it is allowed and whatever else the
    original message contains (a retry marker such as [503] included). *)
Theorem gemini_invalid_key_is_not_retried
    (JSON_parse : string → Outcome Value) (JSON_stringify : Value → string)
    (config : AppConfig) (exs : nat → Exchange (Outcome Value))
    (retries : nat) (e : JsError) :
  primary (exs 1) = Rejected (ThrownError e) →
  includes "API key not valid" (err_message e) = true →
  retryWithBackoff
    (λ attempt, runGeminiAnalysisForPrompt JSON_parse JSON_stringify config
                  (exs attempt)) retries
    = ([EvCall 1],
       inr (Some (mkError PlainError
         "Authentication failed. Please check if the Google Gemini API key is correct and valid."))).
Proof.
  intros Hprimary Hmsg.
  pose proof (gemini_rejects_invalid_key JSON_parse JSON_stringify config
                (exs 1) e Hprimary Hmsg) as Hrun.
  apply (retry_gives_up _ retries 1 _ ltac:(lia) ltac:(lia)
           ltac:(intros j ?; lia) Hrun).
  by left.
Qed.

(** ** Task tracker *)

Lemma updateTaskStatus_ids tasks u :
  Task.id <$> (updateTaskStatus tasks u).1 = Task.id <$> tasks.
Proof.
  unfold updateTaskStatus.
  destruct (findIndex _ _) as [[i t]|] eqn:Hfind; [|done].
  apply findIndex_Some in Hfind as [Hi Hid]. cbn [fst].
  rewrite list_fmap_insert, updated_id. apply list_insert_id.
  by rewrite list_lookup_fmap, Hi.
Qed.

Lemma updateTaskStatus_descriptions tasks u :
  Task.description <$> (updateTaskStatus tasks u).1 = Task.description <$> tasks.
Proof.
  unfold updateTaskStatus.
  destruct (findIndex _ _) as [[i t]|] eqn:Hfind; [|done].
  apply findIndex_Some in Hfind as [Hi Hid]. cbn [fst].
  rewrite list_fmap_insert. apply list_insert_id.
  by rewrite list_lookup_fmap, Hi.
Qed.

Lemma updateTaskStatus_other tasks u i t :
  tasks !! i = Some t → Task.id t ≠ upd_id u →
  (updateTaskStatus tasks u).1 !! i = Some t.
Proof.
  intros Hi Hne. unfold updateTaskStatus.
  destruct (findIndex _ _) as [[j t']|] eqn:Hfind; [|done].
  apply findIndex_Some in Hfind as [Hj Hid]. cbn [fst].
  rewrite list_lookup_insert_ne; [done|]. intros ->. congruence.
Qed.

Lemma findIndex_None taskId tasks :
  taskId ∉ Task.id <$> tasks → findIndex taskId tasks = None.
Proof.
  intros Hnot. destruct (findIndex taskId tasks) as [[i t]|] eqn:Hfind; [|done].
  apply findIndex_Some in Hfind as [Hi Hid]. destruct Hnot.
  apply list_elem_of_fmap. exists t. split; [done|].
  by eapply list_elem_of_lookup_2.
Qed.

(** X14. [updateTaskStatus] changes one task and nothing else: the
    identifiers and descriptions of all tasks, and every task whose
    identifier is not the one named, stay as they are.  An identifier that
    no task has changes nothing and emits no snapshot; otherwise the first
    task with that identifier takes the new status and the array after the
    update is the snapshot handed to [onProgress]. *)
Theorem update_changes_one_task (tasks : list Task.t) (u : Update) :
  let tasks' := (updateTaskStatus tasks u).1 in
  Task.id <$> tasks' = Task.id <$> tasks
  ∧ Task.description <$> tasks' = Task.description <$> tasks
  ∧ (∀ i t, tasks !! i = Some t → Task.id t ≠ upd_id u → tasks' !! i = Some t)
  ∧ (upd_id u ∉ Task.id <$> tasks → updateTaskStatus tasks u = (tasks, None))
  ∧ (upd_id u ∈ Task.id <$> tasks →
     (updateTaskStatus tasks u).2 = Some tasks'
     ∧ ∃ i t t',
         tasks !! i = Some t ∧ Task.id t = upd_id u
         ∧ (∀ j t0, j < i → tasks !! j = Some t0 → Task.id t0 ≠ upd_id u)
         ∧ tasks' !! i = Some t'
         ∧ Task.status t' = upd_status u
         ∧ ∀ j, j ≠ i → tasks' !! j = tasks !! j).
Proof.
  cbn zeta. split; [apply updateTaskStatus_ids|].
  split; [apply updateTaskStatus_descriptions|].
  split; [apply updateTaskStatus_other|]. split.
  - intros Hnot. unfold updateTaskStatus. by rewrite findIndex_None.
  - intros Hin. destruct (findIndex_is_Some _ _ Hin) as [[i t] Hfind].
    unfold updateTaskStatus. rewrite Hfind. cbn [fst snd]. split; [done|].
    apply list_find_Some in Hfind as (Hi & Hid & Hfirst).
    exists i, t, (updated t u). split_and!; try done.
    + intros j t0 Hj Ht0. by eapply Hfirst.
    + apply list_lookup_insert_eq. by eapply lookup_lt_Some.
    + intros j Hj. by rewrite list_lookup_insert_ne.
Qed.

Lemma replay_last calls : ∀ tasks,
  last (tasks :: replay tasks calls) = Some (final_tasks tasks calls).
Proof.
  induction calls as [|u calls IH]; intros tasks; [done|].
  cbn [replay final_tasks foldl]. fold (final_tasks (updateTaskStatus tasks u).1 calls).
  unfold updateTaskStatus at 1 2.
  destruct (findIndex _ _) as [[i t]|] eqn:Hfind.
  - rewrite <- IH. cbn [fst]. done.
  - rewrite <- IH. done.
Qed.

Lemma replay_length calls : ∀ tasks,
  (∀ u, u ∈ calls → upd_id u ∈ Task.id <$> tasks) →
  length (replay tasks calls) = length calls.
Proof.
  induction calls as [|u calls IH]; intros tasks Hids; [done|].
  cbn [replay length].
  pose proof (updateTaskStatus_ids tasks u) as Hsame.
  destruct (findIndex_is_Some (upd_id u) tasks) as [[i t] Hfind].
  { apply Hids. by left. }
  unfold updateTaskStatus in *. rewrite Hfind in *. cbn [fst] in Hsame.
  cbn [length]. f_equal. apply IH. intros u' Hu'. rewrite Hsame.
  apply Hids. by right.
Qed.

Lemma replay_ids calls : ∀ tasks s,
  s ∈ replay tasks calls →
  Task.id <$> s = Task.id <$> tasks
  ∧ Task.description <$> s = Task.description <$> tasks.
Proof.
  induction calls as [|u calls IH]; intros tasks s; [by intros ?%elem_of_nil|].
  cbn [replay].
  pose proof (updateTaskStatus_ids tasks u) as Hids.
  pose proof (updateTaskStatus_descriptions tasks u) as Hdescr.
  destruct (updateTaskStatus tasks u) as [tasks' [snapshot|]] eqn:Hupd;
    cbn [fst] in *.
  - assert (snapshot = tasks') as ->.
    { unfold updateTaskStatus in Hupd. destruct (findIndex _ _) as [[??]|]; congruence. }
    intros [->|Hs]%elem_of_cons; [done|].
    apply IH in Hs as [-> ->]. done.
  - intros Hs. apply IH in Hs as [-> ->]. done.
Qed.

Lemma foldl_updated_id calls : ∀ t, Task.id (foldl updated t calls) = Task.id t.
Proof. induction calls as [|u calls IH]; intros t; [done|]. cbn. by rewrite IH. Qed.

Lemma final_tasks_lookup calls : ∀ tasks j t,
  NoDup (Task.id <$> tasks) → tasks !! j = Some t →
  final_tasks tasks calls !! j
    = Some (foldl updated t (calls_for (Task.id t) calls)).
Proof.
  induction calls as [|u calls IH]; intros tasks j t Hnodup Hj; [done|].
  cbn [final_tasks foldl]. fold (final_tasks (updateTaskStatus tasks u).1 calls).
  rewrite calls_for_cons.
  pose proof (updateTaskStatus_ids tasks u) as Hids.
  destruct (decide (upd_id u = Task.id t)) as [Hid|Hid].
  - cbn [foldl]. rewrite <- (updated_id t u).
    apply IH; [by rewrite Hids|].
    unfold updateTaskStatus.
    destruct (findIndex_is_Some (upd_id u) tasks) as [[i t'] Hfind].
    { apply list_elem_of_fmap. exists t. split; [done|].
      by eapply list_elem_of_lookup_2. }
    rewrite Hfind. cbn [fst].
    apply findIndex_Some in Hfind as [Hi Hid'].
    assert (i = j) as ->.
    { eapply (NoDup_lookup _ _ _ _ Hnodup).
      - by rewrite list_lookup_fmap, Hi.
      - rewrite list_lookup_fmap, Hj. cbn. by rewrite Hid', Hid. }
    assert (t' = t) as -> by congruence.
    apply list_lookup_insert_eq. by eapply lookup_lt_Some.
  - apply IH; [by rewrite Hids|].
    apply updateTaskStatus_other; [done|]. congruence.
Qed.

(** ** The run as a whole *)

Lemma concat_imap_length {A B} (n : nat) (l : list A) :
  ∀ f : nat → A → list B,
  (∀ i x, length (f i x) = n) → length (concat (imap f l)) = length l * n.
Proof.
  induction l as [|x l IH]; intros f Hf; [done|].
  cbn [imap concat length]. rewrite length_app, Hf, (IH (f ∘ S)); [lia|].
  intros i y. apply Hf.
Qed.

Lemma initial_tasks_length (config : AppConfig) :
  length (initial_tasks config)
    = length (prompts config) * length (providers config).
Proof.
  unfold initial_tasks. apply concat_imap_length.
  intros i text. by rewrite length_fmap.
Qed.

Lemma retry_updates_app taskId evs evs' :
  retry_updates taskId (evs ++ evs')
    = retry_updates taskId evs ++ retry_updates taskId evs'.
Proof. apply omap_app. Qed.

Lemma retry_updates_rounds {T} taskId (fn : nat → Outcome T) d : ∀ a,
  (∀ j, a ≤ j < a + d → ∃ t, fn j = Rejected t) →
  retry_updates taskId (rounds fn a d) = retry_update taskId <$> seq a d.
Proof.
  induction d as [|d IH]; intros a Hfail; [done|].
  rewrite rounds_S, retry_updates_app.
  destruct (Hfail a) as [t ->]; [lia|].
  rewrite IH by (intros j ?; apply Hfail; lia). done.
Qed.

Lemma foldl_updated_retries taskId l : ∀ t,
  let t' := foldl updated t (retry_update taskId <$> l) in
  Task.error t' = Task.error t
  ∧ Task.retries t' = match last l with
                      | Some k => Some k
                      | None => Task.retries t
                      end.
Proof.
  induction l as [|k l IH]; intros t; [done|].
  cbn [fmap list_fmap foldl]. destruct (IH (updated t (retry_update taskId k)))
    as [Herr Hret].
  cbn zeta. fold (fmap (retry_update taskId) l). rewrite Herr, Hret.
  split; [done|]. destruct l as [|k' l]; [reflexivity|].
  change (last (k :: k' :: l)) with (last (k' :: l)).
  destruct (last (k' :: l)) eqn:Hlast; [done|]. by apply last_None in Hlast.
Qed.

Lemma last_seq_1 n :
  1 ≤ n → last (seq 1 (n - 1)) = if n =? 1 then None else Some (n - 1).
Proof.
  intros Hn. destruct n as [|[|n]]; [lia|done|].
  replace (S (S n) - 1) with (S n) by lia.
  rewrite seq_S, last_snoc. cbn [Nat.eqb]. f_equal.
Qed.

Section run_facts.
Variable JSON_parse : string → Outcome Value.
Variable JSON_stringify : Value → string.
Variable stringify_error : JsError → Outcome string.
Variable config : AppConfig.
Variable world : World.
Variable sched : nat → list nat.

#[local] Abbreviation providerFunction :=
  (providerFunction JSON_parse JSON_stringify config world).
#[local] Abbreviation run_unit :=
  (run_unit JSON_parse JSON_stringify stringify_error config world).
#[local] Abbreviation run_prompt :=
  (run_prompt JSON_parse JSON_stringify stringify_error config world sched).
#[local] Abbreviation run_prompts :=
  (run_prompts JSON_parse JSON_stringify stringify_error config world sched).
#[local] Abbreviation runAnalysis :=
  (runAnalysis JSON_parse JSON_stringify stringify_error config world sched).

Lemma progress_length clients :
  initializeClients config = inr clients →
  length (progress runAnalysis) = S (length (calls runAnalysis)).
Proof.
  intros Hinit. unfold runAnalysis. rewrite Hinit. cbn. f_equal.
  apply replay_length.
  intros u (i & p & Hi & Hp & ->)%run_prompts_calls_ids.
  destruct (lookup_lt_is_Some_2 (prompts config) i) as [text Htext]; [lia|].
  by eapply initial_tasks_has.
Qed.

(** X15. Every snapshot handed to [onProgress] is the whole task list: it
    has the identifiers and descriptions of the initial tasks, in the same
    order, so one task per prompt and selected provider.  When the
    initializer succeeds the first snapshot is the initial list, all
    [pending], and every later call of [updateTaskStatus] emits one more;
    when the initializer throws, [onProgress] is never called. *)
Theorem snapshots_keep_the_task_list :
  (∀ s, s ∈ progress runAnalysis →
     Task.id <$> s = Task.id <$> initial_tasks config
     ∧ Task.description <$> s = Task.description <$> initial_tasks config
     ∧ length s = length (prompts config) * length (providers config))
  ∧ (∀ clients, initializeClients config = inr clients →
       head (progress runAnalysis) = Some (initial_tasks config)
       ∧ Forall (λ t, Task.status t = pending) (initial_tasks config)
       ∧ length (progress runAnalysis) = S (length (calls runAnalysis)))
  ∧ (∀ e, initializeClients config = inl e →
       progress runAnalysis = [] ∧ calls runAnalysis = []).
Proof.
  unfold runAnalysis.
  destruct (initializeClients config) as [e|clients] eqn:Hinit; cbn.
  { split; [by intros s ?%elem_of_nil|]. split; [by intros ? [=]|done]. }
  split; [|split; [|by intros ? [=]]].
  - intros s Hs.
    assert (Task.id <$> s = Task.id <$> initial_tasks config
            ∧ Task.description <$> s = Task.description <$> initial_tasks config)
      as [Hids Hdescr].
    { apply elem_of_cons in Hs as [->|Hs]; [done|]. by eapply replay_ids. }
    split_and!; [done..|].
    rewrite <- initial_tasks_length, <- (length_fmap Task.id s), Hids.
    apply length_fmap.
  - intros ? [= <-]. split; [done|]. split.
    + apply Forall_forall.
      by intros t (i & text & p & _ & _ & ->)%initial_tasks_elem.
    + pose proof (progress_length clients Hinit) as Hlen.
      unfold runAnalysis in Hlen. by rewrite Hinit in Hlen.
Qed.

(** The [switch] passes a provider exactly when it has a credential and a
    model identifier. *)
Lemma not_initialized_iff clients p :
  initializeClients config = inr clients → p ∈ providers config →
  not_initialized config clients p = None ↔ configured config p = true.
Proof.
  unfold initializeClients, configured.
  destruct (bool_decide (gemini ∈ providers config)
            && negb (truthy_str (key_gemini (apiKeys config)))) eqn:Hg; [done|].
  intros [= <-] Hp.
  destruct p; cbn [not_initialized key_for client_gemini client_openai
                   client_perplexity];
    rewrite ?(bool_decide_eq_true_2 _ Hp), ?orb_true_r; cbn [andb orb].
  - rewrite (bool_decide_eq_true_2 _ Hp) in Hg. cbn in Hg.
    apply negb_false_iff in Hg. rewrite Hg.
    destruct (key_gemini (apiKeys config)) as [k|]; [|done].
    rewrite bool_decide_eq_true_2 by eauto. cbn.
    by destruct (truthy_str (models config gemini)).
  - destruct (truthy_str (key_openai (apiKeys config))) eqn:Hk; rewrite ?Hk; cbn;
      by destruct (truthy_str (models config openai)).
  - destruct (truthy_str (key_perplexity (apiKeys config))) eqn:Hk; rewrite ?Hk;
      cbn; by destruct (truthy_str (models config perplexity)).
  - destruct (truthy_str (key_openai (apiKeys config))) eqn:Hk; rewrite ?Hk; cbn;
      by destruct (truthy_str (models config openai_websearch)).
Qed.

Lemma first_refusal clients pIndex p e :
  p ∈ providers config → not_initialized config clients p = Some e →
  ∃ e', head (omap refusal (imap (run_unit clients pIndex) (providers config)))
          = Some e'.
Proof.
  intros Hp He. apply list_elem_of_lookup in Hp as [slot Hslot].
  assert (e ∈ omap refusal (imap (run_unit clients pIndex) (providers config)))
    as Hin.
  { apply list_elem_of_omap. exists (run_unit clients pIndex slot p). split.
    - apply list_elem_of_lookup. exists slot.
      by rewrite list_lookup_imap, Hslot.
    - unfold run_unit. by rewrite He. }
  destruct (omap refusal _) as [|e' ?]; [by apply elem_of_nil in Hin|].
  by exists e'.
Qed.

Lemma refused_run clients text rest p :
  initializeClients config = inr clients →
  prompts config = text :: rest →
  p ∈ providers config → configured config p = false →
  ∃ e,
    run_prompts clients 0 (prompts config)
      = ((λ p, enter (task_id 0 p)) <$> providers config, throw e)
    ∧ is_configuration_error (ThrownError e).
Proof.
  intros Hinit Hprompts Hp Hconf.
  destruct (not_initialized config clients p) as [e|] eqn:He.
  2:{ apply (not_initialized_iff clients p Hinit Hp) in He. congruence. }
  destruct (first_refusal clients 0 p e Hp He) as [e' Hhead].
  exists e'. rewrite Hprompts. cbn [run_prompts].
  unfold run_prompt. rewrite Hhead. split; [done|].
  destruct (refusal_head JSON_parse JSON_stringify stringify_error config world
              clients 0 (providers config) 0 e' Hhead) as (p' & _ & He').
  by eapply not_initialized_error.
Qed.

(** X16. What rejects a run.  The returned promise rejects if and only if
    Gemini is selected without a key, or there is at least one prompt and
    some selected provider lacks its key or its model identifier, or the
    adapter of some unit failed for good with an error on which
    [JSON.stringify] throws in the [catch] block.  In particular a run
    without prompts resolves (with no results) even when keys of other
    providers are missing. *)
Theorem run_rejects_iff_refused_or_unserializable :
  (∃ t, result runAnalysis = Rejected t) ↔
    (gemini ∈ providers config
     ∧ truthy_str (key_gemini (apiKeys config)) = false)
    ∨ (prompts config ≠ []
       ∧ ∃ p, p ∈ providers config ∧ configured config p = false)
    ∨ (∃ pIndex text slot p e t,
         prompts config !! pIndex = Some text
         ∧ providers config !! slot = Some p
         ∧ (retryWithBackoff (providerFunction pIndex slot p) 2).2
             = inr (Some e)
         ∧ stringify_error e = Rejected t).
Proof.
  assert ((∃ pIndex text slot p e t,
             prompts config !! pIndex = Some text
             ∧ providers config !! slot = Some p
             ∧ (retryWithBackoff (providerFunction pIndex slot p) 2).2
                 = inr (Some e)
             ∧ stringify_error e = Rejected t) →
          ∃ t, result runAnalysis = Rejected t) as Hdump.
  { intros (pIndex & text & slot & p & e & t & Hi & Hslot & He & Ht).
    by eapply stringify_failure_rejects_run. }
  revert Hdump.
  unfold runAnalysis.
  destruct (initializeClients config) as [e|clients] eqn:Hinit; cbn [result].
  - intros _. split; [|by eauto]. intros _. left.
    unfold initializeClients in Hinit.
    destruct (bool_decide (gemini ∈ providers config)
              && negb (truthy_str (key_gemini (apiKeys config)))) eqn:Hg; [|done].
    apply andb_true_iff in Hg as [Hin Hkey].
    apply bool_decide_eq_true in Hin. by apply negb_true_iff in Hkey.
  - intros Hdump. split.
    + intros [t Hrej]. right.
      destruct (run_prompts_rejects _ _ _ _ _ _ clients _ _ _ Hrej)
        as [(p & e & Hp & He & _)
           |(i & text & slot & p & e & Hi & Hslot & He & Ht)].
      * left. split. { intros Hnil. rewrite Hnil in Hrej. done. }
        exists p. split; [done|].
        destruct (configured config p) eqn:Hconf; [|done].
        apply (not_initialized_iff clients p Hinit Hp) in Hconf. congruence.
      * right. by exists i, text, slot, p, e, t.
    + intros [[Hin Hkey]|[[Hprompts (p & Hp & Hconf)]|Hfails]].
      * unfold initializeClients in Hinit.
        rewrite (bool_decide_eq_true_2 _ Hin), Hkey in Hinit. done.
      * destruct (prompts config) as [|text rest] eqn:Hps; [done|].
        destruct (refused_run clients text rest p Hinit Hps Hp Hconf)
          as (e & Hrun & _).
        rewrite Hps in Hrun. rewrite Hrun. by eexists.
      * by apply Hdump.
Qed.

(** X17. When some selected provider lacks its key or model identifier
    (and the Gemini key, if Gemini is selected, is there), the run is
    rejected only after every unit of the first prompt has been marked
    [in_progress]: up to the rejection the calls of [updateTaskStatus] are
    exactly those, one per selected provider in selection order, each with
    its snapshot; the run then rejects with a configuration error, and no
    unit has been marked failed. *)
Theorem refused_run_leaves_units_in_progress (text : string) (rest : list string)
    (p : Provider) :
  (gemini ∈ providers config →
   truthy_str (key_gemini (apiKeys config)) = true) →
  prompts config = text :: rest →
  p ∈ providers config → configured config p = false →
  calls runAnalysis = (λ p, enter (task_id 0 p)) <$> providers config
  ∧ length (progress runAnalysis) = S (length (providers config))
  ∧ ∃ e, result runAnalysis = throw e ∧ is_configuration_error (ThrownError e).
Proof.
  intros Hgemini Hprompts Hp Hconf.
  pose proof progress_length as Hlen.
  unfold runAnalysis in *.
  destruct (initializeClients config) as [e|clients] eqn:Hinit.
  - unfold initializeClients in Hinit.
    destruct (bool_decide (gemini ∈ providers config)) eqn:Hin; [|done].
    apply bool_decide_eq_true in Hin. by rewrite (Hgemini Hin) in Hinit.
  - destruct (refused_run clients text rest p Hinit Hprompts Hp Hconf)
      as (e & Hrun & He).
    specialize (Hlen clients eq_refl).
    cbn [calls progress result] in *. rewrite Hrun in *. cbn [fst snd] in *.
    split; [done|]. split; [|by eauto].
    rewrite Hlen. by rewrite length_fmap.
Qed.

Lemma initial_tasks_task i text p :
  prompts config !! i = Some text → p ∈ providers config →
  new_task config i text p ∈ initial_tasks config.
Proof.
  intros Hi Hp. unfold initial_tasks. apply elem_of_concat.
  exists (new_task config i text <$> providers config). split.
  - by apply (elem_of_lookup_imap_2
                (λ i text, new_task config i text <$> providers config)).
  - by apply list_elem_of_fmap_2.
Qed.

Lemma run_prompt_calls_for clients pIndex slot p rs :
  NoDup (providers config) →
  (run_prompt clients pIndex).2 = Resolved rs →
  providers config !! slot = Some p →
  calls_for (task_id pIndex p) (run_prompt clients pIndex).1
    = enter (task_id pIndex p) :: later_calls (run_unit clients pIndex slot p).
Proof.
  intros Hnodup Hres Hslot.
  assert (p ∈ providers config) as Hp by by eapply list_elem_of_lookup_2.
  pose proof (entered_calls_for pIndex p _ Hnodup Hp) as Hentered.
  rewrite (run_prompt_all_resolve JSON_parse JSON_stringify stringify_error
             config world sched clients pIndex rs)
    by exact (run_prompt_Resolved _ _ _ _ _ sched clients pIndex rs Hres).
  cbn [fst].
  rewrite calls_for_app, Hentered. cbn [app]. f_equal.
  rewrite (calls_for_merge_by _ _ _ slot).
  - rewrite list_lookup_fmap, list_lookup_imap, Hslot. cbn.
    apply calls_for_all. intros u. apply later_calls_ids.
  - intros j q Hq Hj.
    rewrite list_lookup_fmap, list_lookup_imap in Hq.
    destruct (providers config !! j) as [p'|] eqn:Hj'; [|done].
    injection Hq as <-. apply calls_for_nil.
    intros u Hu%later_calls_ids Heq. rewrite Hu in Heq.
    apply task_id_inj in Heq as [_ ->].
    apply Hj. by eapply (NoDup_lookup _ _ _ _ Hnodup).
Qed.

Lemma run_prompts_calls_for clients (ps : list string) :
  ∀ pIndex results i text p,
  (run_prompts clients pIndex ps).2 = Resolved results →
  ps !! i = Some text →
  calls_for (task_id (pIndex + i) p) (run_prompts clients pIndex ps).1
    = calls_for (task_id (pIndex + i) p) (run_prompt clients (pIndex + i)).1.
Proof.
  induction ps as [|text' ps IH]; intros pIndex results i text p Hres Hi;
    [done|].
  cbn [run_prompts] in *.
  pose proof (run_prompt_calls_ids JSON_parse JSON_stringify stringify_error
                config world sched clients pIndex) as Hids.
  destruct (run_prompt clients pIndex) as [callsP [rs|t]] eqn:Hprompt; [|done].
  pose proof (run_prompts_calls_ids JSON_parse JSON_stringify stringify_error
                config world sched clients ps (S pIndex)) as Hlater.
  specialize (IH (S pIndex)).
  destruct (run_prompts clients (S pIndex) ps) as [calls' [results'|t]] eqn:Hrest;
    [|done].
  cbn [fst snd] in *. rewrite calls_for_app.
  destruct i as [|i].
  - rewrite Nat.add_0_r, Hprompt. cbn [fst].
    rewrite (calls_for_nil _ calls'), app_nil_r; [done|].
    intros u (i' & p' & Hi' & _ & ->)%Hlater [-> _]%task_id_inj. lia.
  - rewrite (calls_for_nil _ callsP).
    + replace (pIndex + S i) with (S pIndex + i) by lia.
      by eapply IH.
    + intros u (p' & _ & ->)%Hids [Heq _]%task_id_inj. lia.
Qed.

(** X18. After a run that resolves (with distinct selected providers) the
    last snapshot agrees with the results, unit by unit.  For the unit of
    prompt [i] and provider [p] there is an attempt [n] between 1 and 3 that
    decided it: the attempts before [n] failed with retryable errors, and
    attempt [n] succeeded, or failed with an error that is not retryable, or
    was the third.  If attempt [n] succeeded, the result cell is the
    adapter's result and the task ends [completed] without an error; if it
    failed, the cell is the failure record for the error the engine threw,
    with the dump [JSON.stringify] made of it, and the task ends in status
    [error], with the error's message unless that is empty.  In both cases
    the task's retry counter is [n - 1], or unset when the first attempt
    decided. *)
Theorem final_task_reflects_last_attempt (results : list AnalysisResult)
    (i slot : nat) (text : string) (p : Provider) :
  NoDup (providers config) →
  result runAnalysis = Resolved results →
  prompts config !! i = Some text →
  providers config !! slot = Some p →
  ∃ n snapshot t rs r,
    1 ≤ n ≤ 3
    ∧ reached (providerFunction i slot p) n
    ∧ (n < 3 → ∀ e, providerFunction i slot p n = Rejected e →
               isRetryableError e ≠ Resolved true)
    ∧ results !! i = Some {| prompt := text; providerResponses := rs |}
    ∧ rs !! slot = Some r
    ∧ last (progress runAnalysis) = Some snapshot
    ∧ t ∈ snapshot
    ∧ Task.id t = task_id i p
    ∧ Task.retries t = (if n =? 1 then None else Some (n - 1))
    ∧ match providerFunction i slot p n with
      | Resolved v =>
          r = v ∧ Task.status t = completed ∧ Task.error t = None
      | Rejected e =>
          (∃ raw, stringify_error (given_up e) = Resolved raw
                  ∧ r = failure_result raw p (given_up e))
          ∧ Task.status t = failed
          ∧ Task.error t = (if String.eqb (err_message (given_up e)) ""
                            then None else Some (err_message (given_up e)))
      end.
Proof.
  intros Hnodup Hres Hi Hslot.
  assert (p ∈ providers config) as Hp by by eapply list_elem_of_lookup_2.
  unfold runAnalysis in *.
  destruct (initializeClients config) as [e|clients] eqn:Hinit; [done|].
  cbn [result progress] in *.
  destruct (run_prompts_lookup _ _ _ _ _ _ clients _ _ _ Hres i text Hi)
    as (rs & Hrs & Hrow).
  destruct (run_prompt_lookup _ _ _ _ _ _ clients _ _ Hrs slot p Hslot)
    as (r & Hr & Hcell).
  cbn [Nat.add] in Hrs.
  (* the calls that name the task of this unit *)
  pose proof (run_prompts_calls_for clients _ 0 results i text p Hres Hi)
    as Hcalls.
  cbn [Nat.add] in Hcalls.
  rewrite (run_prompt_calls_for clients i slot p rs Hnodup Hrs Hslot) in Hcalls.
  (* the last snapshot *)
  rewrite replay_last.
  pose proof (initial_tasks_task i text p Hi Hp) as Htask.
  apply list_elem_of_lookup in Htask as [j Hj].
  pose proof (final_tasks_lookup
                (run_prompts clients 0 (prompts config)).1 _ j _
                (initial_tasks_NoDup config Hnodup) Hj) as Hfinal.
  cbn [new_task Task.id] in Hfinal. rewrite Hcalls in Hfinal.
  (* the engine *)
  destruct (retry_loop_outcome (providerFunction i slot p) 2 2 1 None)
    as (n & Hn & Hbefore & Hrun & Hstop); [done|].
  assert (Hfail : ∀ k, 1 ≤ k < 1 + (n - 1) →
                       ∃ t, providerFunction i slot p k = Rejected t).
  { intros k Hk. destruct (Hbefore k) as (t & ? & _); [lia|eauto]. }
  unfold run_unit in Hr, Hfinal.
  destruct (not_initialized config clients p); [done|].
  unfold retryWithBackoff in Hr, Hfinal. cbn [Nat.add] in Hr, Hfinal.
  rewrite Hrun in Hr, Hfinal.
  rewrite retry_updates_app, retry_updates_rounds in Hfinal by done.
  cbn [retry_updates omap list_omap] in Hfinal. rewrite app_nil_r in Hfinal.
  set (t0 := updated (new_task config i text p) (enter (task_id i p))) in *.
  destruct (foldl_updated_retries (task_id i p) (seq 1 (n - 1)) t0)
    as [Herr Hret].
  rewrite last_seq_1 in Hret by lia.
  eexists n, _, _, rs, r. split; [lia|]. split; [exact Hbefore|].
  split; [intros; eapply Hstop; [lia|done]|].
  split; [done|]. split; [done|]. split; [reflexivity|].
  split; [by eapply list_elem_of_lookup_2|].
  destruct (providerFunction i slot p n) as [v|e] eqn:Hn'.
  - pose proof (providerFunction_no_error _ _ _ _ _ _ _ _ _ Hn') as Hnone.
    cbn [settle] in Hr, Hfinal |- *. rewrite Hnone in *.
    cbn [truthy_str later_calls unit_outcome fst snd] in *.
    injection Hr as <-.
    cbn [foldl]. fold t0. rewrite foldl_app. cbn [foldl].
    cbn [updated Task.id Task.status Task.error Task.retries upd_status
         upd_error upd_retries truthy_str].
    rewrite foldl_updated_id, Herr, Hret.
    split_and!; try done. by destruct (n =? 1).
  - cbn [settle later_calls unit_outcome fst snd] in *.
    apply bind_Resolved in Hr as (raw & Hraw & [= <-]).
    cbn [foldl]. fold t0. rewrite foldl_app. cbn [foldl].
    cbn [updated Task.id Task.status Task.error Task.retries upd_status
         upd_error upd_retries truthy_str].
    rewrite foldl_updated_id, Herr, Hret.
    split_and!; try done.
    + by destruct (n =? 1).
    + by exists raw.
    + by destruct (String.eqb (err_message (given_up e)) "").
Qed.

Lemma network_failure_rejects pIndex slot p attempt :
  p ≠ gemini →
  primary (http_calls world pIndex slot attempt) = FetchRejects failed_to_fetch →
  providerFunction pIndex slot p attempt
    = throw (network_error (api_host p)).
Proof.
  intros Hp Hprimary.
  destruct p; [done|..]; cbn [providerFunction api_host];
    [unfold runOpenAIAnalysisForPrompt
    |unfold runPerplexityAnalysisForPrompt
    |unfold runOpenAIWebSearchAnalysisForPrompt];
    by rewrite Hprimary.
Qed.

Lemma network_error_not_retryable p :
  isRetryableError (ThrownError (network_error (api_host p))) = Resolved false.
Proof. by destruct p; vm_compute. Qed.

(** X19. A network failure of an HTTP provider is not retried.  When
    [fetch] rejects with [Failed to fetch] on the first request of an
    OpenAI, OpenAI web-search or Perplexity unit, the request helper
    replaces the error by its [Network Error] message, which the classifier
    does not recognise: the engine makes one attempt and gives up with that
    error.  In every run that resolves, the unit's cell is the failure
    record for that message, with the dump [JSON.stringify] made of the
    error. *)
Theorem network_failure_fails_unit_at_once (i slot : nat) (text : string)
    (p : Provider) :
  prompts config !! i = Some text →
  providers config !! slot = Some p →
  p ≠ gemini →
  primary (http_calls world i slot 1) = FetchRejects failed_to_fetch →
  retryWithBackoff (providerFunction i slot p) 2
    = ([EvCall 1], inr (Some (network_error (api_host p))))
  ∧ ∀ results,
      result runAnalysis = Resolved results →
      ∃ rs raw,
        results !! i = Some {| prompt := text; providerResponses := rs |}
        ∧ stringify_error (network_error (api_host p)) = Resolved raw
        ∧ rs !! slot
            = Some (failure_result raw p (network_error (api_host p))).
Proof.
  intros Hi Hslot Hp Hprimary.
  pose proof (network_failure_rejects i slot p 1 Hp Hprimary) as Hfail.
  pose proof (network_error_not_retryable p) as Hnot.
  assert (reached (providerFunction i slot p) 1) as Hreached
    by (intros j ?; lia).
  assert (isRetryableError (ThrownError (network_error (api_host p)))
            ≠ Resolved true ∨ 1 = 3) as Hstop
    by (left; by rewrite Hnot).
  split.
  { rewrite <- (given_up_Error (network_error (api_host p))).
    by apply (retry_gives_up _ 2 1 _ ltac:(lia) ltac:(lia) Hreached Hfail). }
  intros results Hres. unfold runAnalysis in Hres.
  destruct (initializeClients config) as [e|clients]; [done|].
  cbn [result] in Hres.
  destruct (run_prompts_lookup _ _ _ _ _ _ clients _ _ _ Hres i text Hi)
    as (rs & Hrs & Hrow).
  cbn [Nat.add] in Hrs.
  destruct (run_prompt_lookup _ _ _ _ _ _ clients _ _ Hrs slot p Hslot)
    as (r & Hr & Hcell).
  destruct (run_unit_gives_up _ _ _ _ _ clients i slot p 1 _ r Hr
              ltac:(lia) ltac:(lia) Hreached Hfail Hstop)
    as (raw & Hraw & ->).
  rewrite given_up_Error in Hraw, Hcell.
  by exists rs, raw.
Qed.

Lemma http_error_rejects pIndex slot p attempt e :
  p ≠ gemini →
  genericAIFetch (api_host p) (primary (http_calls world pIndex slot attempt))
    = throw e →
  providerFunction pIndex slot p attempt = throw e.
Proof.
  intros Hp Hprimary.
  destruct p; [done|..]; cbn [providerFunction api_host] in *;
    [unfold runOpenAIAnalysisForPrompt
    |unfold runPerplexityAnalysisForPrompt
    |unfold runOpenAIWebSearchAnalysisForPrompt];
    by rewrite Hprimary.
Qed.

(** X20. For the three HTTP providers the status of a failed first request
    decides whether the unit is retried.  When the first request of an
    attempt is answered with a status outside 200..299 (401, or any other
    with a body that is not [null]), the adapter throws the [APIError] for
    that status; if this happens on the first attempt, the engine notifies
    [onRetry], waits 1000 ms and makes a second attempt exactly when the
    status is 429 or from 500 to 504, and otherwise gives up after that one
    attempt with the [APIError]. *)
Theorem http_status_decides_retry (pIndex slot : nat) (p : Provider)
    (status : Z) (statusText : string) (json : Outcome Value) :
  p ≠ gemini →
  primary (http_calls world pIndex slot 1) = HttpResponse status statusText json →
  ¬ response_ok status →
  status = 401%Z ∨ (∀ d, json = Resolved d → nullish d = false) →
  ∃ msg,
    providerFunction pIndex slot p 1 = throw (mkError (APIError status) msg)
    ∧ (retried_status status →
       ∃ post,
         (retryWithBackoff (providerFunction pIndex slot p) 2).1
           = EvCall 1 :: EvOnRetry (mkError (APIError status) msg) 1
               :: EvSleep 1000 :: EvCall 2 :: post)
    ∧ (¬ retried_status status →
       retryWithBackoff (providerFunction pIndex slot p) 2
         = ([EvCall 1], inr (Some (mkError (APIError status) msg)))).
Proof.
  intros Hp Hprimary Hok Hbody.
  destruct (fetch_error_status (api_host p) statusText status json Hok Hbody)
    as (msg & Hfetch & _).
  rewrite <- Hprimary in Hfetch.
  pose proof (http_error_rejects pIndex slot p 1 _ Hp Hfetch) as Hfail.
  pose proof (APIError_retryable status msg) as Hclass.
  exists msg. split; [done|]. split.
  - intros Hretried%Hclass. unfold retryWithBackoff. cbn [Nat.add].
    rewrite (retry_loop_again _ 2 2 1 None _ Hfail Hretried) by lia.
    cbn [fst retry_round toError app].
    destruct (retry_loop_starts_with_call (providerFunction pIndex slot p) 2 1 2
                (Some (mkError (APIError status) msg))) as [post ->].
    by exists post.
  - intros Hnot.
    rewrite <- (given_up_Error (mkError (APIError status) msg)).
    apply (retry_gives_up _ 2 1 _ ltac:(lia) ltac:(lia)
             ltac:(intros j ?; lia) Hfail).
    left. intros Hretry. by apply Hclass in Hretry.
Qed.
End run_facts.

(** ** Report export *)

Lemma string_app_nil_r (s : string) : (s ++ "")%string = s.
Proof. induction s as [|c s IH]; [done|]. string_app. by rewrite IH. Qed.

Lemma replace_all_app c replacement (x y : string) :
  replace_all c replacement (x ++ y)%string
    = (replace_all c replacement x ++ replace_all c replacement y)%string.
Proof.
  induction x as [|c' x IH]; [done|].
  string_app. cbn [replace_all]. by rewrite IH, string_app_assoc.
Qed.

Lemma replace_specials_app (x y : string) :
  replace_specials (x ++ y)%string
    = (replace_specials x ++ replace_specials y)%string.
Proof. unfold replace_specials. by rewrite !replace_all_app. Qed.

Lemma replace_specials_char (c : Ascii.ascii) :
  replace_specials (String c EmptyString) = escape_char c.
Proof. by destruct c as [[] [] [] [] [] [] [] []]; vm_compute. Qed.

Lemma replace_specials_each (s : string) : replace_specials s = escape_each s.
Proof.
  induction s as [|c s IH]; [done|].
  change (String c s) with (String c EmptyString ++ s)%string.
  rewrite replace_specials_app, replace_specials_char, IH. done.
Qed.

Lemma avoids_app c (x y : string) :
  avoids c (x ++ y)%string ↔ avoids c x ∧ avoids c y.
Proof.
  induction x as [|c' x IH]; string_app; cbn [avoids]; [tauto|].
  rewrite IH. tauto.
Qed.

Lemma escape_char_avoids (c : Ascii.ascii) :
  avoids less_than (escape_char c) ∧ avoids greater_than (escape_char c)
  ∧ avoids double_quote (escape_char c) ∧ avoids single_quote (escape_char c).
Proof.
  destruct c as [[] [] [] [] [] [] [] []]; vm_compute;
    repeat split; discriminate.
Qed.

Lemma escape_each_avoids (s : string) :
  avoids less_than (escape_each s) ∧ avoids greater_than (escape_each s)
  ∧ avoids double_quote (escape_each s) ∧ avoids single_quote (escape_each s).
Proof.
  induction s as [|c s IH]; [done|].
  cbn [escape_each]. rewrite !avoids_app.
  pose proof (escape_char_avoids c). tauto.
Qed.

Lemma escape_char_plain (c : Ascii.ascii) :
  c ≠ ampersand → c ≠ less_than → c ≠ greater_than → c ≠ double_quote →
  c ≠ single_quote → escape_char c = String c EmptyString.
Proof.
  intros. unfold escape_char.
  by rewrite !(proj2 (Ascii.eqb_neq _ _)) by done.
Qed.

Lemma escape_each_of_string (s : string) :
  escapeHtml (VStr s) = Resolved (escape_each s)
  ∧ avoids less_than (escape_each s)
  ∧ avoids greater_than (escape_each s)
  ∧ avoids double_quote (escape_each s)
  ∧ avoids single_quote (escape_each s).
Proof.
  split; [|apply escape_each_avoids].
  unfold escapeHtml. destruct s as [|c s]; [done|].
  cbn [truthy negb String.eqb]. by rewrite replace_specials_each.
Qed.

(** X21. [escapeHtml] escapes character by character: on a string its
    result is the concatenation, in order, of [&amp;], [&lt;], [&gt;],
    [&quot;] and [&#039;] for the five special characters and of every other
    character unchanged (the five passes never escape an entity twice).
    The result contains none of the characters [<], [>], the double and the
    single quote; a falsy argument gives the empty string, and a truthy
    argument that is not a string makes the function throw. *)
Theorem escapeHtml_escapes_each_character (unsafe : Value) :
  (∀ s, unsafe = VStr s →
     escapeHtml unsafe = Resolved (escape_each s)
     ∧ avoids less_than (escape_each s)
     ∧ avoids greater_than (escape_each s)
     ∧ avoids double_quote (escape_each s)
     ∧ avoids single_quote (escape_each s))
  ∧ (truthy unsafe = false → escapeHtml unsafe = Resolved ""%string)
  ∧ (truthy unsafe = true → (∀ s, unsafe ≠ VStr s) →
     ∃ e, escapeHtml unsafe = throw e ∧ err_class e = TypeError).
Proof.
  split; [|split].
  - intros s ->. apply escape_each_of_string.
  - intros Hfalsy. unfold escapeHtml. by rewrite Hfalsy.
  - intros Htruthy Hnot. unfold escapeHtml. rewrite Htruthy. cbn [negb].
    destruct unsafe; try done; try by eexists. by destruct (Hnot s).
Qed.

Lemma escape_char_cases (c : Ascii.ascii) :
  (c = ampersand ∧ escape_char c = "&amp;"%string)
  ∨ (c = less_than ∧ escape_char c = "&lt;"%string)
  ∨ (c = greater_than ∧ escape_char c = "&gt;"%string)
  ∨ (c = double_quote ∧ escape_char c = "&quot;"%string)
  ∨ (c = single_quote ∧ escape_char c = "&#039;"%string)
  ∨ (c ≠ ampersand ∧ escape_char c = String c EmptyString).
Proof.
  destruct (decide (c = ampersand)) as [->|?]; [by left|].
  destruct (decide (c = less_than)) as [->|?]; [by right; left|].
  destruct (decide (c = greater_than)) as [->|?]; [by do 2 right; left|].
  destruct (decide (c = double_quote)) as [->|?]; [by do 3 right; left|].
  destruct (decide (c = single_quote)) as [->|?]; [by do 4 right; left|].
  do 5 right. split; [done|]. by apply escape_char_plain.
Qed.

Lemma escape_char_inj (c c' : Ascii.ascii) (x y : string) :
  (escape_char c ++ x)%string = (escape_char c' ++ y)%string → c = c' ∧ x = y.
Proof.
  destruct (escape_char_cases c) as [[Hc ->]|[[Hc ->]|[[Hc ->]|[[Hc ->]|[[Hc ->]|[Hc ->]]]]]],
           (escape_char_cases c') as [[Hc' ->]|[[Hc' ->]|[[Hc' ->]|[[Hc' ->]|[[Hc' ->]|[Hc' ->]]]]]];
    intros H; vm_compute in H; vm_compute in Hc; vm_compute in Hc';
    simplify_eq; done.
Qed.

Lemma escape_each_inj (s : string) : ∀ s', escape_each s = escape_each s' → s = s'.
Proof.
  induction s as [|c s IH]; intros [|c' s'] H; [done|..].
  - exfalso. cbn [escape_each] in H.
    destruct (escape_char_cases c') as [[_ Hc]|[[_ Hc]|[[_ Hc]|[[_ Hc]|[[_ Hc]|[_ Hc]]]]]];
      rewrite Hc in H; vm_compute in H; discriminate.
  - exfalso. cbn [escape_each] in H.
    destruct (escape_char_cases c) as [[_ Hc]|[[_ Hc]|[[_ Hc]|[[_ Hc]|[[_ Hc]|[_ Hc]]]]]];
      rewrite Hc in H; vm_compute in H; discriminate.
  - cbn [escape_each] in H. apply escape_char_inj in H as [-> H].
    by rewrite (IH s' H).
Qed.

(** X22. Escaping loses nothing: two strings that [escapeHtml] maps to the
    same text are the same string. *)
Theorem escapeHtml_is_injective (s s' : string) :
  escapeHtml (VStr s) = escapeHtml (VStr s') → s = s'.
Proof.
  destruct (escape_each_of_string s) as [-> _].
  destruct (escape_each_of_string s') as [-> _].
  intros [= H]. by apply escape_each_inj.
Qed.

(** *** The citation summary *)

Lemma counted_cons base e m :
  counted base (e :: m)
    = (if decide (CitationSummary.url e = base)
       then CitationSummary.count e else 0) + counted base m.
Proof.
  unfold counted. rewrite filter_cons. by destruct (decide _).
Qed.

Lemma count_citation_counted base title base' m :
  counted base' (count_citation base title m)
    = counted base' m + (if decide (base = base') then 1 else 0).
Proof.
  induction m as [|e m IH].
  - cbn [count_citation]. rewrite counted_cons. cbn.
    destruct (decide (base = base')); done.
  - cbn [count_citation]. destruct (String.eqb_spec (CitationSummary.url e) base)
      as [Heq|Hne].
    + rewrite !counted_cons. cbn [CitationSummary.url CitationSummary.count].
      rewrite Heq. destruct (decide (base = base')); lia.
    + rewrite !counted_cons, IH. lia.
Qed.

Lemma count_citation_total base title m :
  sum_list (CitationSummary.count <$> count_citation base title m)
    = S (sum_list (CitationSummary.count <$> m)).
Proof.
  induction m as [|e m IH]; [done|].
  cbn [count_citation]. destruct (String.eqb _ _); cbn; [done|].
  cbn in IH. rewrite IH. lia.
Qed.

Lemma count_citation_urls base title m :
  CitationSummary.url <$> count_citation base title m
    = if decide (base ∈ CitationSummary.url <$> m)
      then CitationSummary.url <$> m
      else (CitationSummary.url <$> m) ++ [base].
Proof.
  induction m as [|e m IH].
  - cbn. rewrite decide_False; [done|]. apply not_elem_of_nil.
  - cbn [count_citation]. destruct (String.eqb_spec (CitationSummary.url e) base)
      as [Heq|Hne].
    + cbn. rewrite decide_True; [done|]. rewrite Heq. by left.
    + rewrite !fmap_cons, IH.
      destruct (decide (base ∈ CitationSummary.url <$> m)) as [Hin|Hnot].
      * rewrite decide_True; [done|]. by right.
      * rewrite decide_False; [done|].
        intros [?|?]%elem_of_cons; congruence.
Qed.

Lemma count_citation_NoDup base title m :
  NoDup (CitationSummary.url <$> m) →
  NoDup (CitationSummary.url <$> count_citation base title m).
Proof.
  intros Hnodup. rewrite count_citation_urls. destruct (decide _); [done|].
  apply NoDup_app. split_and!; [done| |apply NoDup_singleton].
  intros x Hx ->%list_elem_of_singleton. done.
Qed.

Lemma count_citation_positive base title m :
  Forall (λ e, 1 ≤ CitationSummary.count e) m →
  Forall (λ e, 1 ≤ CitationSummary.count e) (count_citation base title m).
Proof.
  induction 1 as [|e m He Hm IH]; cbn [count_citation].
  - by repeat constructor.
  - destruct (String.eqb _ _); constructor; cbn; try done. lia.
Qed.

Lemma occurrences_cons base c cs :
  occurrences base (c :: cs)
    = (if decide (base_of c = Some base) then 1 else 0) + occurrences base cs.
Proof. unfold occurrences. rewrite filter_cons. by destruct (decide _). Qed.

Lemma baseUrl_Resolved c base :
  baseUrl (url c) = Resolved base ↔ base_of c = Some base.
Proof.
  unfold baseUrl, base_of. destruct (url c); split; intros H; by simplify_eq.
Qed.

Lemma count_citations_spec cs : ∀ m m',
  count_citations m cs = Resolved m' →
  (∀ base, counted base m' = counted base m + occurrences base cs)
  ∧ sum_list (CitationSummary.count <$> m')
      = sum_list (CitationSummary.count <$> m) + length cs
  ∧ (NoDup (CitationSummary.url <$> m) → NoDup (CitationSummary.url <$> m'))
  ∧ (Forall (λ e, 1 ≤ CitationSummary.count e) m →
     Forall (λ e, 1 ≤ CitationSummary.count e) m')
  ∧ Forall (λ c, is_Some (base_of c)) cs.
Proof.
  induction cs as [|c cs IH]; intros m m' Hrun.
  - injection Hrun as <-.
    split_and!; try done; try intros base; unfold occurrences; cbn; lia.
  - cbn [count_citations] in Hrun.
    apply bind_Resolved in Hrun as (base & Hbase & Hrun).
    apply baseUrl_Resolved in Hbase.
    destruct (IH _ _ Hrun) as (Hcount & Htotal & Hnodup & Hpos & Hall).
    split_and!.
    + intros base'. rewrite Hcount, count_citation_counted, occurrences_cons.
      rewrite Hbase.
      destruct (decide (base = base')) as [->|Hne].
      * rewrite decide_True by done. lia.
      * rewrite decide_False by congruence. lia.
    + rewrite Htotal, count_citation_total. cbn [length]. lia.
    + intros ?. by apply Hnodup, count_citation_NoDup.
    + intros ?. by apply Hpos, count_citation_positive.
    + constructor; [by rewrite Hbase|done].
Qed.

Lemma insert_by_count_Permutation x l : insert_by_count x l ≡ₚ x :: l.
Proof.
  induction l as [|y l IH]; [done|].
  cbn [insert_by_count]. destruct (_ <=? _)%nat; [done|].
  rewrite IH. apply Permutation_swap.
Qed.

Lemma sort_by_count_Permutation l : sort_by_count l ≡ₚ l.
Proof.
  induction l as [|x l IH]; [done|].
  cbn [sort_by_count foldr]. fold (sort_by_count l).
  by rewrite insert_by_count_Permutation, IH.
Qed.

Lemma insert_by_count_sorted x l :
  StronglySorted by_descending_count l →
  StronglySorted by_descending_count (insert_by_count x l).
Proof.
  induction 1 as [|y l Hl IH Hy]; cbn [insert_by_count].
  - by repeat constructor.
  - destruct (Nat.leb_spec (CitationSummary.count y) (CitationSummary.count x))
      as [Hle|Hlt].
    + constructor; [by constructor|]. constructor; [done|].
      eapply Forall_impl; [exact Hy|]. unfold by_descending_count. intros; lia.
    + constructor; [done|].
      rewrite insert_by_count_Permutation. constructor; [|done].
      unfold by_descending_count. lia.
Qed.

Lemma sort_by_count_sorted l : StronglySorted by_descending_count (sort_by_count l).
Proof.
  induction l as [|x l IH]; [constructor|].
  by apply insert_by_count_sorted.
Qed.

Lemma counted_absent base m :
  base ∉ CitationSummary.url <$> m → counted base m = 0.
Proof.
  induction m as [|e m IH]; intros Hnot; [done|].
  rewrite fmap_cons in Hnot. apply not_elem_of_cons in Hnot as [Hne Hnot].
  rewrite counted_cons, decide_False, IH by done. done.
Qed.

Lemma counted_entry m e :
  NoDup (CitationSummary.url <$> m) → e ∈ m →
  counted (CitationSummary.url e) m = CitationSummary.count e.
Proof.
  induction m as [|e' m IH]; intros Hnodup He; [by apply elem_of_nil in He|].
  rewrite fmap_cons in Hnodup. apply NoDup_cons in Hnodup as [Hnot Hnodup].
  rewrite counted_cons. apply elem_of_cons in He as [->|He].
  - rewrite decide_True by done.
    rewrite counted_absent by done. lia.
  - rewrite decide_False, IH by (try done; intros Heq; apply Hnot;
      apply list_elem_of_fmap; by exists e). done.
Qed.

Lemma sum_list_Permutation_count (l l' : list CitationSummary.t) :
  l ≡ₚ l' →
  sum_list (CitationSummary.count <$> l) = sum_list (CitationSummary.count <$> l').
Proof. induction 1; cbn in *; lia. Qed.

(** X23. The citation summary counts every citation once, under its base
    URL (the text before the first [?]).  When the aggregation succeeds,
    the rows have distinct URLs, the count of a row is the number of
    citations in the results whose base URL is the row's URL (at least one),
    every citation is counted by some row, the counts add up to the number
    of citations, and the rows are in descending order of count. *)
Theorem citation_summary_counts_every_citation (results : list AnalysisResult)
    (rows : list CitationSummary.t) :
  aggregatedCitations results = Resolved rows →
  NoDup (CitationSummary.url <$> rows)
  ∧ (∀ row, row ∈ rows →
       CitationSummary.count row
         = occurrences (CitationSummary.url row) (visited_citations results)
       ∧ 1 ≤ CitationSummary.count row)
  ∧ (∀ c, c ∈ visited_citations results →
       ∃ row, row ∈ rows ∧ base_of c = Some (CitationSummary.url row))
  ∧ sum_list (CitationSummary.count <$> rows)
      = length (visited_citations results)
  ∧ StronglySorted by_descending_count rows.
Proof.
  intros Hrun. unfold aggregatedCitations in Hrun.
  apply bind_Resolved in Hrun as (m & Hm & [= <-]).
  destruct (count_citations_spec _ _ _ Hm) as (Hcount & Htotal & Hnodup & Hpos & Hall).
  specialize (Hnodup (NoDup_nil_2)). specialize (Hpos (Forall_nil_2 _)).
  pose proof (sort_by_count_Permutation m) as Hperm.
  split_and!.
  - by rewrite Hperm.
  - intros row Hrow. rewrite Hperm in Hrow. split.
    + rewrite <- (counted_entry m row Hnodup Hrow), Hcount. done.
    + by eapply (proj1 (Forall_forall _ _) Hpos).
  - intros c Hc.
    destruct (proj1 (Forall_forall _ _) Hall c Hc) as [base Hbase].
    assert (0 < counted base m) as Hpositive.
    { rewrite Hcount. cbn. apply list_elem_of_split in Hc as (l1 & l2 & ->).
      unfold occurrences. rewrite filter_app, filter_cons, decide_True by done.
      rewrite length_app. cbn. lia. }
    unfold counted in Hpositive.
    destruct (filter _ m) as [|row rest] eqn:Hfilter; [cbn in Hpositive; lia|].
    assert (row ∈ filter (λ e, CitationSummary.url e = base) m) as Hrow
      by (rewrite Hfilter; by left).
    apply list_elem_of_filter in Hrow as [Hurl Hrow].
    exists row. split; [by rewrite Hperm|]. by rewrite Hurl.
  - rewrite (sum_list_Permutation_count _ _ Hperm), Htotal. done.
  - apply sort_by_count_sorted.
Qed.

(** * The properties on sample inputs *)

(** ** Retry engine *)

(** C3, counterexample.  A parse failure whose message happens to contain
    ["503"] is classified retryable, although it is neither a network failure
    nor an HTTP response. *)
Lemma parse_failure_is_retried :
  isRetryableError Sample.parse_failure = Resolved true
  ∧ spec_retryable Sample.parse_failure = false.
Proof. by vm_compute. Qed.

Lemma classifier_retryable_witness :
  status_above_504 Sample.overloaded = false
  ∧ (isRetryableError Sample.overloaded = Resolved true ↔
       spec_retryable Sample.overloaded = true
       ∨ (APIError_status Sample.overloaded = None
          ∧ has_retry_marker Sample.overloaded = true)).
Proof.
  split; [reflexivity|].
  apply (classifier_retryable Sample.overloaded); reflexivity.
Defined.

Lemma always_overloaded_reached k : reached Sample.always_overloaded k.
Proof. intros j _. by exists Sample.overloaded. Qed.

Lemma retry_backoff_schedule_witness :
  (isRetryableError Sample.overloaded = Resolved true → 2 ≤ 2 →
     ∃ post,
       (retryWithBackoff Sample.always_overloaded 2).1 =
         (rounds Sample.always_overloaded 1 (2 - 1)
          ++ [EvCall 2; EvOnRetry (toError Sample.overloaded) 2;
              EvSleep (1000 * 2 ^ (Z.of_nat 2 - 1))]
          ++ EvCall 3 :: post)%list)
  ∧ (isRetryableError Sample.overloaded ≠ Resolved true →
       (retryWithBackoff Sample.always_overloaded 2).1 =
         (rounds Sample.always_overloaded 1 (2 - 1) ++ [EvCall 2])%list)
  ∧ (∀ t1 t2,
       Sample.always_overloaded 1 = Rejected t1 → isRetryableError t1 = Resolved true →
       Sample.always_overloaded 2 = Rejected t2 → isRetryableError t2 = Resolved true →
       (retryWithBackoff Sample.always_overloaded 2).1 =
         [EvCall 1; EvOnRetry (toError t1) 1; EvSleep 1000;
          EvCall 2; EvOnRetry (toError t2) 2; EvSleep 2000;
          EvCall 3]).
Proof.
  apply (retry_backoff_schedule Sample.always_overloaded 2 2 Sample.overloaded).
  - lia.
  - lia.
  - apply always_overloaded_reached.
  - reflexivity.
Defined.

(** C8, counterexample.  An operation that rejects with a plain object whose
    message names a rate limit is retried twice, since the classifier reads
    the message of any value; what the engine throws after the third attempt
    is not the value of that attempt but a new [Error] whose message is
    [String] of it, on which the kind of the failure can no longer be read:
    the classifier would not retry it. *)
Lemma thrown_object_is_rewrapped :
  Sample.always_rate_limited 3 = Rejected Sample.rate_limited
  ∧ isRetryableError Sample.rate_limited = Resolved true
  ∧ retryWithBackoff Sample.always_rate_limited 2
      = ([EvCall 1; EvOnRetry (mkError PlainError "[object Object]") 1;
          EvSleep 1000;
          EvCall 2; EvOnRetry (mkError PlainError "[object Object]") 2;
          EvSleep 2000;
          EvCall 3],
         inr (Some (mkError PlainError "[object Object]")))
  ∧ ThrownError (mkError PlainError "[object Object]") ≠ Sample.rate_limited
  ∧ isRetryableError (ThrownError (mkError PlainError "[object Object]"))
      = Resolved false.
Proof. by vm_compute. Qed.

Lemma retry_rethrows_last_error_witness :
  (retryWithBackoff Sample.always_overloaded 2).2
    = inr (Some (toError Sample.overloaded))
  ∧ (∀ e, Sample.overloaded = ThrownError e →
          (retryWithBackoff Sample.always_overloaded 2).2 = inr (Some e))
  ∧ (∀ repr msg, Sample.overloaded = ThrownValue repr msg →
       (retryWithBackoff Sample.always_overloaded 2).2
         = inr (Some (mkError PlainError repr))).
Proof.
  apply (retry_rethrows_last_error Sample.always_overloaded 2 3 Sample.overloaded).
  - lia.
  - lia.
  - apply always_overloaded_reached.
  - reflexivity.
  - discriminate.
  - discriminate.
  - right. reflexivity.
Defined.

(** ** Adapters *)

(** C4, counterexample.  The configuration names [Acme] and [Globex]; the
    model's analysis reports [Acme] only; the lists the Gemini and the OpenAI
    adapters return have no entry for [Globex], so not the entry with 0
    mentions and ['Not Mentioned'] either. *)
Lemma omitted_brand_stays_omitted :
  let config := Sample.config [gemini; openai] Sample.all_keys in
  "Globex"%string ∈ allBrands config
  ∧ (∃ r, runGeminiAnalysisForPrompt Sample.JSON_parse Sample.JSON_stringify
            config (Sample.sdk_exchange "Acme leads." Sample.acme_array_text)
            = Resolved r
          ∧ brandAnalyses r = VArr [Sample.acme_entry]
          ∧ brand_entries "Globex"%string (brandAnalyses r) = []
          ∧ not_mentioned "Globex" ∉ array_items (brandAnalyses r))
  ∧ (∃ r, runOpenAIAnalysisForPrompt Sample.JSON_parse Sample.JSON_stringify
            config (Sample.http_exchange "Acme leads." Sample.acme_object_text)
            = Resolved r
          ∧ brandAnalyses r = VArr [Sample.acme_entry]
          ∧ brand_entries "Globex"%string (brandAnalyses r) = []
          ∧ not_mentioned "Globex" ∉ array_items (brandAnalyses r)).
Proof.
  assert (not_mentioned "Globex" ∉ [Sample.acme_entry]) as Habsent.
  { intros Hin. apply list_elem_of_singleton in Hin. discriminate Hin. }
  split_and!.
  - set_solver.
  - eexists. split; [by vm_compute|]. split_and!; [by vm_compute..|exact Habsent].
  - eexists. split; [by vm_compute|]. split_and!; [by vm_compute..|exact Habsent].
Qed.

Lemma adapters_return_model_analysis_witness :
  let config := Sample.config [gemini; openai] Sample.all_keys in
  (∃ r analysisResult text,
     runGeminiAnalysisForPrompt Sample.JSON_parse Sample.JSON_stringify
       config (Sample.sdk_exchange "Acme leads." Sample.acme_array_text)
       = Resolved r
     ∧ analysis (Sample.sdk_exchange "Acme leads." Sample.acme_array_text)
       = Resolved analysisResult
     ∧ get analysisResult "text" = Resolved text
     ∧ Sample.JSON_parse (String_ text) = Resolved (brandAnalyses r))
  ∧ (∃ r analysisData content parsed,
       runOpenAIAnalysisForPrompt Sample.JSON_parse Sample.JSON_stringify
         config (Sample.http_exchange "Acme leads." Sample.acme_object_text)
         = Resolved r
       ∧ genericAIFetch "api.openai.com"
           (analysis (Sample.http_exchange "Acme leads." Sample.acme_object_text))
         = Resolved analysisData
       ∧ first_choice_content analysisData = Resolved content
       ∧ Sample.JSON_parse (String_ content) = Resolved parsed
       ∧ brandAnalyses r = or_else (prop parsed "brands") (VArr [])).
Proof.
  intros config.
  destruct (adapters_return_model_analysis
              Sample.JSON_parse Sample.JSON_stringify config) as [Hgemini Hopenai].
  split.
  - destruct (runGeminiAnalysisForPrompt Sample.JSON_parse Sample.JSON_stringify
                config (Sample.sdk_exchange "Acme leads." Sample.acme_array_text))
      as [r|t] eqn:Hrun; [|by vm_compute in Hrun].
    destruct (Hgemini _ _ Hrun) as (analysisResult & text & H).
    by exists r, analysisResult, text.
  - destruct (runOpenAIAnalysisForPrompt Sample.JSON_parse Sample.JSON_stringify
                config (Sample.http_exchange "Acme leads." Sample.acme_object_text))
      as [r|t] eqn:Hrun; [|by vm_compute in Hrun].
    destruct (Hopenai _ _ Hrun) as (analysisData & content & parsed & H).
    by exists r, analysisData, content, parsed.
Defined.

Lemma perplexity_absorbs_missing_fence_witness :
  let config := Sample.config [perplexity] Sample.all_keys in
  let ex := Sample.http_exchange "Acme leads." "Acme is mentioned once." in
  ∃ r, runPerplexityAnalysisForPrompt Sample.JSON_parse Sample.JSON_stringify
         config ex = Resolved r
       ∧ brandAnalyses r = VArr []
       ∧ error r = None
       ∧ response r = VStr "Acme leads.".
Proof.
  intros config ex.
  apply (perplexity_absorbs_missing_fence
           Sample.JSON_parse Sample.JSON_stringify config ex
           (Sample.chat_body "Acme leads.") (VStr "Acme leads.")
           (Sample.chat_body "Acme is mentioned once.")
           "Acme is mentioned once." []).
  - reflexivity.
  - reflexivity.
  - reflexivity.
  - reflexivity.
  - intros Hfence%json_fence_match_Some. vm_compute in Hfence.
    destruct Hfence as [payload Hnone]. discriminate Hnone.
  - reflexivity.
Defined.

(** ** Orchestrator *)

Lemma sample_config_valid (ps : list Provider) :
  valid_config (Sample.config ps Sample.all_keys).
Proof. intros p _. by destruct p. Qed.

(** C1, counterexample.  One prompt, Gemini selected, no key: the run is
    rejected and returns no result at all. *)
Lemma missing_key_rejects_run :
  let run := runAnalysis Sample.JSON_parse Sample.JSON_stringify
               Sample.stringify_error
               (Sample.config [gemini] Sample.no_keys) Sample.healthy (λ _, []) in
  length (prompts (Sample.config [gemini] Sample.no_keys)) = 1
  ∧ result run = throw (mkError PlainError "Google Gemini API Key is missing.")
  ∧ ¬ ∃ results, result run = Resolved results.
Proof.
  split_and!; [done|by vm_compute|].
  intros (results & Hres). by vm_compute in Hres.
Qed.

Lemma result_matrix_shape_witness :
  let config := Sample.config [gemini; openai] Sample.all_keys in
  ∃ results,
    result (runAnalysis Sample.JSON_parse Sample.JSON_stringify
              Sample.stringify_error config Sample.down (λ _, []))
      = Resolved results
    ∧ prompt <$> results = prompts config
    ∧ Forall (λ ar, provider <$> providerResponses ar = providers config) results
    ∧ length results = length (prompts config)
    ∧ Forall (λ ar, length (providerResponses ar) = length (providers config))
             results.
Proof.
  intros config.
  apply (result_matrix_shape Sample.JSON_parse Sample.JSON_stringify
           Sample.stringify_error config Sample.down (λ _, [])).
  - apply sample_config_valid.
  - intros pIndex text slot p Hi Hslot e He.
    destruct pIndex as [|pIndex]; [|by destruct pIndex].
    destruct slot as [|[|slot]]; [| |by destruct slot];
      injection Hslot as <-; vm_compute in He; injection He as <-;
      eexists; reflexivity.
Defined.

(** C2, at the failing input.  One prompt, OpenAI selected, no key: the task
    is created, shown as [pending], then shown as [in_progress], and only
    then is the run rejected. *)
Lemma unit_starts_before_missing_key_is_detected :
  let run := runAnalysis Sample.JSON_parse Sample.JSON_stringify
               Sample.stringify_error
               (Sample.config [openai] Sample.no_keys) Sample.healthy (λ _, []) in
  result run
    = throw (mkError PlainError "OpenAI client not initialized properly.")
  ∧ (λ snapshot : list Task.t, Task.status <$> snapshot) <$> progress run
    = [[pending]; [in_progress]].
Proof. by vm_compute. Qed.

(** The sibling path: a missing Gemini key is detected by
    [initializeClients], before any task exists. *)
Lemma missing_gemini_key_is_detected_first
    (JSON_parse : string → Outcome Value) (JSON_stringify : Value → string)
    (stringify_error : JsError → Outcome string) (config : AppConfig)
    (world : World) (sched : nat → list nat) :
  gemini ∈ providers config →
  truthy_str (key_gemini (apiKeys config)) = false →
  runAnalysis JSON_parse JSON_stringify stringify_error config world sched
    = {| calls := []; progress := [];
         result := throw (mkError PlainError "Google Gemini API Key is missing.") |}.
Proof.
  intros Hin Hkey. unfold runAnalysis, initializeClients.
  by rewrite (bool_decide_eq_true_2 _ Hin), Hkey.
Qed.

(** C6, at the failing input.  One prompt, Gemini and OpenAI selected, both
    with a key.  The Gemini SDK rejects with an error that holds a reference
    to itself; it is not retryable, so the engine gives up after one
    attempt and the [catch] block of the unit marks the task failed.  Then
    [JSON.stringify] throws on the error, inside the [catch] block: the unit
    is rejected instead of settling with a failure record, and with it the
    whole run, whatever the order in which the units proceed, and not with a
    configuration error. *)
Lemma unserializable_failure_rejects_run :
  let config := Sample.config [gemini; openai] Sample.all_keys in
  let run := runAnalysis Sample.JSON_parse Sample.JSON_stringify
               Sample.stringify_error config Sample.entangled in
  let dump_failure := Sample.circular_structure in
  valid_config config
  ∧ retryWithBackoff
      (providerFunction Sample.JSON_parse Sample.JSON_stringify config
         Sample.entangled 0 0 gemini) 2
      = ([EvCall 1], inr (Some (toError Sample.self_referring)))
  ∧ Sample.stringify_error (toError Sample.self_referring) = throw dump_failure
  ∧ (∀ sched, result (run sched) = throw dump_failure)
  ∧ (λ snapshot : list Task.t, Task.status <$> snapshot)
      <$> progress (run (λ _, []))
      = [[pending; pending]; [in_progress; pending];
         [in_progress; in_progress]; [failed; in_progress]]
  ∧ ¬ is_configuration_error (ThrownError dump_failure).
Proof.
  intros config run dump_failure.
  split; [apply sample_config_valid|].
  split; [by vm_compute|]. split; [by vm_compute|].
  split; [|split; [by vm_compute|by intros (msg & [=] & _)]].
  intros sched.
  destruct (stringify_failure_rejects_run Sample.JSON_parse
              Sample.JSON_stringify Sample.stringify_error config
              Sample.entangled sched 0 "Who leads PIM software?" 0 gemini
              (toError Sample.self_referring) (ThrownError dump_failure))
    as [t Hrejected]; [by vm_compute..|].
  subst run. cbn beta. rewrite Hrejected. f_equal.
  unfold runAnalysis in Hrejected.
  destruct (initializeClients config) as [e|clients] eqn:Hclients;
    [by vm_compute in Hclients|].
  injection Hclients as <-. cbn [result] in Hrejected.
  apply run_prompts_rejects in Hrejected
    as [(p & e & Hp & He & _)|(i & text & slot & p & e & _ & _ & _ & Hdump)].
  - apply elem_of_cons in Hp as [->|Hp];
      [|apply list_elem_of_singleton in Hp as ->]; by vm_compute in He.
  - unfold Sample.stringify_error in Hdump.
    destruct (includes "circular" (err_message e)); [|done].
    by injection Hdump as <-.
Qed.

Lemma units_follow_lifecycle_witness :
  let config := Sample.config [gemini; openai] Sample.all_keys in
  follows_lifecycle (initial_tasks config)
    (calls (runAnalysis Sample.JSON_parse Sample.JSON_stringify
              Sample.stringify_error config Sample.down (λ _, [1; 0; 1; 0]))).
Proof.
  intros config.
  apply (units_follow_lifecycle Sample.JSON_parse Sample.JSON_stringify
           Sample.stringify_error config Sample.down (λ _, [1; 0; 1; 0])).
  apply NoDup_cons. split; [|apply NoDup_singleton].
  intros Hin. apply list_elem_of_singleton in Hin. discriminate Hin.
Defined.

(** ** Further properties *)

Lemma retry_returns_first_success_witness :
  retryWithBackoff Sample.second_time_lucky 2
    = (rounds Sample.second_time_lucky 1 (2 - 1) ++ [EvCall 2], inl (VStr "ok"))
  ∧ attempts (retryWithBackoff Sample.second_time_lucky 2).1 = seq 1 2.
Proof.
  apply (retry_returns_first_success Sample.second_time_lucky 2 2 (VStr "ok")).
  - lia.
  - lia.
  - intros j Hj. assert (j = 1) as -> by lia.
    exists Sample.overloaded. split; reflexivity.
  - reflexivity.
Defined.

Lemma fetch_error_carries_status_witness :
  ∃ msg,
    genericAIFetch "api.openai.com"
      (HttpResponse 503 "Service Unavailable"
         (Resolved (VObj [("error"%string,
                           VObj [("message"%string, VStr "overloaded")])])))
      = throw (mkError (APIError 503) msg)
    ∧ (isRetryableError (ThrownError (mkError (APIError 503) msg)) = Resolved true
       ↔ retried_status 503)
    ∧ (503%Z = 401%Z →
       msg = "Authentication failed. Please check your API key."%string)
    ∧ (503%Z ≠ 401%Z →
       (∃ t, Resolved (VObj [("error"%string,
                              VObj [("message"%string, VStr "overloaded")])])
             = Rejected t) →
       msg = "Service Unavailable"%string).
Proof.
  apply (fetch_error_carries_status "api.openai.com" "Service Unavailable" 503).
  - unfold response_ok. lia.
  - right. intros d Hd. injection Hd as <-. reflexivity.
Defined.

Lemma fetch_null_error_body_loses_status_witness :
  ∃ t,
    genericAIFetch "api.openai.com"
      (HttpResponse 503 "Service Unavailable" (Resolved VNull)) = Rejected t
    ∧ instanceof_TypeError t = true
    ∧ APIError_status t = None
    ∧ isRetryableError t = Resolved false.
Proof.
  apply (fetch_null_error_body_loses_status "api.openai.com"
           "Service Unavailable" 503).
  - unfold response_ok. lia.
  - lia.
Defined.

Lemma websearch_response_is_never_blank_witness :
  let config := Sample.config [openai_websearch] Sample.all_keys in
  let ex := Sample.http_exchange "   " Sample.acme_object_text in
  ∃ r rawData message text,
    runOpenAIWebSearchAnalysisForPrompt Sample.JSON_parse Sample.JSON_stringify
      config ex = Resolved r
    ∧ genericAIFetch "api.openai.com" (primary ex) = Resolved rawData
    ∧ first_choice_message rawData = Resolved message
    ∧ response r = VStr text
    ∧ is_blank text = false
    ∧ (prop message "content" = VStr text
       ∨ text = "No text summary provided by the model."%string)
    ∧ ((∀ s, prop message "content" = VStr s → is_blank s = true) →
       text = "No text summary provided by the model."%string).
Proof.
  intros config ex.
  destruct (runOpenAIWebSearchAnalysisForPrompt Sample.JSON_parse
              Sample.JSON_stringify config ex) as [r|t] eqn:Hrun;
    [|by vm_compute in Hrun].
  destruct (websearch_response_is_never_blank Sample.JSON_parse
              Sample.JSON_stringify config ex r Hrun)
    as (rawData & message & text & H).
  by exists r, rawData, message, text.
Defined.

Lemma adapter_result_is_well_formed_witness :
  let config := Sample.config [gemini; perplexity] Sample.all_keys in
  ∃ r,
    providerFunction Sample.JSON_parse Sample.JSON_stringify config
      Sample.healthy 0 1 perplexity 1 = Resolved r
    ∧ provider r = perplexity
    ∧ error r = None
    ∧ question <$> additionalAnswers r = additionalQuestions config
    ∧ is_Some (rawResponse r)
    ∧ is_Some (tokenUsage r)
    ∧ is_Some (analysisTokenUsage r)
    ∧ (is_Some (citations r) ↔ perplexity = openai_websearch ∨ perplexity = perplexity).
Proof.
  intros config.
  destruct (providerFunction Sample.JSON_parse Sample.JSON_stringify config
              Sample.healthy 0 1 perplexity 1) as [r|t] eqn:Hrun;
    [|by vm_compute in Hrun].
  exists r. split; [reflexivity|].
  exact (adapter_result_is_well_formed Sample.JSON_parse Sample.JSON_stringify
           config Sample.healthy 0 1 1 perplexity r Hrun).
Defined.

Lemma fence_extraction_returns_payload_witness :
  json_fence_match Sample.fenced_analysis = Some Sample.acme_object_text.
Proof.
  apply (fence_extraction_returns_payload "Here is the analysis:"
           Sample.acme_object_text " Done.").
  - vm_compute. repeat split; discriminate.
  - vm_compute. repeat split; discriminate.
Defined.

Lemma perplexity_parses_fenced_payload_witness :
  let config := Sample.config [perplexity] Sample.all_keys in
  let ex := Sample.http_exchange "Acme leads." Sample.fenced_analysis in
  (∀ t, Sample.JSON_parse Sample.acme_object_text = Rejected t →
        runPerplexityAnalysisForPrompt Sample.JSON_parse Sample.JSON_stringify
          config ex = Rejected t)
  ∧ (∀ parsed answers,
       Sample.JSON_parse Sample.acme_object_text = Resolved parsed →
       nullish parsed = false →
       answer_questions config "api.perplexity.ai" ex = Resolved answers →
       ∃ r, runPerplexityAnalysisForPrompt Sample.JSON_parse
              Sample.JSON_stringify config ex = Resolved r
            ∧ brandAnalyses r = prop parsed "brands"
            ∧ response r = VStr "Acme leads.").
Proof.
  intros config ex.
  apply (perplexity_parses_fenced_payload
           Sample.JSON_parse Sample.JSON_stringify config ex
           (Sample.chat_body "Acme leads.") (VStr "Acme leads.")
           (Sample.chat_body Sample.fenced_analysis)
           Sample.fenced_analysis Sample.acme_object_text).
  - reflexivity.
  - reflexivity.
  - reflexivity.
  - reflexivity.
  - by vm_compute.
Defined.

Lemma gemini_invalid_key_is_not_retried_witness :
  retryWithBackoff
    (λ attempt, runGeminiAnalysisForPrompt Sample.JSON_parse
                  Sample.JSON_stringify
                  (Sample.config [gemini] Sample.all_keys)
                  Sample.rejected_key) 2
    = ([EvCall 1],
       inr (Some (mkError PlainError
         "Authentication failed. Please check if the Google Gemini API key is correct and valid."))).
Proof.
  apply (gemini_invalid_key_is_not_retried Sample.JSON_parse
           Sample.JSON_stringify (Sample.config [gemini] Sample.all_keys)
           (λ _, Sample.rejected_key) 2
           (mkError PlainError "API key not valid. Please pass a valid API key.")).
  - reflexivity.
  - reflexivity.
Defined.

Lemma refused_run_leaves_units_in_progress_witness :
  let config := Sample.config [openai; perplexity] Sample.no_keys in
  let run := runAnalysis Sample.JSON_parse Sample.JSON_stringify
               Sample.stringify_error config Sample.healthy (λ _, []) in
  calls run = (λ p, enter (task_id 0 p)) <$> providers config
  ∧ length (progress run) = S (length (providers config))
  ∧ ∃ e, result run = throw e ∧ is_configuration_error (ThrownError e).
Proof.
  intros config run.
  apply (refused_run_leaves_units_in_progress Sample.JSON_parse
           Sample.JSON_stringify Sample.stringify_error config Sample.healthy
           (λ _, []) "Who leads PIM software?" [] openai).
  - intros Hin. apply elem_of_cons in Hin as [Hin|Hin]; [discriminate Hin|].
    apply list_elem_of_singleton in Hin. discriminate Hin.
  - reflexivity.
  - apply elem_of_cons. left. reflexivity.
  - reflexivity.
Defined.

Lemma gemini_openai_distinct : NoDup [gemini; openai].
Proof.
  apply NoDup_cons. split; [|apply NoDup_singleton].
  intros Hin. apply list_elem_of_singleton in Hin. discriminate Hin.
Qed.

Lemma final_task_reflects_last_attempt_witness :
  let config := Sample.config [gemini; openai] Sample.all_keys in
  let fn := providerFunction Sample.JSON_parse Sample.JSON_stringify config
              Sample.recovering 0 1 openai in
  let run := runAnalysis Sample.JSON_parse Sample.JSON_stringify
               Sample.stringify_error config Sample.recovering
               (λ _, [1; 0; 1; 0]) in
  ∃ results n snapshot t rs r,
    result run = Resolved results
    ∧ 1 ≤ n ≤ 3
    ∧ reached fn n
    ∧ (n < 3 → ∀ e, fn n = Rejected e → isRetryableError e ≠ Resolved true)
    ∧ results !! 0 = Some {| prompt := "Who leads PIM software?";
                               providerResponses := rs |}
    ∧ rs !! 1 = Some r
    ∧ last (progress run) = Some snapshot
    ∧ t ∈ snapshot
    ∧ Task.id t = task_id 0 openai
    ∧ Task.retries t = (if n =? 1 then None else Some (n - 1))
    ∧ match fn n with
      | Resolved v => r = v ∧ Task.status t = completed ∧ Task.error t = None
      | Rejected e =>
          (∃ raw, Sample.stringify_error (given_up e) = Resolved raw
                  ∧ r = failure_result raw openai (given_up e))
          ∧ Task.status t = failed
          ∧ Task.error t = (if String.eqb (err_message (given_up e)) ""
                            then None else Some (err_message (given_up e)))
      end.
Proof.
  intros config fn run.
  destruct (result run) as [results|t] eqn:Hres; [|by vm_compute in Hres].
  destruct (final_task_reflects_last_attempt Sample.JSON_parse
              Sample.JSON_stringify Sample.stringify_error config
              Sample.recovering (λ _, [1; 0; 1; 0]) results 0 1
              "Who leads PIM software?" openai
              gemini_openai_distinct Hres eq_refl eq_refl)
    as (n & snapshot & t & rs & r & H).
  by exists results, n, snapshot, t, rs, r.
Defined.

Lemma network_failure_fails_unit_at_once_witness :
  let config := Sample.config [gemini; openai] Sample.all_keys in
  retryWithBackoff
    (providerFunction Sample.JSON_parse Sample.JSON_stringify config
       Sample.offline 0 1 openai) 2
    = ([EvCall 1], inr (Some (network_error "api.openai.com")))
  ∧ ∃ results rs raw,
      result (runAnalysis Sample.JSON_parse Sample.JSON_stringify
                Sample.stringify_error config Sample.offline (λ _, []))
        = Resolved results
      ∧ results !! 0 = Some {| prompt := "Who leads PIM software?";
                                 providerResponses := rs |}
      ∧ Sample.stringify_error (network_error "api.openai.com") = Resolved raw
      ∧ rs !! 1 = Some (failure_result raw openai
                          (network_error "api.openai.com")).
Proof.
  intros config.
  destruct (network_failure_fails_unit_at_once Sample.JSON_parse
              Sample.JSON_stringify Sample.stringify_error config Sample.offline
              (λ _, []) 0 1 "Who leads PIM software?" openai
              eq_refl eq_refl ltac:(discriminate) eq_refl)
    as [Hengine Hcell].
  split; [exact Hengine|].
  destruct (result (runAnalysis Sample.JSON_parse Sample.JSON_stringify
                      Sample.stringify_error config Sample.offline (λ _, [])))
    as [results|t] eqn:Hres; [|by vm_compute in Hres].
  destruct (Hcell results eq_refl) as (rs & raw & H).
  by exists results, rs, raw.
Defined.

Lemma escapeHtml_is_injective_witness :
  escapeHtml (VStr "a<b") = escapeHtml (VStr "a<b")
  ∧ ("a<b" : string) = "a<b"%string.
Proof.
  split; [reflexivity|].
  apply (escapeHtml_is_injective "a<b" "a<b"). reflexivity.
Defined.

Lemma citation_summary_counts_every_citation_witness :
  ∃ rows,
    aggregatedCitations Sample.cited_results = Resolved rows
    ∧ NoDup (CitationSummary.url <$> rows)
    ∧ (∀ row, row ∈ rows →
         CitationSummary.count row
           = occurrences (CitationSummary.url row)
               (visited_citations Sample.cited_results)
         ∧ 1 ≤ CitationSummary.count row)
    ∧ (∀ c, c ∈ visited_citations Sample.cited_results →
         ∃ row, row ∈ rows ∧ base_of c = Some (CitationSummary.url row))
    ∧ sum_list (CitationSummary.count <$> rows)
        = length (visited_citations Sample.cited_results)
    ∧ StronglySorted by_descending_count rows.
Proof.
  destruct (aggregatedCitations Sample.cited_results) as [rows|t] eqn:Hrun;
    [|by vm_compute in Hrun].
  exists rows. split; [reflexivity|].
  exact (citation_summary_counts_every_citation Sample.cited_results rows Hrun).
Defined.

Lemma http_status_decides_retry_witness :
  let config := Sample.config [gemini; openai] Sample.all_keys in
  let fn := providerFunction Sample.JSON_parse Sample.JSON_stringify config
              Sample.down 0 1 openai in
  ∃ msg,
    fn 1 = throw (mkError (APIError 503) msg)
    ∧ (retried_status 503 →
       ∃ post,
         (retryWithBackoff fn 2).1
           = EvCall 1 :: EvOnRetry (mkError (APIError 503) msg) 1
               :: EvSleep 1000 :: EvCall 2 :: post)
    ∧ (¬ retried_status 503 →
       retryWithBackoff fn 2
         = ([EvCall 1], inr (Some (mkError (APIError 503) msg)))).
Proof.
  intros config fn.
  apply (http_status_decides_retry Sample.JSON_parse Sample.JSON_stringify
           config Sample.down 0 1 openai 503 "Service Unavailable"
           (Resolved (VObj [("error"%string,
                             VObj [("message"%string, VStr "overloaded")])]))).
  - discriminate.
  - reflexivity.
  - unfold response_ok. lia.
  - right. intros d Hd. injection Hd as <-. reflexivity.
Defined.
